(** * String similarity helpers: n-gram vectors, Jaccard and cosine metrics,
      best-match selection.

    Shallow embedding of [string_similarity_helpers.py].

    - Python [str] is [string], a sequence of 8-bit characters: the
      development covers the strings whose code points are below 256.
      Code points above 255 are outside this model.
    - [int] is [Z]; [float] is the IEEE-754 binary64 type [float] of the
      kernel, with the operations of [PrimFloat] (round to nearest, ties to
      even, as CPython on every supported platform). Real numbers serve
      only to measure the rounding errors of these operations.
    - [dict] / [Counter] is [gmap string Z]; [set] is [gset string].
    - Exceptions are values of [exn]; a computation that may raise
      returns a [result].
    - The generator [select_best_list] is its finite trace [gen]: the
      items it yields, in order, ended by exhaustion or by an exception. *)

From Stdlib Require Import Rbase Rfunctions R_sqrt Lra.
From Stdlib Require Import ZArith Floats Lia Bool Ascii String.
From stdpp Require Import gmap strings list fin_maps fin_sets.

Local Open Scope Z_scope.

(** ** Exceptions and results *)

Inductive exn : Type :=
| ValueError
| OverflowError.

Inductive result (A : Type) : Type :=
| Ok (a : A)
| Raise (e : exn).

Arguments Ok {A} a.
Arguments Raise {A} e.

(** Sequencing: the first exception ends the computation. *)
#[export] Instance result_bind : MBind result := fun A B k r =>
  match r with
  | Ok a => k a
  | Raise e => Raise e
  end.

(** ** Python numbers *)

(** [float(z)] for an [int] [z]: the nearest binary64 value, ties to even;
    [OverflowError] when that value is out of range. *)
Definition float_of_int (z : Z) : result float :=
  match binary_normalize prec emax z 0 false with
  | S754_infinity _ => Raise OverflowError
  | s => Ok (SF2Prim s)
  end.

(** [math.sqrt(z)] for an [int] [z]: the argument is converted first, a
    negative argument is a domain error. *)
Definition math_sqrt (z : Z) : result float :=
  x ← float_of_int z;
  if (x <? 0)%float then Raise ValueError else Ok (sqrt x).

(** Truth value of a float: [not x] holds exactly when [x == 0.0]. *)
Definition float_falsy (x : float) : bool := (x =? 0)%float.

(** [sum(l)] over a list of integers, from the left, starting at [0]. *)
Definition py_sum (l : list Z) : Z := foldl Z.add 0 l.

(** [range(stop)] *)
Definition py_range (stop : Z) : list Z :=
  map Z.of_nat (seq 0 (Z.to_nat stop)).

(** ** Python strings *)

(** An index of a slice, brought into [0 .. len]. *)
Definition slice_index (len i : Z) : Z :=
  if i <? 0 then Z.max (i + len) 0 else Z.min i len.

(** [text[lo:hi]] *)
Definition py_slice (text : string) (lo hi : Z) : string :=
  let len := Z.of_nat (String.length text) in
  let lo' := slice_index len lo in
  let hi' := slice_index len hi in
  String.substring (Z.to_nat lo') (Z.to_nat (hi' - lo')) text.

(** [" " in s] *)
Fixpoint contains_space (s : string) : bool :=
  match s with
  | EmptyString => false
  | String c s' => Ascii.eqb c " "%char || contains_space s'
  end.

(** ** Count vectors *)

(** [dict[k]] for a key known to be present. *)
Definition getitem (vec : gmap string Z) (k : string) : Z :=
  default 0 (vec !! k).

(** [Counter(l)]: each element bumps its count, missing keys count [0]. *)
Definition Counter (l : list string) : gmap string Z :=
  foldl (fun m k => <[k := default 0 (m !! k) + 1]> m) ∅ l.

(** ** The metrics *)

Definition jaccard_index (vec1 vec2 : gmap string Z) : result float :=
  let vec1_keys : gset string := dom vec1 in
  let vec2_keys : gset string := dom vec2 in
  let intersection := vec1_keys ∩ vec2_keys in
  let numerator := Z.of_nat (size intersection) in
  let union := vec1_keys ∪ vec2_keys in
  let denominator := Z.of_nat (size union) in
  if denominator =? 0 then Ok 0%float
  else
    n ← float_of_int numerator;
    d ← float_of_int denominator;
    Ok (n / d)%float.

Definition cosine_similar (vec1 vec2 : gmap string Z) : result float :=
  let vec1_keys : gset string := dom vec1 in
  let vec2_keys : gset string := dom vec2 in
  let intersection := vec1_keys ∩ vec2_keys in
  let numerator :=
    py_sum (map (fun i => getitem vec1 i * getitem vec2 i) (elements intersection)) in
  let sum1 := py_sum (map (fun i => getitem vec1 i ^ 2) (elements vec1_keys)) in
  let sum2 := py_sum (map (fun i => getitem vec2 i ^ 2) (elements vec2_keys)) in
  s1 ← math_sqrt sum1;
  s2 ← math_sqrt sum2;
  let denominator := (s1 * s2)%float in
  if float_falsy denominator then Ok 0%float
  else
    n ← float_of_int numerator;
    Ok (n / denominator)%float.

(** ** The vectorizer *)

Definition ngrams (text : string) (n : Z) : list string :=
  map (fun i => py_slice text i (i + n))
      (List.filter (fun i => negb (contains_space (py_slice text i (i + n))))
                   (py_range (Z.of_nat (String.length text) - n + 1))).

Definition text_to_ngrams_vector (text : string) (n : Z) : gmap string Z :=
  Counter (ngrams text n).

(** ** The matcher *)

(** Trace of a generator. *)
Inductive gen (A : Type) : Type :=
| Stop
| Yield (a : A) (rest : gen A)
| Throw (e : exn).

Arguments Stop {A}.
Arguments Yield {A} a rest.
Arguments Throw {A} e.

Fixpoint select_best_loop (query : string) (query_vec : gmap string Z)
    (score_cutoff : float) (choices : list string) : gen (string * float) :=
  match choices with
  | [] => Stop
  | choice :: rest =>
      if String.eqb query choice then
        select_best_loop query query_vec score_cutoff rest
      else
        let choice_vec := text_to_ngrams_vector choice 2 in
        match cosine_similar query_vec choice_vec with
        | Raise e => Throw e
        | Ok score =>
            if (score_cutoff <=? score)%float then
              Yield (choice, score)
                    (select_best_loop query query_vec score_cutoff rest)
            else select_best_loop query query_vec score_cutoff rest
        end
  end.

Definition select_best_list (query : string) (choices : list string)
    (score_cutoff : float) : gen (string * float) :=
  let query_vec := text_to_ngrams_vector query 2 in
  select_best_loop query query_vec score_cutoff choices.

(** ** The selector *)

(** [max(g, key=key)]: the first item is the running maximum, a later item
    replaces it only when its key is strictly greater. *)
Fixpoint max_loop {A : Type} (key : A -> float) (maxitem : A) (maxval : float)
    (g : gen A) : result A :=
  match g with
  | Stop => Ok maxitem
  | Throw e => Raise e
  | Yield item rest =>
      let val := key item in
      if (maxval <? val)%float then max_loop key item val rest
      else max_loop key maxitem maxval rest
  end.

Definition py_max {A : Type} (key : A -> float) (g : gen A) : result A :=
  match g with
  | Stop => Raise ValueError
  | Throw e => Raise e
  | Yield item rest => max_loop key item (key item) rest
  end.

Definition select_best_one (query : string) (choices : list string)
    (score_cutoff : float) : result (string * float) :=
  let best_list := select_best_list query choices score_cutoff in
  match py_max snd best_list with
  | Raise ValueError => Ok (""%string, 0%float)
  | r => r
  end.

(** ** Reading a generator trace *)

(** The items yielded before the trace ends. *)
Fixpoint yielded {A : Type} (g : gen A) : list A :=
  match g with
  | Yield a rest => a :: yielded rest
  | _ => []
  end.

(** How the trace ends: [None] for exhaustion, [Some e] for an exception. *)
Fixpoint raised {A : Type} (g : gen A) : option exn :=
  match g with
  | Stop => None
  | Yield _ rest => raised rest
  | Throw e => Some e
  end.

(** The generator that yields the items of [l] and is then exhausted. *)
Fixpoint gen_of_list {A : Type} (l : list A) : gen A :=
  match l with
  | [] => Stop
  | a :: l' => Yield a (gen_of_list l')
  end.

(** ** Whitespace, as [str.isspace] sees the ASCII range *)

Definition is_whitespace (c : ascii) : bool :=
  bool_decide (c ∈ [" "; "009"; "010"; "011"; "012"; "013"]%char).

Fixpoint contains_whitespace (s : string) : bool :=
  match s with
  | EmptyString => false
  | String c s' => is_whitespace c || contains_whitespace s'
  end.

(** [key] occurs in [text] as a contiguous block starting at offset [i]. *)
Definition substring_at (i : nat) (key text : string) : Prop :=
  exists pre post : string,
    text = (pre ++ key ++ post)%string /\ String.length pre = i.

(** ** Binary64 rounding, spelled out on integers *)

(** The record after [k] steps, from an exact start. *)
Definition shifted (m : Z) (k : nat) : shr_record :=
  match k with
  | O => {| shr_m := m; shr_r := false; shr_s := false |}
  | S j => {| shr_m := m / 2 ^ Z.of_nat k;
              shr_r := Z.odd (m / 2 ^ Z.of_nat j);
              shr_s := negb (m mod 2 ^ Z.of_nat j =? 0) |}
  end.

(** Round to nearest, ties to even, of [m / 2 ^ k]. *)
Definition rne (m k : Z) : Z :=
  let q := m / 2 ^ k in
  match 2 * (m mod 2 ^ k) ?= 2 ^ k with
  | Lt => q
  | Eq => if Z.even q then q else q + 1
  | Gt => q + 1
  end.

(** Rounding of an exact mantissa, spelled out. *)
Definition round_exact (s : bool) (mx ex : Z) : spec_float :=
  let n := Z.max (fexp prec emax (Zdigits2 mx + ex) - ex) 0 in
  let e1 := ex + n in
  let m1 := rne mx n in
  let n2 := Z.max (fexp prec emax (Zdigits2 m1 + e1) - e1) 0 in
  let e2 := e1 + n2 in
  match m1 / 2 ^ n2 with
  | Z0 => S754_zero s
  | Zpos m => if e2 <=? emax - prec then S754_finite s m e2 else S754_infinity s
  | Zneg _ => S754_nan
  end.

(** A mantissa of at least 53 bits, rounded to 53 bits. *)
Definition round_normal (mx ex : Z) : Z * Z :=
  let d := Zdigits2 mx in
  let m1 := rne mx (d - 53) in
  if m1 =? 2 ^ 53 then (2 ^ 52, ex + d - 52) else (m1, ex + d - 53).

Definition finite_or_inf (s : bool) (me : Z * Z) : spec_float :=
  if snd me <=? 971 then S754_finite s (Z.to_pos (fst me)) (snd me)
  else S754_infinity s.

(** [float(a)] for a positive integer, as mantissa and exponent. *)
Definition fl_pair (a : Z) : Z * Z :=
  let d := Zdigits2 a in
  if d <=? 53 then (a * 2 ^ (53 - d), d - 53) else round_normal a 0.

(** Second half of [binary_round_aux]: renormalise a rounded mantissa. *)
Definition finish (s : bool) (m1 e1 : Z) : spec_float :=
  let n2 := Z.max (fexp prec emax (Zdigits2 m1 + e1) - e1) 0 in
  match m1 / 2 ^ n2 with
  | Z0 => S754_zero s
  | Zpos m => if e1 + n2 <=? emax - prec then S754_finite s m (e1 + n2) else S754_infinity s
  | Zneg _ => S754_nan
  end.

Definition first_shift (mx ex : Z) : Z :=
  Z.max (fexp prec emax (Zdigits2 mx + ex) - ex) 0.

(** A sign and no NaN: the class of results of rounding a magnitude. *)
Definition signed (s : bool) (x : spec_float) : Prop :=
  match x with
  | S754_zero s' | S754_infinity s' | S754_finite s' _ _ => s' = s
  | S754_nan => False
  end.

Definition one_sf : spec_float := S754_finite false 4503599627370496 (-52).

(** Order on the pairs of [fl_pair]. *)
Definition pair_le (x y : Z * Z) : Prop :=
  snd x < snd y \/ (snd x = snd y /\ fst x <= fst y).

(** ** Reading the results *)

(** [r], at index [i] of [l], is the first item of [l] of greatest key. *)
Definition first_max {A : Type} (key : A -> float) (l : list A) (i : nat) (r : A) : Prop :=
  l !! i = Some r /\
  (forall p, p ∈ l -> (key p <=? key r)%float = true) /\
  (forall j p, l !! j = Some p -> (j < i)%nat -> (key p <? key r)%float = true).

(** The score the matcher gives a candidate. *)
Definition score (query choice : string) : result float :=
  cosine_similar (text_to_ngrams_vector query 2) (text_to_ngrams_vector choice 2).

(** What the matcher is said to yield: the candidates other than the
    query whose score reaches the cutoff, in input order. *)
Definition matches (query : string) (choices : list string) (score_cutoff : float)
    : list (string * float) :=
  omap (fun choice =>
          if decide (choice = query) then None
          else match score query choice with
               | Ok s => if (score_cutoff <=? s)%float then Some (choice, s) else None
               | Raise _ => None
               end) choices.

(** The metrics' formulas, as the specification writes them. *)

(** Sum over the keys shared by both vectors of the product of the counts. *)
Definition dot (vec1 vec2 : gmap string Z) : Z :=
  map_fold (fun k x acc =>
              acc + match vec2 !! k with Some y => x * y | None => 0 end) 0 vec1.

(** Sum over the keys of a vector of the squared counts. *)
Definition sq_norm (vec : gmap string Z) : Z :=
  map_fold (fun _ x acc => acc + x ^ 2) 0 vec.

Definition cosine_formula (vec1 vec2 : gmap string Z) : result float :=
  s1 ← math_sqrt (sq_norm vec1);
  s2 ← math_sqrt (sq_norm vec2);
  let denominator := (s1 * s2)%float in
  if (denominator =? 0)%float then Ok 0%float
  else
    numerator ← float_of_int (dot vec1 vec2);
    Ok (numerator / denominator)%float.

(** Number of keys of the first set that are keys of the second. *)
Definition common_keys (keys1 keys2 : gset string) : nat :=
  length (List.filter (fun k => bool_decide (k ∈ keys2)) (elements keys1)).

(** Jaccard index of two key sets: the union is counted by inclusion and
    exclusion. *)
Definition jaccard_of_keys (keys1 keys2 : gset string) : result float :=
  let common := Z.of_nat (common_keys keys1 keys2) in
  let total := Z.of_nat (size keys1) + Z.of_nat (size keys2) - common in
  if total =? 0 then Ok 0%float
  else
    n ← float_of_int common;
    d ← float_of_int total;
    Ok (n / d)%float.

(** [sum(f(k) for k in X)] over a set of keys. *)
Definition set_sum (f : string -> Z) (X : gset string) : Z :=
  py_sum (map f (elements X)).

(** All counts are non-negative. *)
Definition nonneg_counts (vec : gmap string Z) : Prop :=
  forall k x, vec !! k = Some x -> 0 <= x.

(** A float that is [+0.0] or a positive finite number. *)
Definition finite_nonneg (x : spec_float) : Prop :=
  match x with
  | S754_zero false | S754_finite false _ _ => True
  | _ => False
  end.

(** ** Counting *)

(** Number of items of [l] equal to [k]. *)
Definition occurrences (k : string) (l : list string) : Z :=
  Z.of_nat (length (filter (fun x => x = k) l)).

(** Sum of all the counts of a vector. *)
Definition total_count (vec : gmap string Z) : Z :=
  map_fold (fun _ x acc => acc + x) 0 vec.

(** The start offsets at which the window of width [n] of [text] is [key]. *)
Definition window_positions (text : string) (n : Z) (key : string) : list Z :=
  filter (fun i => py_slice text i (i + n) = key)
         (py_range (Z.of_nat (String.length text) - n + 1)).

(** A generator followed by another: the second runs once the first is
    exhausted, and not at all when the first throws. *)
Fixpoint gen_app {A : Type} (g1 g2 : gen A) : gen A :=
  match g1 with
  | Stop => g2
  | Yield a rest => Yield a (gen_app rest g2)
  | Throw e => Throw e
  end.

(** ** Values of floats, to measure rounding errors *)

(** [2 ^ e] as a real, for any integer exponent. *)
Definition bpow (e : Z) : R := powerRZ 2 e.

(** The real [m * 2 ^ e] denoted by a mantissa and an exponent. *)
Definition F2R (m e : Z) : R := (IZR m * bpow e)%R.

(** The distance from [1.0] to the next float above it, [2 ^ -52]. *)
Definition ulp_one : R := bpow (-52).

(** Half of it, [2 ^ -53]: the largest relative error of one rounding to
    nearest of a normal number. *)
Definition half_ulp : R := bpow (-53).

(** A rounded mantissa that reached [2 ^ 53] moves to the next exponent. *)
Definition renorm (m1 e1 : Z) : Z * Z :=
  if m1 =? 2 ^ 53 then (2 ^ 52, e1 + 1) else (m1, e1).

(** A positive normal float, with its 53-bit mantissa and its exponent. *)
Definition normal_float (x : float) (m e : Z) : Prop :=
  Prim2SF x = S754_finite false (Z.to_pos m) e /\ 2 ^ 52 <= m < 2 ^ 53.

(** Where a real [v] lies between [m * 2 ^ e] and [(m + 1) * 2 ^ e]: on
    the lower end, below the middle, on the middle, or above it. *)
Definition located (v : R) (m e : Z) (l : location) : Prop :=
  match l with
  | loc_Exact => v = F2R m e
  | loc_Inexact Lt => (F2R m e < v)%R /\ (2 * v < F2R (2 * m + 1) e)%R
  | loc_Inexact Eq => (2 * v)%R = F2R (2 * m + 1) e
  | loc_Inexact Gt => (F2R (2 * m + 1) e < 2 * v)%R /\ (v < F2R (m + 1) e)%R
  end.

(** [1 + 3 * 2 ^ -52], printed [1.0000000000000007]. *)
Definition cosine_max : float := 0x1.0000000000003p+0%float.



(** * Properties *)

(** ** Strings and slices *)

Lemma length_substring (s : string) (i n : nat) :
  (i + n <= String.length s)%nat -> String.length (String.substring i n s) = n.
Proof.
  revert i n. induction s as [|c s IH]; intros [|i] [|n] H; simpl in *;
    try lia; try reflexivity.
  - f_equal. apply (IH 0%nat n). lia.
  - apply (IH i 0%nat). lia.
  - apply (IH i (S n)). lia.
Qed.

Lemma substring_split (s : string) (i n : nat) :
  (i + n <= String.length s)%nat -> substring_at i (String.substring i n s) s.
Proof.
  revert i n. induction s as [|c s IH]; intros i n H.
  - simpl in H. assert (i = 0 /\ n = 0)%nat as [-> ->] by lia.
    exists ""%string, ""%string. split; reflexivity.
  - destruct i as [|i].
    + destruct n as [|n].
      * exists ""%string, (String c s). split; reflexivity.
      * simpl in *. destruct (IH 0%nat n) as (pre & post & Hs & Hpre); [lia|].
        destruct pre; [|discriminate]. simpl in Hs.
        exists ""%string, post. split; [|reflexivity].
        exact (f_equal (String c) Hs).
    + simpl in H. destruct (IH i n) as (pre & post & Hs & Hpre); [lia|].
      assert (Hsub : String.substring (S i) n (String c s) = String.substring i n s)
        by (destruct n; reflexivity).
      rewrite Hsub. exists (String c pre), post. split; [|simpl; lia].
      exact (f_equal (String c) Hs).
Qed.

Lemma py_slice_window (text : string) (i n : Z) :
  0 <= i -> 0 <= n -> i + n <= Z.of_nat (String.length text) ->
  py_slice text i (i + n) = String.substring (Z.to_nat i) (Z.to_nat n) text.
Proof.
  intros Hi Hn Hlen. unfold py_slice, slice_index.
  destruct (Z.ltb_spec i 0); [lia|].
  destruct (Z.ltb_spec (i + n) 0); [lia|].
  rewrite !Z.min_l by lia. f_equal. lia.
Qed.

Lemma elem_of_py_range (stop i : Z) : i ∈ py_range stop <-> 0 <= i < stop.
Proof.
  unfold py_range. rewrite list_elem_of_In, in_map_iff. split.
  - intros (k & <- & Hk). apply in_seq in Hk. lia.
  - intros H. exists (Z.to_nat i). split; [lia|]. apply in_seq. lia.
Qed.

Lemma contains_whitespace_space (s : string) :
  contains_space s = true -> contains_whitespace s = true.
Proof.
  induction s as [|c s IH]; simpl; [done|].
  intros [Hc | Hs]%orb_true_iff.
  - apply Ascii.eqb_eq in Hc. subst c. reflexivity.
  - rewrite (IH Hs). apply orb_true_r.
Qed.

(** Every n-gram is a window of the text that holds no space. *)
Lemma elem_of_ngrams (text : string) (n : Z) (key : string) :
  1 <= n -> key ∈ ngrams text n ->
  exists i : Z,
    0 <= i <= Z.of_nat (String.length text) - n /\
    key = String.substring (Z.to_nat i) (Z.to_nat n) text /\
    contains_space key = false.
Proof.
  intros Hn. unfold ngrams. rewrite list_elem_of_In, in_map_iff.
  intros (i & <- & Hi). apply filter_In in Hi as [Hi Hsp].
  apply list_elem_of_In, elem_of_py_range in Hi.
  exists i. rewrite py_slice_window in * by lia.
  split; [lia|]. split; [reflexivity|]. by apply negb_true_iff.
Qed.

(** ** Counters *)

Lemma Counter_fold_positive (l : list string) (m : gmap string Z) :
  (forall k v, m !! k = Some v -> 0 < v) ->
  forall k v,
    foldl (fun m k => <[k := default 0 (m !! k) + 1]> m) m l !! k = Some v ->
    0 < v.
Proof.
  revert m. induction l as [|x l IH]; intros m Hm k v; simpl; [apply Hm|].
  apply IH. intros k' v'. destruct (decide (x = k')) as [->|Hne].
  - rewrite lookup_insert_eq. intros [= <-].
    destruct (m !! k') as [w|] eqn:Hw; simpl; [|lia].
    specialize (Hm _ _ Hw). lia.
  - rewrite lookup_insert_ne by done. apply Hm.
Qed.

Lemma Counter_fold_dom (l : list string) (m : gmap string Z) :
  dom (foldl (fun m k => <[k := default 0 (m !! k) + 1]> m) m l)
  = list_to_set l ∪ dom m.
Proof.
  revert m. induction l as [|x l IH]; intros m; simpl.
  - set_solver.
  - rewrite IH, dom_insert_L. set_solver.
Qed.

Lemma elem_of_dom_Counter (l : list string) (k : string) :
  k ∈ dom (Counter l) <-> k ∈ l.
Proof. unfold Counter. rewrite Counter_fold_dom. set_solver. Qed.

Lemma Counter_positive (l : list string) (k : string) (v : Z) :
  Counter l !! k = Some v -> 0 < v.
Proof.
  unfold Counter. apply Counter_fold_positive. intros k' v'.
  by rewrite lookup_empty.
Qed.

(** ** Order of floats, on their specification *)

Ltac sf_cases :=
  repeat match goal with
  | x : spec_float |- _ => destruct x as [[]|[]| |[] ? ?]
  end; simpl; try discriminate; try reflexivity; try congruence.

Ltac cmp_cases :=
  change (Pos.compare_cont Eq) with Pos.compare in *;
  repeat match goal with
  | |- context [Z.compare ?a ?b] => destruct (Z.compare_spec a b)
  | H : context [Z.compare ?a ?b] |- _ => destruct (Z.compare_spec a b)
  | |- context [Pos.compare ?a ?b] => destruct (Pos.compare_spec a b)
  | H : context [Pos.compare ?a ?b] |- _ => destruct (Pos.compare_spec a b)
  end; simpl in *; subst; try discriminate; try reflexivity; try lia.

Lemma SFltb_false_leb a b :
  a <> S754_nan -> b <> S754_nan -> SFltb a b = false -> SFleb b a = true.
Proof.
  unfold SFltb, SFleb. intros Ha Hb. sf_cases; cmp_cases.
Qed.

Lemma SFleb_ltb_trans a b c :
  SFleb a b = true -> SFltb b c = true -> SFltb a c = true.
Proof.
  unfold SFltb, SFleb. sf_cases; cmp_cases.
Qed.

Lemma SFleb_trans a b c :
  SFleb a b = true -> SFleb b c = true -> SFleb a c = true.
Proof.
  unfold SFleb. sf_cases; cmp_cases.
Qed.

Lemma SFltb_leb a b : SFltb a b = true -> SFleb a b = true.
Proof. unfold SFltb, SFleb. destruct (SFcompare a b) as [[]|]; congruence. Qed.

Lemma SFleb_refl a : a <> S754_nan -> SFleb a a = true.
Proof. unfold SFleb. intros Ha. sf_cases; cmp_cases. Qed.

Lemma SFleb_not_nan a b : SFleb a b = true -> a <> S754_nan /\ b <> S754_nan.
Proof. unfold SFleb. sf_cases; intros; split; congruence. Qed.

(** ** Digits, shifts and rounding to nearest even *)

Lemma digits2_pos_bounds (p : positive) :
  2 ^ (Zpos (digits2_pos p) - 1) <= Zpos p < 2 ^ Zpos (digits2_pos p).
Proof.
  induction p as [p IH|p IH|]; simpl digits2_pos.
  - rewrite Pos2Z.inj_succ.
    replace (Z.succ (Zpos (digits2_pos p)) - 1) with (Z.succ (Zpos (digits2_pos p) - 1)) by lia.
    rewrite !Z.pow_succ_r by lia. lia.
  - rewrite Pos2Z.inj_succ.
    replace (Z.succ (Zpos (digits2_pos p)) - 1) with (Z.succ (Zpos (digits2_pos p) - 1)) by lia.
    rewrite !Z.pow_succ_r by lia. lia.
  - simpl. lia.
Qed.

Lemma Zdigits2_bounds (m : Z) :
  0 < m -> 2 ^ (Zdigits2 m - 1) <= m < 2 ^ Zdigits2 m.
Proof. destruct m as [|p|p]; try lia. intros _. apply digits2_pos_bounds. Qed.

Lemma Zdigits2_pos (m : Z) : 0 < m -> 0 < Zdigits2 m.
Proof. destruct m; simpl; lia. Qed.

Lemma Zdigits2_unique (m k : Z) :
  2 ^ (k - 1) <= m < 2 ^ k -> 0 < k -> Zdigits2 m = k.
Proof.
  intros [Hlo Hhi] Hk.
  assert (Hm : 0 < m) by (pose proof (Z.pow_pos_nonneg 2 (k - 1)); lia).
  pose proof (Zdigits2_bounds m Hm) as [Hlo' Hhi'].
  pose proof (Zdigits2_pos m Hm) as Hd.
  destruct (Z.lt_trichotomy (Zdigits2 m) k) as [Hlt|[Heq|Hgt]]; [|exact Heq|].
  - assert (2 ^ Zdigits2 m <= 2 ^ (k - 1)) by (apply Z.pow_le_mono_r; lia). lia.
  - assert (2 ^ k <= 2 ^ (Zdigits2 m - 1)) by (apply Z.pow_le_mono_r; lia). lia.
Qed.

Lemma shr_1_m (mrs : shr_record) :
  0 <= shr_m mrs -> shr_m (shr_1 mrs) = shr_m mrs / 2.
Proof.
  destruct mrs as [m r s]. simpl. intros Hm.
  destruct m as [|[p|p|]|p]; simpl; try lia; try reflexivity.
  - rewrite Pos2Z.inj_xI. apply Z.div_unique with 1; lia.
  - rewrite Pos2Z.inj_xO. apply Z.div_unique with 0; lia.
Qed.

Lemma iter_pos_shr_1_m (p : positive) (mrs : shr_record) :
  0 <= shr_m mrs ->
  shr_m (SpecFloat.iter_pos shr_1 p mrs) = shr_m mrs / 2 ^ Zpos p.
Proof.
  revert mrs. induction p as [p IH|p IH|]; intros mrs Hm; simpl SpecFloat.iter_pos.
  - assert (H1 : 0 <= shr_m (shr_1 mrs))
      by (rewrite shr_1_m by done; apply Z.div_pos; lia).
    assert (H2 : 0 <= shr_m (SpecFloat.iter_pos shr_1 p (shr_1 mrs)))
      by (rewrite IH by done; apply Z.div_pos; lia).
    rewrite IH, IH, shr_1_m by done.
    rewrite !Z.div_div by lia. f_equal.
    rewrite Pos2Z.inj_xI.
    replace (2 * Z.pos p + 1) with (1 + Z.pos p + Z.pos p) by lia.
    rewrite !Z.pow_add_r by lia. lia.
  - assert (H2 : 0 <= shr_m (SpecFloat.iter_pos shr_1 p mrs))
      by (rewrite IH by done; apply Z.div_pos; lia).
    rewrite IH, IH by done. rewrite Z.div_div by lia. f_equal.
    rewrite <- Z.pow_add_r by lia. f_equal. lia.
  - rewrite shr_1_m by done. reflexivity.
Qed.

(** Shifting, step by step *)

Lemma iter_pos_nat {A : Type} (f : A -> A) (p : positive) (x : A) :
  SpecFloat.iter_pos f p x = Nat.iter (Pos.to_nat p) f x.
Proof.
  revert x. induction p as [p IH|p IH|]; intros x; simpl SpecFloat.iter_pos.
  - rewrite !IH, Pos2Nat.inj_xI.
    replace (S (2 * Pos.to_nat p)) with (Pos.to_nat p + (Pos.to_nat p + 1))%nat by lia.
    rewrite !Nat.iter_add. reflexivity.
  - rewrite !IH, Pos2Nat.inj_xO.
    replace (2 * Pos.to_nat p)%nat with (Pos.to_nat p + Pos.to_nat p)%nat by lia.
    rewrite Nat.iter_add. reflexivity.
  - reflexivity.
Qed.

Lemma shr_1_fields (m : Z) (r s : bool) :
  0 <= m ->
  shr_1 {| shr_m := m; shr_r := r; shr_s := s |}
  = {| shr_m := m / 2; shr_r := Z.odd m; shr_s := r || s |}.
Proof.
  intros Hm. destruct m as [|[p|p|]|p]; try lia; try reflexivity.
  - simpl shr_1. f_equal. rewrite Pos2Z.inj_xI. apply Z.div_unique with 1; lia.
  - simpl shr_1. f_equal. rewrite Pos2Z.inj_xO. apply Z.div_unique with 0; lia.
Qed.

Lemma mod_pow2_succ (m j : Z) :
  0 <= j ->
  m mod 2 ^ (j + 1) = m mod 2 ^ j + 2 ^ j * Z.b2z (Z.odd (m / 2 ^ j)).
Proof.
  intros Hj. rewrite Z.pow_add_r, Z.pow_1_r by lia.
  rewrite Z.rem_mul_r by lia. f_equal. f_equal.
  rewrite Zmod_odd. destruct (Z.odd _); reflexivity.
Qed.

Lemma iter_shr_1 (m : Z) (k : nat) :
  0 <= m ->
  Nat.iter k shr_1 {| shr_m := m; shr_r := false; shr_s := false |} = shifted m k.
Proof.
  intros Hm. induction k as [|k IH]; [reflexivity|].
  simpl Nat.iter. rewrite IH. destruct k as [|j].
  - simpl shifted. rewrite shr_1_fields by done. simpl. f_equal.
    + rewrite Z.div_1_r. reflexivity.
    + rewrite Z.mod_1_r. reflexivity.
  - unfold shifted. rewrite shr_1_fields by (apply Z.div_pos; lia).
    f_equal.
    + rewrite Z.div_div by lia. f_equal.
      rewrite (Nat2Z.inj_succ (S j)), Z.pow_succ_r by lia. lia.
    + replace (Z.of_nat (S j)) with (Z.of_nat j + 1) by lia.
      rewrite mod_pow2_succ by lia.
      pose proof (Z.mod_pos_bound m (2 ^ Z.of_nat j) ltac:(lia)).
      assert (0 < 2 ^ Z.of_nat j) by lia.
      destruct (Z.odd (m / 2 ^ Z.of_nat j)); simpl Z.b2z.
      * simpl. symmetry. apply negb_true_iff, Z.eqb_neq. lia.
      * simpl. rewrite Z.mul_0_r, Z.add_0_r. reflexivity.
Qed.

Lemma rne_bounds (m k : Z) : m / 2 ^ k <= rne m k <= m / 2 ^ k + 1.
Proof.
  unfold rne. destruct (_ ?= _); [destruct (Z.even _)| |]; lia.
Qed.

Lemma rne_0 (m : Z) : rne m 0 = m.
Proof.
  unfold rne. rewrite Z.pow_0_r, Z.mod_1_r, Z.div_1_r. reflexivity.
Qed.

Lemma rne_mono (m m' k : Z) : 0 <= k -> m <= m' -> rne m k <= rne m' k.
Proof.
  intros Hk Hm.
  assert (Hp : 0 < 2 ^ k) by lia.
  assert (Hq : m / 2 ^ k <= m' / 2 ^ k) by (apply Z.div_le_mono; lia).
  destruct (Z.eq_dec (m / 2 ^ k) (m' / 2 ^ k)) as [Heq|Hne].
  - pose proof (Z.div_mod m (2 ^ k) ltac:(lia)) as D.
    pose proof (Z.div_mod m' (2 ^ k) ltac:(lia)) as D'.
    unfold rne. rewrite <- Heq.
    destruct (Z.compare_spec (2 * (m mod 2 ^ k)) (2 ^ k));
      destruct (Z.compare_spec (2 * (m' mod 2 ^ k)) (2 ^ k));
      try destruct (Z.even (m / 2 ^ k)); nia.
  - pose proof (rne_bounds m k). pose proof (rne_bounds m' k). lia.
Qed.

Lemma round_shifted (m : Z) (k : nat) :
  0 <= m ->
  round_nearest_even (shr_m (shifted m k)) (loc_of_shr_record (shifted m k))
  = rne m (Z.of_nat k).
Proof.
  intros Hm. destruct k as [|j].
  - simpl. rewrite rne_0. reflexivity.
  - unfold shifted, rne. cbn [shr_m loc_of_shr_record].
    replace (Z.of_nat (S j)) with (Z.of_nat j + 1) by lia.
    rewrite mod_pow2_succ by lia.
    pose proof (Z.mod_pos_bound m (2 ^ Z.of_nat j) ltac:(lia)) as Hlow.
    assert (Hpow : 2 ^ (Z.of_nat j + 1) = 2 * 2 ^ Z.of_nat j)
      by (rewrite Z.pow_add_r, Z.pow_1_r by lia; lia).
    rewrite Hpow.
    destruct (Z.odd (m / 2 ^ Z.of_nat j)); simpl Z.b2z;
      destruct (Z.eqb_spec (m mod 2 ^ Z.of_nat j) 0) as [H0|H0]; simpl negb;
      cbn [round_nearest_even].
    + rewrite H0.
      replace (2 * (0 + 2 ^ Z.of_nat j * 1) ?= 2 * 2 ^ Z.of_nat j) with Eq; [done|].
      symmetry. apply Z.compare_eq_iff. lia.
    + replace (2 * (m mod 2 ^ Z.of_nat j + 2 ^ Z.of_nat j * 1) ?= 2 * 2 ^ Z.of_nat j)
        with Gt; [done|].
      symmetry. apply Z.compare_gt_iff. lia.
    + replace (2 * (m mod 2 ^ Z.of_nat j + 2 ^ Z.of_nat j * 0) ?= 2 * 2 ^ Z.of_nat j)
        with Lt; [done|].
      symmetry. apply Z.compare_lt_iff. lia.
    + replace (2 * (m mod 2 ^ Z.of_nat j + 2 ^ Z.of_nat j * 0) ?= 2 * 2 ^ Z.of_nat j)
        with Lt; [done|].
      symmetry. apply Z.compare_lt_iff. lia.
Qed.

Lemma shr_exact (m e n : Z) :
  0 <= m ->
  shr {| shr_m := m; shr_r := false; shr_s := false |} e n
  = (shifted m (Z.to_nat n), e + Z.max n 0).
Proof.
  intros Hm. destruct n as [|p|p]; simpl shr.
  - f_equal; lia.
  - rewrite iter_pos_nat, iter_shr_1 by done. f_equal; lia.
  - f_equal; lia.
Qed.

Lemma shifted_m (m : Z) (k : nat) : shr_m (shifted m k) = m / 2 ^ Z.of_nat k.
Proof. destruct k; [|reflexivity]. simpl. rewrite Z.div_1_r. reflexivity. Qed.

Lemma of_nat_to_nat (n : Z) : Z.of_nat (Z.to_nat n) = Z.max n 0.
Proof. lia. Qed.

Lemma binary_round_aux_exact (s : bool) (mx ex : Z) :
  0 <= mx ->
  binary_round_aux prec emax s mx ex loc_Exact = round_exact s mx ex.
Proof.
  intros Hm. unfold binary_round_aux, round_exact, shr_fexp.
  cbn [shr_record_of_loc]. rewrite shr_exact by done.
  rewrite round_shifted, of_nat_to_nat by done.
  set (n := Z.max (fexp prec emax (Zdigits2 mx + ex) - ex) 0).
  set (m1 := rne mx n).
  assert (Hm1 : 0 <= m1).
  { pose proof (rne_bounds mx n).
    assert (0 <= mx / 2 ^ n) by (apply Z.div_pos; lia). lia. }
  rewrite shr_exact by done. rewrite shifted_m, of_nat_to_nat.
  reflexivity.
Qed.

Lemma fexp_eq (e : Z) : fexp prec emax e = Z.max (e - 53) (-1074).
Proof. reflexivity. Qed.

Lemma div_pow2_digits (m d k : Z) :
  0 < m -> Zdigits2 m = d -> 0 <= k < d ->
  2 ^ (d - k - 1) <= m / 2 ^ k < 2 ^ (d - k).
Proof.
  intros Hm Hd Hk. pose proof (Zdigits2_bounds m Hm) as [Hlo Hhi]. rewrite Hd in *.
  assert (0 < 2 ^ k) by lia.
  split.
  - apply Z.div_le_lower_bound; [lia|].
    rewrite <- Z.pow_add_r by lia. replace (k + (d - k - 1)) with (d - 1) by lia. lia.
  - apply Z.div_lt_upper_bound; [lia|].
    rewrite <- Z.pow_add_r by lia. replace (k + (d - k)) with d by lia. lia.
Qed.

Lemma round_normal_range (mx ex : Z) :
  0 < mx -> 53 <= Zdigits2 mx ->
  2 ^ 52 <= fst (round_normal mx ex) < 2 ^ 53.
Proof.
  intros Hm Hd. unfold round_normal.
  destruct (Z.eqb_spec (rne mx (Zdigits2 mx - 53)) (2 ^ 53)) as [E|E]; cbn [fst].
  - lia.
  - pose proof (rne_bounds mx (Zdigits2 mx - 53)).
    pose proof (div_pow2_digits mx _ (Zdigits2 mx - 53) Hm eq_refl ltac:(lia)) as Hq.
    replace (Zdigits2 mx - (Zdigits2 mx - 53) - 1) with 52 in Hq by lia.
    replace (Zdigits2 mx - (Zdigits2 mx - 53)) with 53 in Hq by lia.
    lia.
Qed.

Lemma round_exact_normal (s : bool) (mx ex : Z) :
  0 < mx -> 53 <= Zdigits2 mx -> -1074 <= ex ->
  round_exact s mx ex = finite_or_inf s (round_normal mx ex).
Proof.
  intros Hm Hd He. unfold round_exact, round_normal, finite_or_inf.
  rewrite !fexp_eq.
  replace (Z.max (Z.max (Zdigits2 mx + ex - 53) (-1074) - ex) 0)
    with (Zdigits2 mx - 53) by lia.
  set (d := Zdigits2 mx) in *.
  set (m1 := rne mx (d - 53)).
  pose proof (rne_bounds mx (d - 53)) as Hr. fold m1 in Hr.
  pose proof (div_pow2_digits mx d (d - 53) Hm eq_refl ltac:(lia)) as Hq.
  replace (d - (d - 53) - 1) with 52 in Hq by lia.
  replace (d - (d - 53)) with 53 in Hq by lia.
  change (emax - prec) with 971.
  destruct (Z.eqb_spec m1 (2 ^ 53)) as [E|E]; cbn [fst snd].
  - rewrite E. change (Zdigits2 (2 ^ 53)) with 54.
    replace (Z.max (Z.max (54 + (ex + (d - 53)) - 53) (-1074) - (ex + (d - 53))) 0)
      with 1 by lia.
    change (2 ^ 53 / 2 ^ 1) with (2 ^ 52).
    replace (ex + (d - 53) + 1) with (ex + d - 52) by lia.
    reflexivity.
  - assert (Hd1 : Zdigits2 m1 = 53) by (apply Zdigits2_unique; lia).
    rewrite Hd1.
    replace (Z.max (Z.max (53 + (ex + (d - 53)) - 53) (-1074) - (ex + (d - 53))) 0)
      with 0 by lia.
    rewrite Z.pow_0_r, Z.div_1_r, Z.add_0_r.
    replace (ex + (d - 53)) with (ex + d - 53) by lia.
    destruct m1 as [|q|q] eqn:Em; [lia| |lia]. reflexivity.
Qed.

Lemma Zpos_iter_xO (p q : positive) :
  Zpos (Pos.iter xO p q) = Zpos p * 2 ^ Zpos q.
Proof.
  rewrite Pos2Nat.inj_iter, <- (positive_nat_Z q).
  induction (Pos.to_nat q) as [|k IH].
  - simpl. lia.
  - rewrite Nat2Z.inj_succ, Z.pow_succ_r by lia. simpl nat_rect.
    rewrite Pos2Z.inj_xO, IH. lia.
Qed.

Lemma fl_pair_range (a : Z) : 0 < a -> 2 ^ 52 <= fst (fl_pair a) < 2 ^ 53.
Proof.
  intros Ha. unfold fl_pair. destruct (Z.leb_spec (Zdigits2 a) 53) as [Hd|Hd].
  - cbn [fst]. pose proof (Zdigits2_bounds a Ha) as [Hlo Hhi].
    pose proof (Zdigits2_pos a Ha).
    assert (0 < 2 ^ (53 - Zdigits2 a)) by (apply Z.pow_pos_nonneg; lia).
    split.
    + replace 52 with ((Zdigits2 a - 1) + (53 - Zdigits2 a)) by lia.
      rewrite Z.pow_add_r by lia. apply Z.mul_le_mono_nonneg_r; lia.
    + replace 53 with (Zdigits2 a + (53 - Zdigits2 a)) at 2 by lia.
      rewrite Z.pow_add_r by lia. apply Z.mul_lt_mono_pos_r; lia.
  - apply round_normal_range; lia.
Qed.

Lemma binary_normalize_pos (a : Z) :
  0 < a ->
  binary_normalize prec emax a 0 false = finite_or_inf false (fl_pair a).
Proof.
  intros Ha. destruct a as [|p|p]; try lia.
  unfold binary_normalize, binary_round, shl_align. rewrite fexp_eq.
  pose proof (Zdigits2_pos (Zpos p) Ha) as Hd0. cbn [Zdigits2] in Hd0.
  pose proof (fl_pair_range (Zpos p) Ha) as Hrange.
  unfold fl_pair in *. cbn [Zdigits2] in *.
  set (d := Zpos (digits2_pos p)) in *.
  replace (Z.max (d + 0 - 53) (-1074) - 0) with (d - 53) by lia.
  destruct (Z.leb_spec d 53) as [Hd|Hd].
  - cbn [fst] in Hrange.
    assert (Hdig : forall mz ez, ez = d - 53 -> Zpos mz = Zpos p * 2 ^ (53 - d) ->
              binary_round_aux prec emax false (Zpos mz) ez loc_Exact
              = finite_or_inf false (Zpos p * 2 ^ (53 - d), d - 53)).
    { intros mz ez -> Hmz. rewrite binary_round_aux_exact by lia.
      assert (Hdz : Zdigits2 (Zpos mz) = 53)
        by (apply Zdigits2_unique; [change (53 - 1) with 52|]; lia).
      rewrite round_exact_normal by lia.
      unfold round_normal. rewrite Hdz. change (53 - 53) with 0. rewrite rne_0.
      destruct (Z.eqb_spec (Zpos mz) (2 ^ 53)) as [E|E]; [lia|].
      rewrite Hmz. f_equal. f_equal. lia. }
    clearbody d. destruct (d - 53) as [|q|q] eqn:Eq; try lia.
    + apply Hdig; [lia|]. replace (53 - d) with 0 by lia. lia.
    + apply Hdig; [lia|]. rewrite Zpos_iter_xO. f_equal. f_equal. lia.
  - destruct (d - 53) as [|q|q] eqn:Eq; try lia.
    rewrite binary_round_aux_exact by lia.
    apply round_exact_normal; cbn [Zdigits2]; lia.
Qed.

(** ** Rounding from any location *)

Lemma round_exact_finish (s : bool) (mx ex : Z) :
  round_exact s mx ex = finish s (rne mx (first_shift mx ex)) (ex + first_shift mx ex).
Proof. reflexivity. Qed.

Lemma shifted_exact (m : Z) (k : nat) :
  m mod 2 ^ Z.of_nat k = 0 -> loc_of_shr_record (shifted m k) = loc_Exact.
Proof.
  destruct k as [|j]; [reflexivity|]. intros Hmod.
  replace (Z.of_nat (S j)) with (Z.of_nat j + 1) in Hmod by lia.
  rewrite mod_pow2_succ in Hmod by lia.
  pose proof (Z.mod_pos_bound m (2 ^ Z.of_nat j) ltac:(lia)) as Hlow.
  assert (0 < 2 ^ Z.of_nat j) by lia.
  unfold shifted. cbn [loc_of_shr_record].
  destruct (Z.odd (m / 2 ^ Z.of_nat j)); simpl Z.b2z in Hmod; [lia|].
  assert (E : m mod 2 ^ Z.of_nat j = 0) by lia.
  rewrite E. reflexivity.
Qed.

Lemma shr_m_general (mrs : shr_record) (e n : Z) :
  0 <= shr_m mrs ->
  shr_m (fst (shr mrs e n)) = shr_m mrs / 2 ^ Z.max n 0 /\
  snd (shr mrs e n) = e + Z.max n 0.
Proof.
  intros Hm. destruct n as [|p|p]; cbn [shr fst snd].
  - rewrite Z.div_1_r. split; [done|lia].
  - rewrite iter_pos_shr_1_m by done. split; [done|lia].
  - rewrite Z.div_1_r. split; [done|lia].
Qed.

Lemma round_nearest_even_bounds (m : Z) (l : location) :
  m <= round_nearest_even m l <= m + 1 /\
  (l = loc_Exact -> round_nearest_even m l = m).
Proof.
  destruct l as [|[]]; simpl; try destruct (Z.even m); split; try lia; try done.
Qed.

Lemma shr_record_of_loc_m (m : Z) (l : location) :
  shr_m (shr_record_of_loc m l) = m.
Proof. destruct l as [|[]]; reflexivity. Qed.

(** What [binary_round_aux] does, whatever the location it starts from. *)
Lemma binary_round_aux_general (s : bool) (mx ex : Z) (l : location) :
  0 <= mx ->
  exists m1 : Z,
    mx / 2 ^ first_shift mx ex <= m1 <= mx / 2 ^ first_shift mx ex + 1 /\
    (l = loc_Exact -> mx mod 2 ^ first_shift mx ex = 0 ->
     m1 = mx / 2 ^ first_shift mx ex) /\
    binary_round_aux prec emax s mx ex l = finish s m1 (ex + first_shift mx ex).
Proof.
  intros Hm. unfold binary_round_aux, shr_fexp.
  set (n := fexp prec emax (Zdigits2 mx + ex) - ex).
  assert (Hn : first_shift mx ex = Z.max n 0) by reflexivity. rewrite Hn.
  pose proof (shr_m_general (shr_record_of_loc mx l) ex n) as Hshr.
  rewrite shr_record_of_loc_m in Hshr. destruct (Hshr Hm) as [Hm' He'].
  destruct (shr (shr_record_of_loc mx l) ex n) as [mrs' e'] eqn:Eshr.
  cbn [fst snd] in Hm', He'. subst e'.
  set (m1 := round_nearest_even (shr_m mrs') (loc_of_shr_record mrs')).
  pose proof (round_nearest_even_bounds (shr_m mrs') (loc_of_shr_record mrs'))
    as [Hb Hex]. fold m1 in Hb, Hex. rewrite Hm' in Hb, Hex.
  assert (Hq : 0 <= mx / 2 ^ Z.max n 0) by (apply Z.div_pos; lia).
  exists m1. split; [exact Hb|]. split.
  - intros -> Hmod. apply Hex. cbn [shr_record_of_loc] in Eshr.
    rewrite shr_exact in Eshr by done.
    assert (mrs' = shifted mx (Z.to_nat n)) as -> by congruence.
    apply shifted_exact. rewrite of_nat_to_nat. exact Hmod.
  - cbn [shr_record_of_loc]. rewrite shr_exact by lia.
    rewrite shifted_m, of_nat_to_nat. reflexivity.
Qed.

Lemma finish_signed (s : bool) (m1 e1 : Z) : 0 <= m1 -> signed s (finish s m1 e1).
Proof.
  intros Hm. unfold finish.
  set (n2 := Z.max _ 0).
  assert (0 <= m1 / 2 ^ n2) by (apply Z.div_pos; lia).
  destruct (m1 / 2 ^ n2); [done| |lia].
  destruct (_ <=? _); done.
Qed.

Lemma binary_round_aux_signed (s : bool) (mx ex : Z) (l : location) :
  0 <= mx -> signed s (binary_round_aux prec emax s mx ex l).
Proof.
  intros Hm. destruct (binary_round_aux_general s mx ex l Hm) as (m1 & Hb & _ & ->).
  apply finish_signed.
  assert (0 <= mx / 2 ^ first_shift mx ex) by (apply Z.div_pos; unfold first_shift; lia).
  lia.
Qed.

(** ** Primitive operations *)

Lemma float_mul_comm (x y : float) : (x * y)%float = (y * x)%float.
Proof.
  apply Prim2SF_inj. rewrite !mul_spec. unfold SF64mul, SFmul.
  destruct (Prim2SF x) as [sx|sx| |sx mx ex], (Prim2SF y) as [sy|sy| |sy my ey];
    try reflexivity; try (by rewrite xorb_comm).
  rewrite xorb_comm, Pos.mul_comm, Z.add_comm. reflexivity.
Qed.

Lemma div_eucl_mul (a b : Z) : 0 < b -> Z.div_eucl (a * b) b = (a, 0).
Proof.
  intros Hb. pose proof (Z.div_mul a b ltac:(lia)) as Hq.
  pose proof (Z.mod_mul a b ltac:(lia)) as Hr.
  unfold Z.div, Z.modulo in *. destruct (Z.div_eucl (a * b) b). congruence.
Qed.

Lemma new_location_0 (nb : Z) : new_location nb 0 = loc_Exact.
Proof. unfold new_location. destruct (Z.even nb); reflexivity. Qed.

Lemma SFdiv_self (s : bool) (m : positive) (e : Z) :
  SF64div (S754_finite s m e) (S754_finite s m e) = Prim2SF 1.
Proof.
  unfold SF64div, SFdiv, SFdiv_core_binary.
  rewrite !Z.sub_diag, xorb_nilpotent.
  change (Z.min (fexp prec emax 0) 0) with (-53).
  change (0 - -53) with 53.
  rewrite Z.shiftl_mul_pow2 by lia.
  rewrite (Z.mul_comm (Zpos m)), div_eucl_mul by lia.
  rewrite new_location_0. reflexivity.
Qed.

Lemma float_div_self (x : float) (s : bool) (m : positive) (e : Z) :
  Prim2SF x = S754_finite s m e -> (x / x)%float = 1%float.
Proof.
  intros Hx. apply Prim2SF_inj. rewrite div_spec, Hx. apply SFdiv_self.
Qed.

Lemma Prim2SF_one : Prim2SF 1 = one_sf.
Proof. reflexivity. Qed.

Lemma SFleb_finite_pos (m1 m2 : positive) (e1 e2 : Z) :
  SFleb (S754_finite false m1 e1) (S754_finite false m2 e2) = true <->
  e1 < e2 \/ (e1 = e2 /\ Zpos m1 <= Zpos m2).
Proof.
  unfold SFleb, SFcompare.
  change (Pos.compare_cont Eq m1 m2) with (Pos.compare m1 m2).
  destruct (Z.compare_spec e1 e2); [destruct (Pos.compare_spec m1 m2)| |];
    split; intros; try done; try lia.
Qed.

Lemma digits_le_of_bound (m k : Z) : 0 <= k -> 0 <= m <= 2 ^ k -> Zdigits2 m <= k + 1.
Proof.
  intros Hk [Hm0 Hm]. destruct (Z.eq_dec m 0) as [->|Hne]; [simpl; lia|].
  pose proof (Zdigits2_bounds m ltac:(lia)) as [Hlo _].
  pose proof (Zdigits2_pos m ltac:(lia)).
  apply Z.nlt_ge. intros Hlt.
  assert (2 ^ (k + 1) <= 2 ^ (Zdigits2 m - 1)) by (apply Z.pow_le_mono_r; lia).
  rewrite Z.pow_add_r, Z.pow_1_r in * by lia. lia.
Qed.

Lemma div_pow2_le (m k n : Z) :
  0 <= n <= k -> m <= 2 ^ k -> m / 2 ^ n <= 2 ^ (k - n).
Proof.
  intros Hn Hm. assert (0 < 2 ^ n) by lia.
  apply Z.div_le_upper_bound; [lia|].
  rewrite <- Z.pow_add_r by lia. replace (n + (k - n)) with k by lia. lia.
Qed.

Lemma div_pow2_lt (m k n : Z) :
  0 <= n <= k -> m < 2 ^ k -> m / 2 ^ n < 2 ^ (k - n).
Proof.
  intros Hn Hm. assert (0 < 2 ^ n) by lia.
  apply Z.div_lt_upper_bound; [lia|].
  rewrite <- Z.pow_add_r by lia. replace (n + (k - n)) with k by lia. lia.
Qed.

Lemma shift_le_of_bound (m e : Z) :
  e <= -52 -> 0 <= m <= 2 ^ (- e) ->
  let n := Z.max (fexp prec emax (Zdigits2 m + e) - e) 0 in
  0 <= n /\ e + n <= -52.
Proof.
  intros He Hm n. subst n. rewrite fexp_eq.
  pose proof (digits_le_of_bound m (- e) ltac:(lia) Hm). lia.
Qed.

Lemma finish_le_one (m1 e1 : Z) :
  e1 <= -52 -> 0 <= m1 <= 2 ^ (- e1) ->
  SFleb (finish false m1 e1) one_sf = true.
Proof.
  intros He Hm. unfold finish.
  pose proof (shift_le_of_bound m1 e1 He Hm) as [Hn0 Hn].
  set (n2 := Z.max (fexp prec emax (Zdigits2 m1 + e1) - e1) 0) in *.
  pose proof (div_pow2_le m1 (- e1) n2 ltac:(lia) ltac:(lia)) as Hq.
  assert (0 <= m1 / 2 ^ n2) by (apply Z.div_pos; lia).
  destruct (m1 / 2 ^ n2) as [|m|m] eqn:Em; [reflexivity| |lia].
  change (emax - prec) with 971.
  destruct (Z.leb_spec (e1 + n2) 971); [|lia].
  apply SFleb_finite_pos.
  destruct (Z.eq_dec (e1 + n2) (-52)) as [E|E]; [right|left; lia].
  split; [exact E|]. replace (- e1 - n2) with 52 in Hq by lia.
  change (Z.pos 4503599627370496) with (2 ^ 52). lia.
Qed.

Lemma binary_round_aux_le_one (mx ex : Z) (l : location) :
  ex <= -52 -> 0 <= mx <= 2 ^ (- ex) ->
  (l <> loc_Exact -> mx < 2 ^ (- ex)) ->
  SFleb (binary_round_aux prec emax false mx ex l) one_sf = true.
Proof.
  intros He Hm Hl.
  destruct (binary_round_aux_general false mx ex l ltac:(lia)) as (m1 & Hb & Hex & ->).
  pose proof (shift_le_of_bound mx ex He Hm) as [Hn0 Hn].
  fold (first_shift mx ex) in Hn0, Hn.
  set (n := first_shift mx ex) in *.
  assert (Hq0 : 0 <= mx / 2 ^ n) by (apply Z.div_pos; lia).
  apply finish_le_one; [lia|]. split; [lia|].
  replace (- (ex + n)) with (- ex - n) by lia.
  destruct (Z.eq_dec m1 (mx / 2 ^ n)) as [->|Hne].
  - apply div_pow2_le; lia.
  - assert (Hlt : mx < 2 ^ (- ex)).
    { destruct (Z.eq_dec mx (2 ^ (- ex))) as [Heq|]; [|lia].
      exfalso. apply Hne, Hex.
      - destruct l as [|c]; [reflexivity|]. specialize (Hl ltac:(discriminate)). lia.
      - rewrite Heq. replace (- ex) with ((- ex - n) + n) by lia.
        rewrite Z.pow_add_r by lia. apply Z.mod_mul. lia. }
    pose proof (div_pow2_lt mx (- ex) n ltac:(lia) Hlt). lia.
Qed.

(** ** Conversion of integers *)

Lemma valid_normal (s : bool) (m : positive) (e : Z) :
  2 ^ 52 <= Zpos m < 2 ^ 53 -> -1074 <= e <= 971 ->
  valid_binary (S754_finite s m e) = true.
Proof.
  intros Hm He. unfold SpecFloat.valid_binary, bounded, canonical_mantissa.
  assert (Hd : Zdigits2 (Zpos m) = 53)
    by (apply Zdigits2_unique; [change (53 - 1) with 52|]; lia).
  cbn [Zdigits2] in Hd. rewrite Hd, fexp_eq.
  change (emax - prec) with 971.
  apply andb_true_iff. split; [apply Z.eqb_eq|apply Z.leb_le]; lia.
Qed.

Lemma fl_pair_exp (a : Z) :
  0 < a -> Zdigits2 a - 53 <= snd (fl_pair a) <= Zdigits2 a - 52.
Proof.
  intros Ha. unfold fl_pair, round_normal.
  destruct (Z.leb_spec (Zdigits2 a) 53); [cbn [snd]; lia|].
  destruct (_ =? _); cbn [snd]; lia.
Qed.

Lemma float_of_int_0 : float_of_int 0 = Ok 0%float.
Proof. reflexivity. Qed.

Lemma float_of_int_pos (a : Z) :
  0 < a -> snd (fl_pair a) <= 971 ->
  exists f : float,
    float_of_int a = Ok f /\
    Prim2SF f = S754_finite false (Z.to_pos (fst (fl_pair a))) (snd (fl_pair a)).
Proof.
  intros Ha He. unfold float_of_int. rewrite binary_normalize_pos by done.
  unfold finite_or_inf. destruct (Z.leb_spec (snd (fl_pair a)) 971); [|lia].
  eexists. split; [reflexivity|]. apply Prim2SF_SF2Prim.
  pose proof (fl_pair_range a Ha). pose proof (fl_pair_exp a Ha).
  pose proof (Zdigits2_pos a Ha).
  apply valid_normal; [rewrite Z2Pos.id by lia|]; lia.
Qed.

Lemma float_of_int_overflow (a : Z) :
  0 < a -> 971 < snd (fl_pair a) -> float_of_int a = Raise OverflowError.
Proof.
  intros Ha He. unfold float_of_int. rewrite binary_normalize_pos by done.
  unfold finite_or_inf. destruct (Z.leb_spec (snd (fl_pair a)) 971); [lia|done].
Qed.

Lemma Zdigits2_le_of_lt_pow (a k : Z) : 0 < a < 2 ^ k -> Zdigits2 a <= k.
Proof.
  intros [Ha Hk]. pose proof (Zdigits2_bounds a Ha) as [Hlo _].
  pose proof (Zdigits2_pos a Ha).
  destruct (Z.le_gt_cases (Zdigits2 a) k) as [|Hgt]; [done|].
  assert (0 <= k).
  { destruct (Z.le_gt_cases 0 k); [done|]. rewrite Z.pow_neg_r in Hk by lia. lia. }
  assert (2 ^ k <= 2 ^ (Zdigits2 a - 1)) by (apply Z.pow_le_mono_r; lia). lia.
Qed.

(** Below [2 ^ 1023] the conversion never overflows. *)
Lemma float_of_int_in_range (a : Z) :
  0 < a < 2 ^ 1023 ->
  exists f : float,
    float_of_int a = Ok f /\
    Prim2SF f = S754_finite false (Z.to_pos (fst (fl_pair a))) (snd (fl_pair a)).
Proof.
  intros Ha. apply float_of_int_pos; [lia|].
  pose proof (fl_pair_exp a ltac:(lia)).
  pose proof (Zdigits2_le_of_lt_pow a 1023 Ha). lia.
Qed.

Lemma Zdigits2_mono (a b : Z) : 0 < a <= b -> Zdigits2 a <= Zdigits2 b.
Proof.
  intros [Ha Hab]. pose proof (Zdigits2_bounds a Ha) as [Hlo _].
  pose proof (Zdigits2_bounds b ltac:(lia)) as [_ Hhi].
  pose proof (Zdigits2_pos a Ha). pose proof (Zdigits2_pos b ltac:(lia)).
  destruct (Z.le_gt_cases (Zdigits2 a) (Zdigits2 b)) as [|Hgt]; [done|].
  assert (2 ^ Zdigits2 b <= 2 ^ (Zdigits2 a - 1)) by (apply Z.pow_le_mono_r; lia). lia.
Qed.

Lemma fl_pair_mono (a b : Z) : 0 < a <= b -> pair_le (fl_pair a) (fl_pair b).
Proof.
  intros [Ha Hab]. assert (Hb : 0 < b) by lia.
  pose proof (Zdigits2_mono a b ltac:(lia)) as Hd.
  pose proof (fl_pair_exp a Ha) as Hea. pose proof (fl_pair_exp b Hb) as Heb.
  pose proof (fl_pair_range a Ha) as Hra. pose proof (fl_pair_range b Hb) as Hrb.
  unfold pair_le.
  destruct (Z.eq_dec (Zdigits2 a) (Zdigits2 b)) as [Heq|Hne].
  - unfold fl_pair in *. rewrite <- Heq in *.
    destruct (Z.leb_spec (Zdigits2 a) 53) as [H53|H53]; cbn [fst snd] in *.
    + right. split; [done|].
      apply Z.mul_le_mono_nonneg_r; [|done].
      apply Z.pow_nonneg. lia.
    + unfold round_normal in *. rewrite <- Heq in *.
      pose proof (rne_mono a b (Zdigits2 a - 53) ltac:(lia) Hab) as Hr.
      destruct (Z.eqb_spec (rne a (Zdigits2 a - 53)) (2 ^ 53)) as [Ea|Ea];
        destruct (Z.eqb_spec (rne b (Zdigits2 a - 53)) (2 ^ 53)) as [Eb|Eb];
        cbn [fst snd] in *; lia.
  - destruct (Z.eq_dec (snd (fl_pair a)) (snd (fl_pair b))) as [Ee|Ee]; [|left; lia].
    right. split; [done|].
    assert (Hsa : snd (fl_pair a) = Zdigits2 a - 52) by lia.
    assert (Hma : fst (fl_pair a) = 2 ^ 52); [|lia].
    revert Hsa. unfold fl_pair, round_normal.
    destruct (Z.leb_spec (Zdigits2 a) 53); [cbn [snd]; lia|].
    destruct (_ =? _); cbn [fst snd]; [done|lia].
Qed.

(** ** Quotients of ordered floats *)

Lemma div_eucl_div_mod (a b : Z) : Z.div_eucl a b = (a / b, a mod b).
Proof. unfold Z.div, Z.modulo. destruct (Z.div_eucl a b). reflexivity. Qed.

Lemma valid_finite_canonical (s : bool) (m : positive) (e : Z) :
  valid_binary (S754_finite s m e) = true ->
  e = Z.max (Zdigits2 (Zpos m) + e - 53) (-1074) /\ e <= 971.
Proof.
  unfold SpecFloat.valid_binary, bounded, canonical_mantissa.
  rewrite fexp_eq. change (emax - prec) with 971. cbn [Zdigits2].
  intros [H1 H2]%andb_true_iff. apply Z.eqb_eq in H1. apply Z.leb_le in H2. lia.
Qed.

Lemma pow2_lt_inv (a b : Z) : 0 <= b -> 2 ^ a < 2 ^ b -> a < b.
Proof.
  intros Hb H. destruct (Z.lt_ge_cases a b) as [|Hge]; [done|].
  assert (2 ^ b <= 2 ^ a) by (apply Z.pow_le_mono_r; lia). lia.
Qed.

(** For canonical positive floats the order of [SFleb] is the order of
    the values [m * 2 ^ e]. *)
Lemma SFleb_value (mx my : positive) (ex ey : Z) :
  valid_binary (S754_finite false mx ex) = true ->
  valid_binary (S754_finite false my ey) = true ->
  SFleb (S754_finite false mx ex) (S754_finite false my ey) = true ->
  ex <= ey /\ Zpos mx <= Zpos my * 2 ^ (ey - ex).
Proof.
  intros [Hcx _]%valid_finite_canonical [Hcy _]%valid_finite_canonical
         [Hlt|[-> Hm]]%SFleb_finite_pos.
  - split; [lia|].
    pose proof (Zdigits2_bounds (Zpos mx) ltac:(lia)) as [_ Hx].
    pose proof (Zdigits2_bounds (Zpos my) ltac:(lia)) as [Hy _].
    assert (Hdx : Zdigits2 (Zpos mx) <= 53) by lia.
    assert (Hdy : Zdigits2 (Zpos my) = 53) by lia.
    rewrite Hdy in Hy. change (2 ^ (53 - 1)) with (2 ^ 52) in Hy.
    assert (2 ^ Zdigits2 (Zpos mx) <= 2 ^ 53) by (apply Z.pow_le_mono_r; lia).
    assert (2 ^ 1 <= 2 ^ (ey - ex)) by (apply Z.pow_le_mono_r; lia).
    change (2 ^ 1) with 2 in *. change (2 ^ 53) with (2 * 2 ^ 52) in *. nia.
  - split; [lia|]. rewrite Z.sub_diag, Z.pow_0_r. lia.
Qed.

Lemma SFdiv_pos_le_one (mx my : positive) (ex ey : Z) :
  valid_binary (S754_finite false mx ex) = true ->
  valid_binary (S754_finite false my ey) = true ->
  SFleb (S754_finite false mx ex) (S754_finite false my ey) = true ->
  SFleb (SF64div (S754_finite false mx ex) (S754_finite false my ey)) one_sf = true.
Proof.
  intros Hvx Hvy Hle.
  destruct (SFleb_value mx my ex ey Hvx Hvy Hle) as [He Hval].
  unfold SF64div, SFdiv, SFdiv_core_binary. cbn [xorb].
  rewrite fexp_eq.
  set (dx := Zdigits2 (Zpos mx)). set (dy := Zdigits2 (Zpos my)).
  set (e' := Z.min (Z.max (dx + ex - (dy + ey) - 53) (-1074)) (ex - ey)).
  assert (Hdig : dx + ex <= dy + ey + 1).
  { pose proof (Zdigits2_bounds (Zpos mx) ltac:(lia)) as [Hx _].
    pose proof (Zdigits2_bounds (Zpos my) ltac:(lia)) as [_ Hy].
    pose proof (Zdigits2_pos (Zpos mx) ltac:(lia)).
    pose proof (Zdigits2_pos (Zpos my) ltac:(lia)).
    fold dx in Hx, H. fold dy in Hy, H0.
    assert (Hlt : 2 ^ (dx - 1) < 2 ^ (dy + (ey - ex))).
    { rewrite Z.pow_add_r by lia.
      assert (0 < 2 ^ (ey - ex)) by (apply Z.pow_pos_nonneg; lia). nia. }
    apply pow2_lt_inv in Hlt; lia. }
  assert (He' : e' <= -52) by (subst e'; lia).
  assert (Hs : 0 <= ex - ey - e') by (subst e'; lia).
  set (s := ex - ey - e') in *.
  set (m' := match s with Z.pos _ => Z.shiftl (Z.pos mx) s | 0 => Z.pos mx | Z.neg _ => 0 end).
  assert (Hm' : m' = Zpos mx * 2 ^ s).
  { subst m'. destruct s as [|p|p] eqn:Es; [lia| |lia].
    rewrite Z.shiftl_mul_pow2 by lia. reflexivity. }
  assert (Hbound : m' <= Zpos my * 2 ^ (- e')).
  { rewrite Hm'. replace (- e') with ((ey - ex) + s) by (subst s; lia).
    rewrite Z.pow_add_r by lia.
    assert (0 < 2 ^ s) by (apply Z.pow_pos_nonneg; lia). nia. }
  assert (Hm0 : 0 <= m').
  { rewrite Hm'. assert (0 < 2 ^ s) by (apply Z.pow_pos_nonneg; lia). nia. }
  rewrite div_eucl_div_mod.
  pose proof (Z.div_mod m' (Zpos my) ltac:(lia)) as Hdm.
  pose proof (Z.mod_pos_bound m' (Zpos my) ltac:(lia)) as Hr.
  assert (0 < 2 ^ (- e')) by (apply Z.pow_pos_nonneg; lia).
  apply binary_round_aux_le_one; [done| |].
  - split; [apply Z.div_pos; lia|]. apply Z.div_le_upper_bound; lia.
  - intros Hloc.
    destruct (Z.eq_dec (m' mod Zpos my) 0) as [E0|E0].
    + rewrite E0, new_location_0 in Hloc. done.
    + apply Z.div_lt_upper_bound; [lia|].
      destruct (Z.eq_dec m' (Zpos my * 2 ^ (- e'))) as [E|E]; [|lia].
      exfalso. apply E0. rewrite E, Z.mul_comm. apply Z.mod_mul. lia.
Qed.

(** ** Comparisons of primitive floats *)

Lemma float_leb_number (a b : float) :
  (a <=? b)%float = true -> Prim2SF a <> S754_nan /\ Prim2SF b <> S754_nan.
Proof. rewrite leb_spec. apply SFleb_not_nan. Qed.

Lemma float_ltb_false_leb (a b : float) :
  Prim2SF a <> S754_nan -> Prim2SF b <> S754_nan ->
  (a <? b)%float = false -> (b <=? a)%float = true.
Proof. rewrite ltb_spec, leb_spec. apply SFltb_false_leb. Qed.

Lemma float_leb_ltb_trans (a b c : float) :
  (a <=? b)%float = true -> (b <? c)%float = true -> (a <? c)%float = true.
Proof. rewrite !ltb_spec, leb_spec. apply SFleb_ltb_trans. Qed.

Lemma float_leb_trans (a b c : float) :
  (a <=? b)%float = true -> (b <=? c)%float = true -> (a <=? c)%float = true.
Proof. rewrite !leb_spec. apply SFleb_trans. Qed.

Lemma float_ltb_leb (a b : float) :
  (a <? b)%float = true -> (a <=? b)%float = true.
Proof. rewrite ltb_spec, leb_spec. apply SFltb_leb. Qed.

Lemma float_leb_refl (a : float) :
  Prim2SF a <> S754_nan -> (a <=? a)%float = true.
Proof. rewrite leb_spec. apply SFleb_refl. Qed.

(** ** The reduction [max] *)

Section FirstMax.
Context {A : Type} (key : A -> float).

Lemma max_loop_first_max (l seen : list A) (i : nat) (best : A) :
  first_max key seen i best ->
  (forall p, p ∈ seen ++ l -> Prim2SF (key p) <> S754_nan) ->
  exists i' r,
    max_loop key best (key best) (gen_of_list l) = Ok r /\
    first_max key (seen ++ l) i' r.
Proof.
  revert seen i best. induction l as [|x l IH]; intros seen i best Hmax Hnum.
  - exists i, best. rewrite app_nil_r. done.
  - destruct Hmax as (Hi & Hle & Hlt).
    assert (Hlen : (i < length seen)%nat) by (eapply lookup_lt_Some; eauto).
    assert (Hx : Prim2SF (key x) <> S754_nan) by (apply Hnum; set_solver).
    assert (Hb : Prim2SF (key best) <> S754_nan).
    { apply Hnum. apply elem_of_app. left. eapply list_elem_of_lookup_2; eauto. }
    replace (seen ++ x :: l) with ((seen ++ [x]) ++ l) in *
      by (rewrite <- app_assoc; reflexivity).
    simpl max_loop. destruct (key best <? key x)%float eqn:Hcmp.
    + apply (IH (seen ++ [x]) (length seen) x); [|exact Hnum].
      split; [|split].
      * rewrite lookup_app_r by lia. by rewrite Nat.sub_diag.
      * intros p [Hp|Hp]%elem_of_app.
        -- apply float_ltb_leb. eapply float_leb_ltb_trans; eauto.
        -- apply list_elem_of_singleton in Hp as ->. by apply float_leb_refl.
      * intros j p Hj Hjl. rewrite lookup_app_l in Hj by lia.
        eapply float_leb_ltb_trans; [|exact Hcmp].
        apply Hle. eapply list_elem_of_lookup_2; eauto.
    + apply (IH (seen ++ [x]) i best); [|exact Hnum].
      split; [|split].
      * rewrite lookup_app_l by lia. exact Hi.
      * intros p [Hp|Hp]%elem_of_app; [by apply Hle|].
        apply list_elem_of_singleton in Hp as ->. by apply float_ltb_false_leb.
      * intros j p Hj Hjl. rewrite lookup_app_l in Hj by lia. eauto.
Qed.

Lemma py_max_first_max (l : list A) :
  l <> [] ->
  (forall p, p ∈ l -> Prim2SF (key p) <> S754_nan) ->
  exists i r, py_max key (gen_of_list l) = Ok r /\ first_max key l i r.
Proof.
  intros Hne Hnum. destruct l as [|m l]; [done|].
  simpl. apply (max_loop_first_max l [m] 0%nat m); [|exact Hnum].
  split; [done|]. split.
  - intros p Hp. apply list_elem_of_singleton in Hp as ->.
    apply float_leb_refl, Hnum. set_solver.
  - intros j p _ Hj. lia.
Qed.
End FirstMax.

(** ** The matcher's trace *)

Lemma yielded_gen_of_list {A : Type} (l : list A) : yielded (gen_of_list l) = l.
Proof. induction l as [|a l IH]; simpl; congruence. Qed.

Lemma elem_of_matches (query : string) (choices : list string) (cutoff : float)
    (choice : string) (s : float) :
  (choice, s) ∈ matches query choices cutoff <->
  choice ∈ choices /\ choice <> query /\ score query choice = Ok s /\
  (cutoff <=? s)%float = true.
Proof.
  unfold matches. rewrite list_elem_of_omap. split.
  - intros (x & Hx & Hsome). destruct (decide (x = query)); [done|].
    destruct (score query x) as [s'|] eqn:Hs; [|done].
    destruct (cutoff <=? s')%float eqn:Hc; [|done].
    injection Hsome as -> ->. done.
  - intros (Hin & Hne & Hs & Hc). exists choice. split; [done|].
    destruct (decide (choice = query)); [done|]. by rewrite Hs, Hc.
Qed.

Lemma select_best_loop_matches (query : string) (choices : list string)
    (cutoff : float) :
  (forall choice, choice ∈ choices -> choice <> query ->
     exists s, score query choice = Ok s) ->
  select_best_loop query (text_to_ngrams_vector query 2) cutoff choices
  = gen_of_list (matches query choices cutoff).
Proof.
  induction choices as [|choice rest IH]; intros Hok; [reflexivity|].
  assert (IH' := IH (fun c Hc => Hok c (list_elem_of_further _ _ _ Hc))).
  unfold matches in *. simpl select_best_loop. cbn [omap list_omap].
  destruct (String.eqb_spec query choice) as [<-|Hne].
  - destruct (decide (query = query)); [|done]. exact IH'.
  - destruct (decide (choice = query)) as [E|_]; [by subst|].
    destruct (Hok choice) as [s Hs]; [left|by intros ->|].
    unfold score in Hs |- *. rewrite Hs.
    destruct (cutoff <=? s)%float; simpl; by rewrite IH'.
Qed.

(** Whatever the trace, a yielded pair is a scored candidate that is not
    the query and reaches the cutoff. *)
Lemma select_best_loop_yielded (query : string) (choices : list string)
    (cutoff : float) (p : string * float) :
  p ∈ yielded (select_best_loop query (text_to_ngrams_vector query 2) cutoff choices) ->
  p.1 ∈ choices /\ p.1 <> query /\ score query p.1 = Ok p.2 /\
  (cutoff <=? p.2)%float = true.
Proof.
  induction choices as [|choice rest IH]; simpl; [by intros ?%elem_of_nil|].
  destruct (String.eqb_spec query choice) as [<-|Hne].
  - intros Hp. destruct (IH Hp) as (? & ? & ? & ?). repeat split; try done. by right.
  - destruct (cosine_similar _ _) as [s|e] eqn:Hs; [|by intros ?%elem_of_nil].
    destruct (cutoff <=? s)%float eqn:Hc.
    + simpl. intros [->|Hp]%elem_of_cons.
      * simpl. split; [by left|]. split; [by intros ->|]. by split.
      * destruct (IH Hp) as (? & ? & ? & ?). repeat split; try done. by right.
    + intros Hp. destruct (IH Hp) as (? & ? & ? & ?). repeat split; try done. by right.
Qed.

(** * The matcher and the selector *)

(** C2. When every candidate other than the query can be scored,
    [select_best_list] yields exactly the pairs [(choice, score)] of the
    candidates, in input order, that are not equal to the query and whose
    cosine score on the 2-gram vectors reaches the cutoff; a candidate equal
    to the query is never among them, whatever its score. *)
Theorem select_best_list_yields (query : string) (choices : list string)
    (score_cutoff : float) :
  (forall choice, choice ∈ choices -> choice <> query ->
     exists s, score query choice = Ok s) ->
  select_best_list query choices score_cutoff
  = gen_of_list (matches query choices score_cutoff) /\
  (forall choice s,
     (choice, s) ∈ matches query choices score_cutoff <->
     choice ∈ choices /\ choice <> query /\ score query choice = Ok s /\
     (score_cutoff <=? s)%float = true).
Proof.
  intros Hok. split.
  - unfold select_best_list. by apply select_best_loop_matches.
  - intros choice s. apply elem_of_matches.
Qed.

Lemma select_best_list_yields_witness :
  (forall choice, choice ∈ ["sitting"; "kitten"; "mitten"]%string ->
     choice <> "kitten"%string -> exists s, score "kitten" choice = Ok s) /\
  select_best_list "kitten" ["sitting"; "kitten"; "mitten"]%string 0.5%float
  = gen_of_list (matches "kitten" ["sitting"; "kitten"; "mitten"]%string 0.5%float).
Proof.
  assert (H : forall choice, choice ∈ ["sitting"; "kitten"; "mitten"]%string ->
     choice <> "kitten"%string -> exists s, score "kitten" choice = Ok s).
  { intros choice Hin Hne.
    apply elem_of_cons in Hin as [->|Hin]; [eexists; vm_compute; reflexivity|].
    apply elem_of_cons in Hin as [->|Hin]; [done|].
    apply elem_of_cons in Hin as [->|Hin]; [eexists; vm_compute; reflexivity|].
    by apply elem_of_nil in Hin. }
  split; [exact H|].
  exact (proj1 (select_best_list_yields "kitten"
                  ["sitting"; "kitten"; "mitten"]%string 0.5%float H)).
Defined.

(** C1. When the matcher yields the pairs [l], and [l] is not empty,
    [select_best_one] returns the pair of [l] of greatest score, the first
    one in the order of [l] (which is the order of [choices]) when several
    share that score; the score it returns reaches the cutoff. *)
Theorem select_best_one_first_max (query : string) (choices : list string)
    (score_cutoff : float) (l : list (string * float)) :
  select_best_list query choices score_cutoff = gen_of_list l ->
  l <> [] ->
  exists i r,
    select_best_one query choices score_cutoff = Ok r /\
    first_max snd l i r /\
    (score_cutoff <=? r.2)%float = true.
Proof.
  intros Hl Hne.
  assert (Hcut : forall p, p ∈ l -> (score_cutoff <=? p.2)%float = true).
  { intros p Hp. rewrite <- (yielded_gen_of_list l), <- Hl in Hp.
    by apply select_best_loop_yielded in Hp as (_ & _ & _ & ?). }
  destruct (py_max_first_max snd l Hne) as (i & r & Hmax & Hfirst).
  { intros p Hp. by apply Hcut, float_leb_number in Hp as [_ ?]. }
  exists i, r. unfold select_best_one. rewrite Hl, Hmax.
  split; [done|]. split; [done|].
  apply Hcut. destruct Hfirst as [Hi _]. eapply list_elem_of_lookup_2; eauto.
Qed.

Lemma select_best_one_first_max_witness :
  exists i r,
    select_best_one "kitten" ["sitting"; "bitten"; "mitten"]%string 0%float = Ok r /\
    first_max snd
      (yielded (select_best_list "kitten" ["sitting"; "bitten"; "mitten"]%string 0%float))
      i r /\
    (0 <=? r.2)%float = true.
Proof.
  apply (select_best_one_first_max "kitten" ["sitting"; "bitten"; "mitten"]%string
           0%float).
  - vm_compute. reflexivity.
  - vm_compute. discriminate.
Defined.

(** C3. When the matcher is exhausted without yielding a pair,
    [select_best_one] returns the pair [("", 0.0)] and raises nothing. *)
Theorem select_best_one_no_match (query : string) (choices : list string)
    (score_cutoff : float) :
  select_best_list query choices score_cutoff = Stop ->
  select_best_one query choices score_cutoff = Ok (""%string, 0%float).
Proof. intros H. unfold select_best_one. by rewrite H. Qed.

Lemma select_best_one_no_match_witness :
  select_best_list "economics" ["economics"]%string 0.7%float = Stop /\
  select_best_one "economics" ["economics"]%string 0.7%float = Ok (""%string, 0%float).
Proof.
  split; [reflexivity|].
  apply (select_best_one_no_match "economics" ["economics"]%string 0.7%float).
  reflexivity.
Defined.

(** * The vectorizer *)

(** C10. For [n >= 1], a key of [text_to_ngrams_vector text n] always
    carries a strictly positive count: no key is present with count zero or
    below. The vectors the matcher builds (with [n = 2]) are therefore
    non-negative. *)
Theorem text_to_ngrams_vector_positive (text : string) (n : Z) (key : string) (v : Z) :
  1 <= n ->
  text_to_ngrams_vector text n !! key = Some v ->
  0 < v.
Proof. intros _. apply Counter_positive. Qed.

Lemma text_to_ngrams_vector_positive_witness :
  1 <= 2 /\ text_to_ngrams_vector "aaaa" 2 !! "aa"%string = Some 3 /\ 0 < 3.
Proof.
  split; [lia|]. split; [vm_compute; reflexivity|].
  apply (text_to_ngrams_vector_positive "aaaa" 2 "aa" 3); [lia|].
  vm_compute. reflexivity.
Defined.

(** C4, as stated, fails at the text [a<TAB>b]: the 2-gram [a<TAB>] is a
    key and holds a whitespace character. *)
Lemma text_to_ngrams_vector_keeps_tab :
  exists key : string,
    key ∈ dom (text_to_ngrams_vector (String "a" (String "009" (String "b" ""))) 2) /\
    contains_whitespace key = true.
Proof.
  exists (String "a" (String "009" "")). split; [|reflexivity].
  apply elem_of_dom. exists 1. vm_compute. reflexivity.
Qed.

(** C4, amended. For [n >= 1], every key of [text_to_ngrams_vector text n]
    is a contiguous substring of [text], of length exactly [n], starting at
    an offset between [0] and [len(text) - n]; no key holds a space
    character. (Other whitespace, such as a tab, is not excluded.) *)
Theorem text_to_ngrams_vector_keys (text : string) (n : Z) (key : string) :
  1 <= n ->
  key ∈ dom (text_to_ngrams_vector text n) ->
  (exists i : Z,
     0 <= i <= Z.of_nat (String.length text) - n /\
     substring_at (Z.to_nat i) key text) /\
  Z.of_nat (String.length key) = n /\
  contains_space key = false.
Proof.
  intros Hn Hkey. apply elem_of_dom_Counter in Hkey.
  destruct (elem_of_ngrams text n key Hn Hkey) as (i & Hi & -> & Hsp).
  split; [|split].
  - exists i. split; [done|]. apply substring_split. lia.
  - rewrite length_substring; lia.
  - done.
Qed.

Lemma text_to_ngrams_vector_keys_witness :
  1 <= 2 /\
  "cd"%string ∈ dom (text_to_ngrams_vector "ab cd" 2) /\
  (exists i : Z,
     0 <= i <= Z.of_nat (String.length "ab cd") - 2 /\
     substring_at (Z.to_nat i) "cd" "ab cd") /\
  Z.of_nat (String.length "cd") = 2 /\
  contains_space "cd" = false.
Proof.
  assert (H : "cd"%string ∈ dom (text_to_ngrams_vector "ab cd" 2)).
  { apply elem_of_dom. exists 1. vm_compute. reflexivity. }
  split; [lia|]. split; [exact H|].
  apply (text_to_ngrams_vector_keys "ab cd" 2 "cd"); [lia|exact H].
Defined.

(** * The metrics *)

(** ** Sums *)

Lemma foldl_add_acc (l : list Z) (a : Z) : foldl Z.add a l = a + foldl Z.add 0 l.
Proof.
  revert a. induction l as [|x l IH]; intros a; simpl; [lia|].
  rewrite (IH (a + x)), (IH (0 + x)). lia.
Qed.

Lemma py_sum_cons (x : Z) (l : list Z) : py_sum (x :: l) = x + py_sum l.
Proof. unfold py_sum. simpl. rewrite foldl_add_acc. lia. Qed.

Lemma py_sum_perm (l l' : list Z) : l ≡ₚ l' -> py_sum l = py_sum l'.
Proof.
  induction 1 as [|x l l' _ IH|x y l|l l' l'' _ IH1 _ IH2];
    rewrite ?py_sum_cons; try lia; congruence.
Qed.

Lemma py_sum_nonneg (l : list Z) : (forall x, x ∈ l -> 0 <= x) -> 0 <= py_sum l.
Proof.
  induction l as [|x l IH]; intros H; [done|]. rewrite py_sum_cons.
  assert (0 <= x) by (apply H; left).
  assert (0 <= py_sum l) by (apply IH; intros y Hy; apply H; by right). lia.
Qed.

Lemma py_sum_ext {A : Type} (f g : A -> Z) (l : list A) :
  (forall x, x ∈ l -> f x = g x) -> py_sum (map f l) = py_sum (map g l).
Proof.
  induction l as [|x l IH]; intros H; [done|]. simpl. rewrite !py_sum_cons.
  rewrite (H x) by left. rewrite IH; [done|]. intros y Hy. apply H. by right.
Qed.

Lemma set_sum_empty (f : string -> Z) : set_sum f ∅ = 0.
Proof. unfold set_sum. by rewrite elements_empty. Qed.

Lemma set_sum_insert (f : string -> Z) (X : gset string) (x : string) :
  x ∉ X -> set_sum f ({[x]} ∪ X) = f x + set_sum f X.
Proof.
  intros Hx. unfold set_sum.
  rewrite (py_sum_perm _ (map f (x :: elements X))).
  - simpl. apply py_sum_cons.
  - apply Permutation_map. by apply elements_union_singleton.
Qed.

Lemma set_sum_ext (f g : string -> Z) (X : gset string) :
  (forall x, x ∈ X -> f x = g x) -> set_sum f X = set_sum g X.
Proof.
  intros H. apply py_sum_ext. intros x Hx. apply H. by apply elem_of_elements.
Qed.

Lemma set_sum_nonneg (f : string -> Z) (X : gset string) :
  (forall x, x ∈ X -> 0 <= f x) -> 0 <= set_sum f X.
Proof.
  intros H. apply py_sum_nonneg. intros y Hy.
  apply list_elem_of_fmap_1 in Hy as (x & -> & Hx).
  apply H. by apply elem_of_elements.
Qed.

Lemma set_sum_intersection (f : string -> Z) (X Y : gset string) :
  set_sum f (X ∩ Y) = set_sum (fun k => if decide (k ∈ Y) then f k else 0) X.
Proof.
  induction X as [|x X Hx IH] using set_ind_L.
  - replace (∅ ∩ Y) with (∅ : gset string) by set_solver.
    by rewrite !set_sum_empty.
  - rewrite (set_sum_insert _ X x Hx). destruct (decide (x ∈ Y)) as [Hy|Hy].
    + replace (({[x]} ∪ X) ∩ Y) with ({[x]} ∪ (X ∩ Y)) by set_solver.
      rewrite set_sum_insert by set_solver. by rewrite IH.
    + replace (({[x]} ∪ X) ∩ Y) with (X ∩ Y) by set_solver. by rewrite IH.
Qed.

Lemma set_sum_dom (g : string -> Z -> Z) (vec : gmap string Z) :
  set_sum (fun i => g i (getitem vec i)) (dom vec)
  = map_fold (fun k x acc => acc + g k x) 0 vec.
Proof.
  induction vec as [|k x vec Hk IH] using map_ind.
  - rewrite dom_empty_L, set_sum_empty, map_fold_empty. done.
  - rewrite dom_insert_L, set_sum_insert by (by apply not_elem_of_dom).
    rewrite map_fold_insert_L; [|intros; lia|done].
    unfold getitem at 1. rewrite lookup_insert_eq. simpl.
    rewrite <- IH. rewrite (set_sum_ext _ (fun i => g i (getitem vec i))); [lia|].
    intros i Hi. unfold getitem. rewrite lookup_insert_ne; [done|].
    intros ->. by apply not_elem_of_dom in Hk.
Qed.

Lemma sum_squares (vec : gmap string Z) :
  py_sum (map (fun i => getitem vec i ^ 2) (elements (dom vec))) = sq_norm vec.
Proof. apply (set_sum_dom (fun _ x => x ^ 2)). Qed.

Lemma sum_products (vec1 vec2 : gmap string Z) :
  py_sum (map (fun i => getitem vec1 i * getitem vec2 i)
              (elements (dom vec1 ∩ dom vec2)))
  = dot vec1 vec2.
Proof.
  change (set_sum (fun i => getitem vec1 i * getitem vec2 i) (dom vec1 ∩ dom vec2)
          = dot vec1 vec2).
  rewrite set_sum_intersection. unfold dot.
  rewrite <- (set_sum_dom
    (fun k x => match vec2 !! k with Some y => x * y | None => 0 end)).
  apply set_sum_ext. intros i _. unfold getitem.
  destruct (decide (i ∈ dom vec2)) as [Hi|Hi].
  - apply elem_of_dom in Hi as [y ->]. done.
  - apply not_elem_of_dom in Hi. by rewrite Hi.
Qed.

Lemma sq_norm_nonneg (vec : gmap string Z) : 0 <= sq_norm vec.
Proof.
  rewrite <- sum_squares. apply py_sum_nonneg. intros y Hy.
  apply list_elem_of_fmap_1 in Hy as (x & -> & _). apply Z.pow_even_nonneg.
  by exists 1.
Qed.

(** ** Square roots stay finite *)

Lemma finish_finite (m1 e1 : Z) :
  0 <= m1 -> e1 <= 971 -> Zdigits2 m1 + e1 - 53 <= 971 ->
  finite_nonneg (finish false m1 e1).
Proof.
  intros Hm He Hd. unfold finish. rewrite fexp_eq.
  set (n2 := Z.max (Z.max (Zdigits2 m1 + e1 - 53) (-1074) - e1) 0).
  assert (0 <= m1 / 2 ^ n2) by (apply Z.div_pos; lia).
  destruct (m1 / 2 ^ n2); [done| |lia].
  change (emax - prec) with 971.
  destruct (Z.leb_spec (e1 + n2) 971); [done|lia].
Qed.

Lemma Zdigits2_nonneg (m : Z) : 0 <= Zdigits2 m.
Proof. destruct m; simpl; lia. Qed.

Lemma binary_round_aux_finite (mx ex : Z) (l : location) :
  0 <= mx -> ex <= 970 -> Zdigits2 mx + ex <= 1023 ->
  finite_nonneg (binary_round_aux prec emax false mx ex l).
Proof.
  intros Hm He Hd.
  destruct (binary_round_aux_general false mx ex l Hm) as (m1 & Hb & _ & ->).
  unfold first_shift in *. rewrite fexp_eq in *.
  set (n := Z.max (Z.max (Zdigits2 mx + ex - 53) (-1074) - ex) 0) in *.
  assert (Hq0 : 0 <= mx / 2 ^ n) by (apply Z.div_pos; lia).
  pose proof (Zdigits2_nonneg mx) as Hdx.
  apply finish_finite; [lia|lia|].
  destruct (Z.eq_dec mx 0) as [->|Hne].
  - rewrite Z.div_0_l in Hb by lia.
    assert (Zdigits2 m1 <= 0 + 1) by (apply digits_le_of_bound; simpl; lia).
    simpl in n. lia.
  - pose proof (Zdigits2_bounds mx ltac:(lia)) as [_ Hhi].
    pose proof (Zdigits2_pos mx ltac:(lia)).
    destruct (Z.le_gt_cases n (Zdigits2 mx)) as [Hn|Hn].
    + pose proof (div_pow2_lt mx (Zdigits2 mx) n ltac:(lia) Hhi).
      assert (Zdigits2 m1 <= (Zdigits2 mx - n) + 1)
        by (apply digits_le_of_bound; lia).
      lia.
    + assert (mx / 2 ^ n = 0).
      { apply Z.div_small. split; [lia|].
        assert (2 ^ Zdigits2 mx <= 2 ^ n) by (apply Z.pow_le_mono_r; lia). lia. }
      assert (Zdigits2 m1 <= 0 + 1) by (apply digits_le_of_bound; simpl; lia).
      lia.
Qed.

Lemma sqrt_digits (m' : Z) (k : Z) :
  0 < m' < 2 ^ k -> 0 <= k -> 2 * Zdigits2 (Z.sqrt m') <= k + 1.
Proof.
  intros [Hm Hk] Hk0.
  pose proof (Z.sqrt_spec m' ltac:(lia)) as [Hlo _].
  assert (Hq : 0 < Z.sqrt m') by (apply Z.sqrt_pos; lia).
  pose proof (Zdigits2_bounds _ Hq) as [Hd _].
  pose proof (Zdigits2_pos _ Hq) as Hdp.
  set (d := Zdigits2 (Z.sqrt m')) in *.
  assert (H2 : 2 ^ (d - 1) * 2 ^ (d - 1) <= Z.sqrt m' * Z.sqrt m').
  { apply Z.mul_le_mono_nonneg; lia. }
  rewrite <- Z.pow_add_r in H2 by lia.
  assert (Hlt : 2 ^ (d - 1 + (d - 1)) < 2 ^ k) by lia.
  apply pow2_lt_inv in Hlt; lia.
Qed.

Lemma SFsqrt_finite (m : positive) (e : Z) :
  valid_binary (S754_finite false m e) = true ->
  finite_nonneg (SF64sqrt (S754_finite false m e)).
Proof.
  intros [Hc He]%valid_finite_canonical.
  unfold SF64sqrt, SFsqrt, SFsqrt_core_binary. rewrite fexp_eq.
  set (d := Zdigits2 (Zpos m)) in *.
  assert (Hd : 0 < d <= 53).
  { pose proof (Zdigits2_pos (Zpos m) ltac:(lia)). fold d in H. lia. }
  set (e' := Z.min (Z.max (Z.div2 (d + e + 1) - 53) (-1074)) (Z.div2 e)).
  assert (He2 : 2 * Z.div2 e <= e).
  { rewrite Z.div2_div. pose proof (Z.mul_div_le e 2 ltac:(lia)). lia. }
  assert (Hs : 0 <= e - 2 * e') by (subst e'; lia).
  set (s := e - 2 * e') in *.
  set (m' := match s with Z.pos _ => Z.shiftl (Z.pos m) s | 0 => Z.pos m | Z.neg _ => 0 end).
  assert (Hm' : m' = Zpos m * 2 ^ s).
  { subst m'. destruct s as [|p|p] eqn:Es; [lia| |lia].
    rewrite Z.shiftl_mul_pow2 by lia. reflexivity. }
  assert (H2s : 0 < 2 ^ s) by (apply Z.pow_pos_nonneg; lia).
  assert (Hm0 : 0 < m') by (rewrite Hm'; nia).
  pose proof (Z.sqrtrem_spec m' ltac:(lia)) as Hspec.
  pose proof (Z.sqrtrem_sqrt m') as Hsqrt.
  destruct (Z.sqrtrem m') as [q r]. cbn [fst] in Hsqrt. subst q.
  assert (Hlt : m' < 2 ^ (d + s)).
  { rewrite Hm', Z.pow_add_r by lia.
    pose proof (Zdigits2_bounds (Zpos m) ltac:(lia)) as [_ Hhi]. fold d in Hhi. nia. }
  pose proof (sqrt_digits m' (d + s) ltac:(lia) ltac:(lia)) as Hdq.
  assert (Hq0 : 0 <= Z.sqrt m') by apply Z.sqrt_nonneg.
  assert (He' : e' <= 485) by (subst e'; lia).
  match goal with
  | |- finite_nonneg (binary_round_aux _ _ _ _ _ ?l) =>
      apply (binary_round_aux_finite (Z.sqrt m') e' l); [done|lia|subst s; lia]
  end.
Qed.

(** ** Results of the conversions *)

Lemma bind_Ok {A B : Type} (a : A) (k : A -> result B) : (Ok a ≫= k) = k a.
Proof. reflexivity. Qed.

Lemma bind_Raise {A B : Type} (e : exn) (k : A -> result B) :
  (Raise e ≫= k) = Raise e.
Proof. reflexivity. Qed.

Lemma float_of_int_raise (a : Z) (e : exn) :
  float_of_int a = Raise e -> e = OverflowError.
Proof.
  unfold float_of_int. destruct (binary_normalize _ _ _ _ _); congruence.
Qed.

Lemma float_of_int_nonneg (a : Z) (f : float) :
  0 <= a -> float_of_int a = Ok f -> finite_nonneg (Prim2SF f).
Proof.
  intros Ha Hf. destruct (Z.eq_dec a 0) as [->|Hne].
  - rewrite float_of_int_0 in Hf. injection Hf as <-. exact I.
  - destruct (Z.le_gt_cases (snd (fl_pair a)) 971) as [He|He].
    + destruct (float_of_int_pos a ltac:(lia) He) as (f' & Hf' & Hsf).
      assert (f = f') as -> by congruence. by rewrite Hsf.
    + rewrite float_of_int_overflow in Hf by lia. done.
Qed.

Lemma finite_nonneg_signed (x : spec_float) : finite_nonneg x -> signed false x.
Proof. destruct x as [[]|[]| |[] ? ?]; done. Qed.

Lemma signed_false_leb (x : float) :
  signed false (Prim2SF x) -> (0 <=? x)%float = true.
Proof.
  rewrite leb_spec. change (Prim2SF 0) with (S754_zero false).
  destruct (Prim2SF x) as [[]|[]| |[] ? ?]; done.
Qed.

Lemma signed_false_not_neg (x : float) :
  signed false (Prim2SF x) -> (x <? 0)%float = false.
Proof.
  rewrite ltb_spec. change (Prim2SF 0) with (S754_zero false).
  destruct (Prim2SF x) as [[]|[]| |[] ? ?]; done.
Qed.

Lemma float_sqrt_finite_nonneg (x : float) :
  finite_nonneg (Prim2SF x) -> finite_nonneg (Prim2SF (sqrt x)).
Proof.
  intros Hx. rewrite sqrt_spec. pose proof (Prim2SF_valid x) as Hv.
  destruct (Prim2SF x) as [[]|[]| |[] m e]; try done.
  by apply SFsqrt_finite.
Qed.

(** [math.sqrt] of a non-negative integer: the only failure is the
    conversion, and the root is a finite non-negative float. *)
Lemma math_sqrt_nonneg (a : Z) :
  0 <= a ->
  (float_of_int a = Raise OverflowError /\ math_sqrt a = Raise OverflowError) \/
  (exists x, float_of_int a = Ok x /\ math_sqrt a = Ok (sqrt x) /\
             finite_nonneg (Prim2SF x) /\ finite_nonneg (Prim2SF (sqrt x))).
Proof.
  intros Ha. unfold math_sqrt. destruct (float_of_int a) as [x|e] eqn:Hx.
  - right. exists x. pose proof (float_of_int_nonneg a x Ha Hx) as Hfx.
    rewrite bind_Ok, signed_false_not_neg by by apply finite_nonneg_signed.
    repeat split; try done. by apply float_sqrt_finite_nonneg.
  - left. apply float_of_int_raise in Hx as ->. done.
Qed.

Lemma float_mul_signed (x y : float) :
  finite_nonneg (Prim2SF x) -> finite_nonneg (Prim2SF y) ->
  signed false (Prim2SF (x * y)).
Proof.
  rewrite mul_spec. unfold SF64mul, SFmul.
  destruct (Prim2SF x) as [[]|[]| |[] mx ex], (Prim2SF y) as [[]|[]| |[] my ey];
    try done.
  intros _ _. cbn [xorb]. apply binary_round_aux_signed. lia.
Qed.

Lemma float_div_signed (n d : float) :
  finite_nonneg (Prim2SF n) -> signed false (Prim2SF d) ->
  (d =? 0)%float = false ->
  signed false (Prim2SF (n / d)).
Proof.
  rewrite FloatAxioms.eqb_spec, div_spec. change (Prim2SF 0) with (S754_zero false).
  unfold SF64div, SFdiv.
  destruct (Prim2SF n) as [[]|[]| |[] mx ex], (Prim2SF d) as [[]|[]| |[] my ey];
    try done.
  intros _ _ _. cbn [xorb]. unfold SFdiv_core_binary.
  rewrite div_eucl_div_mod. apply binary_round_aux_signed.
  apply Z.div_pos; [|lia].
  match goal with |- 0 <= match ?s with _ => _ end => destruct s eqn:Es end;
    try lia.
  rewrite Z.shiftl_mul_pow2 by lia.
  apply Z.mul_nonneg_nonneg; [lia|]. apply Z.pow_nonneg. lia.
Qed.

Lemma float_div_le_one (x y : float) :
  (exists mx ex, Prim2SF x = S754_finite false mx ex) ->
  (exists my ey, Prim2SF y = S754_finite false my ey) ->
  (x <=? y)%float = true ->
  (x / y <=? 1)%float = true.
Proof.
  intros (mx & ex & Hx) (my & ey & Hy). rewrite !leb_spec, div_spec.
  pose proof (Prim2SF_valid x) as Hvx. pose proof (Prim2SF_valid y) as Hvy.
  rewrite Hx in *. rewrite Hy in *. rewrite Prim2SF_one.
  by apply SFdiv_pos_le_one.
Qed.

Lemma float_zero_div (y : float) :
  (exists my ey, Prim2SF y = S754_finite false my ey) -> (0 / y)%float = 0%float.
Proof.
  intros (my & ey & Hy). apply Prim2SF_inj. rewrite div_spec, Hy. reflexivity.
Qed.

(** Conversion of integers is monotone. *)
Lemma float_of_int_mono (a b : Z) (x y : float) :
  0 < a <= b -> float_of_int a = Ok x -> float_of_int b = Ok y ->
  (exists mx ex, Prim2SF x = S754_finite false mx ex) /\
  (exists my ey, Prim2SF y = S754_finite false my ey) /\
  (x <=? y)%float = true.
Proof.
  intros [Ha Hab] Hx Hy.
  destruct (Z.le_gt_cases (snd (fl_pair a)) 971) as [Hea|Hea];
    [|by rewrite float_of_int_overflow in Hx by lia].
  destruct (Z.le_gt_cases (snd (fl_pair b)) 971) as [Heb|Heb];
    [|by rewrite float_of_int_overflow in Hy by lia].
  destruct (float_of_int_pos a Ha Hea) as (x' & Hx' & Hsx).
  destruct (float_of_int_pos b ltac:(lia) Heb) as (y' & Hy' & Hsy).
  assert (x = x') as -> by congruence. assert (y = y') as -> by congruence.
  split; [eauto|]. split; [eauto|].
  rewrite leb_spec, Hsx, Hsy. apply SFleb_finite_pos.
  pose proof (fl_pair_range a Ha). pose proof (fl_pair_range b ltac:(lia)).
  rewrite !Z2Pos.id by lia.
  destruct (fl_pair_mono a b ltac:(lia)) as [?|[? ?]]; [by left|by right].
Qed.

(** ** Cosine similarity *)

Lemma cosine_similar_eq_formula (vec1 vec2 : gmap string Z) :
  cosine_similar vec1 vec2 = cosine_formula vec1 vec2.
Proof.
  unfold cosine_similar, cosine_formula, float_falsy. cbv zeta.
  by rewrite !sum_squares, sum_products.
Qed.

Lemma dot_comm (vec1 vec2 : gmap string Z) : dot vec1 vec2 = dot vec2 vec1.
Proof.
  rewrite <- !sum_products. rewrite (comm_L (∩) (dom vec2) (dom vec1)).
  apply py_sum_ext. intros i _. lia.
Qed.

Lemma sq_norm_empty : sq_norm ∅ = 0.
Proof. unfold sq_norm. by rewrite map_fold_empty. Qed.

Lemma float_zero_mul (y : float) :
  finite_nonneg (Prim2SF y) -> (0 * y =? 0)%float = true /\ (y * 0 =? 0)%float = true.
Proof.
  intros Hy. rewrite !FloatAxioms.eqb_spec, !mul_spec.
  change (Prim2SF 0) with (S754_zero false).
  destruct (Prim2SF y) as [[]|[]| |[] ? ?]; done.
Qed.

Lemma cosine_formula_comm (vec1 vec2 : gmap string Z) :
  cosine_formula vec1 vec2 = cosine_formula vec2 vec1.
Proof.
  unfold cosine_formula.
  destruct (math_sqrt_nonneg (sq_norm vec1) (sq_norm_nonneg vec1))
    as [[_ H1]|(x1 & _ & H1 & _)];
  destruct (math_sqrt_nonneg (sq_norm vec2) (sq_norm_nonneg vec2))
    as [[_ H2]|(x2 & _ & H2 & _)];
  rewrite H1, H2, ?bind_Ok, ?bind_Raise; try done.
  cbv zeta. by rewrite (float_mul_comm (sqrt x2)), dot_comm.
Qed.

(** C5. [cosine_similar] is the quotient of the sum, over the shared keys,
    of the products of the counts by the product of the square roots of the
    two sums of squared counts, all in binary64 and raising where the
    conversions raise; it is [0.0] when that denominator is zero, as it is
    when one of the vectors is empty. *)
Theorem cosine_similar_formula (vec1 vec2 : gmap string Z) :
  cosine_similar vec1 vec2 = cosine_formula vec1 vec2 /\
  (forall s1 s2,
     math_sqrt (sq_norm vec1) = Ok s1 -> math_sqrt (sq_norm vec2) = Ok s2 ->
     (s1 * s2 =? 0)%float = true ->
     cosine_similar vec1 vec2 = Ok 0%float) /\
  (vec1 = ∅ \/ vec2 = ∅ ->
   cosine_similar vec1 vec2 = Ok 0%float \/
   cosine_similar vec1 vec2 = Raise OverflowError).
Proof.
  split; [apply cosine_similar_eq_formula|]. split.
  - intros s1 s2 H1 H2 Hz. rewrite cosine_similar_eq_formula.
    unfold cosine_formula. rewrite H1, H2, !bind_Ok. cbv zeta. by rewrite Hz.
  - assert (Hempty : forall v, cosine_formula ∅ v = Ok 0%float \/
                               cosine_formula ∅ v = Raise OverflowError).
    { intros v. unfold cosine_formula. rewrite sq_norm_empty.
      change (math_sqrt 0) with (Ok (sqrt 0)). rewrite bind_Ok.
      destruct (math_sqrt_nonneg (sq_norm v) (sq_norm_nonneg v))
        as [[_ H2]|(x2 & _ & H2 & _ & Hfin)]; rewrite H2.
      - by right.
      - left. rewrite bind_Ok. cbv zeta.
        change (sqrt 0) with 0%float.
        by destruct (float_zero_mul (sqrt x2) Hfin) as [-> _]. }
    rewrite cosine_similar_eq_formula.
    intros [->| ->]; [|rewrite cosine_formula_comm]; apply Hempty.
Qed.

Lemma cosine_similar_formula_witness :
  cosine_similar ∅ (text_to_ngrams_vector "ab" 2) = Ok 0%float \/
  cosine_similar ∅ (text_to_ngrams_vector "ab" 2) = Raise OverflowError.
Proof.
  apply (cosine_similar_formula ∅ (text_to_ngrams_vector "ab" 2)).
  left. reflexivity.
Defined.

(** ** Jaccard index *)

Lemma size_intersection_common (X Y : gset string) :
  size (X ∩ Y) = common_keys X Y.
Proof.
  unfold common_keys, size, set_size. simpl. apply Permutation_length.
  apply NoDup_Permutation.
  - apply NoDup_elements.
  - apply NoDup_ListNoDup, List.NoDup_filter, NoDup_ListNoDup, NoDup_elements.
  - intros k. rewrite elem_of_elements, list_elem_of_In, filter_In.
    rewrite <- list_elem_of_In, elem_of_elements, bool_decide_eq_true. set_solver.
Qed.

Lemma size_union_inclusion_exclusion (X Y : gset string) :
  Z.of_nat (size (X ∪ Y))
  = Z.of_nat (size X) + Z.of_nat (size Y) - Z.of_nat (size (X ∩ Y)).
Proof.
  rewrite size_union_alt, size_difference_alt.
  assert (size (Y ∩ X) <= size Y)%nat by (apply subseteq_size; set_solver).
  rewrite (comm_L (∩) X Y). lia.
Qed.

Lemma jaccard_index_of_keys (vec1 vec2 : gmap string Z) :
  jaccard_index vec1 vec2 = jaccard_of_keys (dom vec1) (dom vec2).
Proof.
  unfold jaccard_index, jaccard_of_keys. cbv zeta.
  by rewrite size_union_inclusion_exclusion, size_intersection_common.
Qed.

(** C6. [jaccard_index] is the number of common keys divided by the number
    of keys of the union (in binary64); it reads only which keys are
    present, never the counts; it is [0.0] when both vectors are empty. *)
Theorem jaccard_index_formula (vec1 vec2 : gmap string Z) :
  jaccard_index vec1 vec2 = jaccard_of_keys (dom vec1) (dom vec2) /\
  (forall vec1' vec2' : gmap string Z,
     dom vec1' = dom vec1 -> dom vec2' = dom vec2 ->
     jaccard_index vec1' vec2' = jaccard_index vec1 vec2) /\
  (vec1 = ∅ -> vec2 = ∅ -> jaccard_index vec1 vec2 = Ok 0%float).
Proof.
  split; [apply jaccard_index_of_keys|]. split.
  - intros vec1' vec2' H1 H2. by rewrite !jaccard_index_of_keys, H1, H2.
  - intros -> ->. reflexivity.
Qed.

Lemma jaccard_index_formula_witness :
  jaccard_index (<["ab"%string := 7]> ∅) (<["ab"%string := 1]> ∅)
  = jaccard_index (text_to_ngrams_vector "ab" 2) (text_to_ngrams_vector "ab" 2).
Proof.
  apply (jaccard_index_formula (text_to_ngrams_vector "ab" 2)
           (text_to_ngrams_vector "ab" 2)); reflexivity.
Defined.

(** ** Symmetry *)

(** C8. Both metrics are symmetric in their two arguments, results and
    exceptions alike; in particular on the vectors of any two strings. *)
Theorem metrics_symmetric (a b : gmap string Z) :
  jaccard_index a b = jaccard_index b a /\
  cosine_similar a b = cosine_similar b a.
Proof.
  split.
  - assert (Hi : (dom a ∩ dom b : gset string) = dom b ∩ dom a) by set_solver.
    assert (Hu : (dom a ∪ dom b : gset string) = dom b ∪ dom a) by set_solver.
    unfold jaccard_index. cbv zeta. by rewrite Hi, Hu.
  - rewrite !cosine_similar_eq_formula. apply cosine_formula_comm.
Qed.

(** ** A vector against itself *)

Lemma float_of_int_pos_shape (b : Z) (y : float) :
  0 < b -> float_of_int b = Ok y ->
  exists my ey, Prim2SF y = S754_finite false my ey.
Proof.
  intros Hb Hy. by destruct (float_of_int_mono b b y y ltac:(lia) Hy Hy) as (? & _).
Qed.

Lemma finite_pos_not_zero (f : float) :
  (exists m e, Prim2SF f = S754_finite false m e) -> (f =? 0)%float = false.
Proof.
  intros (m & e & Hf). rewrite FloatAxioms.eqb_spec, Hf. reflexivity.
Qed.


Lemma jaccard_index_self (vec : gmap string Z) :
  vec <> ∅ -> Z.of_nat (size vec) < 2 ^ 1023 ->
  jaccard_index vec vec = Ok 1%float.
Proof.
  assert (Hi : (dom vec ∩ dom vec : gset string) = dom vec) by set_solver.
  assert (Hu : (dom vec ∪ dom vec : gset string) = dom vec) by set_solver.
  intros Hne Hsize. unfold jaccard_index. cbv zeta.
  rewrite Hi, Hu, size_dom.
  assert (Hpos : 0 < Z.of_nat (size vec)).
  { destruct (size vec) eqn:E; [|lia]. by apply map_size_empty_inv in E. }
  destruct (Z.eqb_spec (Z.of_nat (size vec)) 0); [lia|].
  destruct (float_of_int_in_range (Z.of_nat (size vec)) (conj Hpos Hsize))
    as (f & -> & Hf).
  rewrite !bind_Ok. f_equal. eapply float_div_self; eauto.
Qed.



(** How far from [1.0] this score can be is settled with the rounding
    errors of the cosine score, at the end of the development. *)

(** ** Range of the scores *)

Lemma getitem_nonneg (vec : gmap string Z) (k : string) :
  nonneg_counts vec -> 0 <= getitem vec k.
Proof.
  intros H. unfold getitem. destruct (vec !! k) as [x|] eqn:E; simpl; [|lia].
  by apply (H k).
Qed.

Lemma dot_nonneg (vec1 vec2 : gmap string Z) :
  nonneg_counts vec1 -> nonneg_counts vec2 -> 0 <= dot vec1 vec2.
Proof.
  intros H1 H2. rewrite <- sum_products. apply py_sum_nonneg. intros y Hy.
  apply list_elem_of_fmap_1 in Hy as (i & -> & _).
  apply Z.mul_nonneg_nonneg; by apply getitem_nonneg.
Qed.

Lemma float_zero_range : (0 <=? 0)%float = true /\ (0 <=? 1)%float = true.
Proof. split; reflexivity. Qed.

Lemma jaccard_index_range (vec1 vec2 : gmap string Z) (r : float) :
  jaccard_index vec1 vec2 = Ok r ->
  (0 <=? r)%float = true /\ (r <=? 1)%float = true.
Proof.
  unfold jaccard_index. cbv zeta.
  assert (Hle : (size (dom vec1 ∩ dom vec2 : gset string)
                 <= size (dom vec1 ∪ dom vec2 : gset string))%nat)
    by (apply subseteq_size; set_solver).
  set (a := Z.of_nat (size (dom vec1 ∩ dom vec2))) in *.
  set (b := Z.of_nat (size (dom vec1 ∪ dom vec2))) in *.
  destruct (Z.eqb_spec b 0) as [Hb|Hb].
  - intros [= <-]. apply float_zero_range.
  - destruct (float_of_int a) as [x|] eqn:Hx; [|done].
    destruct (float_of_int b) as [y|] eqn:Hy; [|done].
    rewrite !bind_Ok. intros [= <-].
    assert (Hb0 : 0 < b) by lia.
    pose proof (float_of_int_pos_shape b y Hb0 Hy) as Hys.
    destruct (Z.eq_dec a 0) as [Ha|Ha].
    + rewrite Ha, float_of_int_0 in Hx. injection Hx as <-.
      rewrite float_zero_div by done. apply float_zero_range.
    + destruct (float_of_int_mono a b x y ltac:(lia) Hx Hy) as (Hxs & _ & Hxy).
      split; [|by apply float_div_le_one].
      apply signed_false_leb, float_div_signed.
      * destruct Hxs as (? & ? & ->). done.
      * destruct Hys as (? & ? & ->). done.
      * by apply finite_pos_not_zero.
Qed.

Lemma cosine_similar_nonneg (vec1 vec2 : gmap string Z) (r : float) :
  nonneg_counts vec1 -> nonneg_counts vec2 ->
  cosine_similar vec1 vec2 = Ok r -> (0 <=? r)%float = true.
Proof.
  intros H1 H2. rewrite cosine_similar_eq_formula. unfold cosine_formula.
  destruct (math_sqrt_nonneg (sq_norm vec1) (sq_norm_nonneg vec1))
    as [[_ E1]|(x1 & _ & E1 & _ & F1)]; rewrite E1; [done|].
  destruct (math_sqrt_nonneg (sq_norm vec2) (sq_norm_nonneg vec2))
    as [[_ E2]|(x2 & _ & E2 & _ & F2)]; rewrite E2; [done|].
  rewrite !bind_Ok. cbv zeta.
  destruct (sqrt x1 * sqrt x2 =? 0)%float eqn:Hz.
  - intros [= <-]. reflexivity.
  - destruct (float_of_int (dot vec1 vec2)) as [n|] eqn:Hn; [|done].
    rewrite bind_Ok. intros [= <-].
    apply signed_false_leb, float_div_signed; [|by apply float_mul_signed|done].
    eapply float_of_int_nonneg; [|exact Hn]. by apply dot_nonneg.
Qed.

(** C7, as stated, fails on the vector of ["abcd"] (counts all [1]): its
    cosine similarity with itself is [1.0000000000000002], above [1.0]. *)
Lemma cosine_similar_above_one :
  exists r : float,
    nonneg_counts (text_to_ngrams_vector "abcd" 2) /\
    cosine_similar (text_to_ngrams_vector "abcd" 2)
                   (text_to_ngrams_vector "abcd" 2) = Ok r /\
    (r <=? 1)%float = false.
Proof.
  eexists. split; [|split].
  - intros k x Hx. apply Counter_positive in Hx. lia.
  - vm_compute. reflexivity.
  - vm_compute. reflexivity.
Qed.

(** How far above [1.0] the score can be is settled with the rounding
    errors of the cosine score, at the end of the development. *)

(** * Further properties of the vectorizer *)

Lemma Counter_fold_lookup (l : list string) (m : gmap string Z) (k : string) :
  foldl (fun m k => <[k := default 0 (m !! k) + 1]> m) m l !! k
  = if decide (occurrences k l = 0) then m !! k
    else Some (default 0 (m !! k) + occurrences k l).
Proof.
  unfold occurrences. revert m. induction l as [|x l IH]; intros m; [done|].
  simpl foldl. rewrite IH. rewrite filter_cons.
  destruct (decide (x = k)) as [->|Hne].
  - rewrite lookup_insert_eq. simpl length. simpl default.
    destruct (decide (Z.of_nat (length (filter (fun x => x = k) l)) = 0)) as [E|E];
      (destruct (decide (Z.of_nat (S (length (filter (fun x => x = k) l))) = 0));
       [lia|f_equal; lia]).
  - by rewrite lookup_insert_ne.
Qed.

Lemma Counter_lookup (l : list string) (k : string) :
  Counter l !! k
  = if decide (occurrences k l = 0) then None else Some (occurrences k l).
Proof.
  unfold Counter. rewrite Counter_fold_lookup, lookup_empty. simpl.
  destruct (decide _); [done|f_equal; lia].
Qed.

Lemma occurrences_map_filter (key : string) (f : Z -> string) (P : Z -> bool)
    (l : list Z) :
  (forall i, f i = key -> P i = true) ->
  occurrences key (map f (List.filter P l))
  = Z.of_nat (length (filter (fun i => f i = key) l)).
Proof.
  intros HP. unfold occurrences. f_equal.
  induction l as [|i l IH]; [done|]. simpl List.filter. rewrite filter_cons.
  destruct (decide (f i = key)) as [E|E].
  - rewrite (HP i E). simpl map. rewrite filter_cons.
    destruct (decide (f i = key)); [|done]. simpl. by rewrite IH.
  - destruct (P i); [|exact IH]. simpl map. rewrite filter_cons.
    destruct (decide (f i = key)); [done|exact IH].
Qed.

(** X2. The count stored for a key without a space is the number of
    offsets at which the window of width [n] is that key; a key that occurs
    nowhere is absent. *)
Theorem text_to_ngrams_vector_counts (text : string) (n : Z) (key : string) :
  contains_space key = false ->
  text_to_ngrams_vector text n !! key
  = if decide (window_positions text n key = []) then None
    else Some (Z.of_nat (length (window_positions text n key))).
Proof.
  intros Hkey. unfold text_to_ngrams_vector, ngrams, window_positions.
  rewrite Counter_lookup.
  rewrite (occurrences_map_filter key (fun i => py_slice text i (i + n))).
  - set (w := filter _ _). destruct w as [|i w]; [done|].
    repeat case_decide; simpl in *; try done; lia.
  - intros i <-. by rewrite Hkey.
Qed.

Lemma text_to_ngrams_vector_counts_witness :
  contains_space "an" = false /\
  text_to_ngrams_vector "banana" 2 !! "an"%string
  = if decide (window_positions "banana" 2 "an" = []) then None
    else Some (Z.of_nat (length (window_positions "banana" 2 "an"))).
Proof.
  split; [reflexivity|].
  apply (text_to_ngrams_vector_counts "banana" 2 "an"). reflexivity.
Defined.

Lemma py_range_nonpos (stop : Z) : stop <= 0 -> py_range stop = [].
Proof. intros H. unfold py_range. by replace (Z.to_nat stop) with 0%nat by lia. Qed.

Lemma length_py_range (stop : Z) : Z.of_nat (length (py_range stop)) = Z.max stop 0.
Proof. unfold py_range. rewrite length_map, length_seq. lia. Qed.

(** X1. A text shorter than [n] has no window: its vector is empty. *)
Theorem text_to_ngrams_vector_short (text : string) (n : Z) :
  Z.of_nat (String.length text) < n ->
  text_to_ngrams_vector text n = ∅.
Proof.
  intros H. unfold text_to_ngrams_vector, ngrams.
  rewrite py_range_nonpos by lia. reflexivity.
Qed.

Lemma text_to_ngrams_vector_short_witness :
  Z.of_nat (String.length "a") < 2 /\ text_to_ngrams_vector "a" 2 = ∅.
Proof.
  split; [simpl; lia|]. apply (text_to_ngrams_vector_short "a" 2). simpl. lia.
Defined.

Lemma total_count_insert (vec : gmap string Z) (k : string) (x : Z) :
  vec !! k = None -> total_count (<[k := x]> vec) = x + total_count vec.
Proof.
  intros Hk. unfold total_count. rewrite map_fold_insert_L; [lia| |done].
  intros. lia.
Qed.

Lemma total_count_bump (vec : gmap string Z) (k : string) :
  total_count (<[k := default 0 (vec !! k) + 1]> vec) = total_count vec + 1.
Proof.
  destruct (vec !! k) as [x|] eqn:Hk; simpl.
  - rewrite <- (insert_delete_eq vec).
    rewrite total_count_insert by apply lookup_delete_eq.
    rewrite <- (insert_id vec k x Hk) at 2.
    rewrite <- (insert_delete_eq vec k x).
    rewrite total_count_insert by apply lookup_delete_eq. lia.
  - rewrite total_count_insert by done. lia.
Qed.

Lemma total_count_Counter_fold (l : list string) (m : gmap string Z) :
  total_count (foldl (fun m k => <[k := default 0 (m !! k) + 1]> m) m l)
  = total_count m + Z.of_nat (length l).
Proof.
  revert m. induction l as [|x l IH]; intros m; simpl foldl.
  - simpl. lia.
  - rewrite IH, total_count_bump. simpl length. lia.
Qed.

Lemma total_count_Counter (l : list string) :
  total_count (Counter l) = Z.of_nat (length l).
Proof.
  unfold Counter. rewrite total_count_Counter_fold.
  unfold total_count. rewrite map_fold_empty. lia.
Qed.

Lemma length_ngrams (text : string) (n : Z) :
  Z.of_nat (length (ngrams text n))
  <= Z.max (Z.of_nat (String.length text) - n + 1) 0.
Proof.
  unfold ngrams. rewrite length_map, <- length_py_range.
  apply inj_le, List.filter_length_le.
Qed.

Lemma contains_space_substring (text : string) (i n : nat) :
  contains_space text = false ->
  contains_space (String.substring i n text) = false.
Proof.
  revert i n. induction text as [|c text IH]; intros i n; simpl.
  - by destruct i, n.
  - intros [Hc Ht]%orb_false_iff. destruct i as [|i], n as [|n]; simpl; try done.
    + rewrite Hc. by apply (IH 0%nat n).
    + by apply IH.
    + by apply IH.
Qed.

(** X3. The counts of a vector add up to the number of windows kept, which
    is at most [len(text) - n + 1]; for [n >= 1] and a text without a space
    every window is kept and the counts add up to exactly that number. *)
Theorem text_to_ngrams_vector_total (text : string) (n : Z) :
  total_count (text_to_ngrams_vector text n)
  <= Z.max (Z.of_nat (String.length text) - n + 1) 0 /\
  (1 <= n -> contains_space text = false ->
   total_count (text_to_ngrams_vector text n)
   = Z.max (Z.of_nat (String.length text) - n + 1) 0).
Proof.
  unfold text_to_ngrams_vector. rewrite total_count_Counter. split.
  - apply length_ngrams.
  - intros Hn Hsp. unfold ngrams. rewrite length_map, <- length_py_range.
    f_equal. f_equal. apply forallb_filter_id, forallb_forall.
    intros i Hi%list_elem_of_In%elem_of_py_range.
    rewrite py_slice_window by lia. by rewrite contains_space_substring.
Qed.

Lemma text_to_ngrams_vector_total_witness :
  1 <= 2 /\ contains_space "banana" = false /\
  total_count (text_to_ngrams_vector "banana" 2)
  = Z.max (Z.of_nat (String.length "banana") - 2 + 1) 0.
Proof.
  split; [lia|]. split; [reflexivity|].
  apply (text_to_ngrams_vector_total "banana" 2); [lia|reflexivity].
Defined.

Lemma substring_0 (s : string) (i : nat) : String.substring i 0 s = ""%string.
Proof. revert i. induction s as [|c s IH]; intros [|i]; simpl; done. Qed.

Lemma py_slice_empty (text : string) (i : Z) : py_slice text i i = ""%string.
Proof. unfold py_slice. rewrite Z.sub_diag. apply substring_0. Qed.

Lemma occurrences_all (k : string) (l : list string) :
  (forall x, x ∈ l -> x = k) -> occurrences k l = Z.of_nat (length l).
Proof.
  intros H. unfold occurrences. f_equal. induction l as [|x l IH]; [done|].
  rewrite filter_cons. rewrite (H x) by left.
  destruct (decide (k = k)); [|done]. simpl. rewrite IH; [done|].
  intros y Hy. apply H. by right.
Qed.

Lemma occurrences_none (k : string) (l : list string) :
  k ∉ l -> occurrences k l = 0.
Proof.
  intros H. unfold occurrences. induction l as [|x l IH]; [done|].
  rewrite filter_cons. destruct (decide (x = k)) as [->|_].
  - exfalso. apply H. left.
  - apply IH. intros Hk. apply H. by right.
Qed.

(** X4. A width of zero is accepted without an error: the only key is the
    empty string, counted once per offset [0 .. len(text)]. *)
Theorem text_to_ngrams_vector_zero_width (text : string) :
  text_to_ngrams_vector text 0
  = {[ ""%string := Z.of_nat (String.length text) + 1 ]}.
Proof.
  unfold text_to_ngrams_vector, ngrams.
  set (r := py_range (Z.of_nat (String.length text) - 0 + 1)).
  assert (Hlen : Z.of_nat (length r) = Z.of_nat (String.length text) + 1)
    by (subst r; rewrite length_py_range; lia).
  assert (Hl : List.filter (fun i => negb (contains_space (py_slice text i (i + 0)))) r = r).
  { apply forallb_filter_id, forallb_forall. intros i _.
    by rewrite Z.add_0_r, py_slice_empty. }
  rewrite Hl. apply map_eq. intros k. rewrite Counter_lookup.
  destruct (decide (k = ""%string)) as [->|Hne].
  - rewrite lookup_singleton_eq, occurrences_all.
    + rewrite length_map, Hlen. case_decide; [lia|done].
    + intros x (i & -> & _)%list_elem_of_fmap_1.
      by rewrite Z.add_0_r, py_slice_empty.
  - rewrite lookup_singleton_ne by done. rewrite occurrences_none.
    + by case_decide.
    + intros (i & -> & _)%list_elem_of_fmap_1.
      by rewrite Z.add_0_r, py_slice_empty in Hne.
Qed.

(** * Further properties of the matcher and the selector *)

(** X5. The candidates yielded by the matcher, in the order they are
    yielded, form a sub-sequence of [choices]: nothing is invented,
    reordered or repeated beyond the input. *)
Theorem select_best_list_sublist (query : string) (choices : list string)
    (score_cutoff : float) :
  (yielded (select_best_list query choices score_cutoff)).*1 `sublist_of` choices.
Proof.
  unfold select_best_list. induction choices as [|choice rest IH]; simpl; [done|].
  destruct (String.eqb query choice); [by apply sublist_cons|].
  destruct (cosine_similar _ _) as [s|e]; [|apply sublist_nil_l].
  destruct (score_cutoff <=? s)%float; simpl.
  - by apply sublist_skip.
  - by apply sublist_cons.
Qed.

Lemma max_loop_elem {A : Type} (key : A -> float) (g : gen A) (m r : A) (v : float) :
  max_loop key m v g = Ok r -> r = m \/ r ∈ yielded g.
Proof.
  revert m v. induction g as [|item rest IH|e]; intros m v; simpl.
  - intros [= ->]. by left.
  - destruct (v <? key item)%float; intros H; apply IH in H as [->|H];
      try (by left); right; by constructor.
  - done.
Qed.

Lemma py_max_elem {A : Type} (key : A -> float) (g : gen A) (r : A) :
  py_max key g = Ok r -> r ∈ yielded g.
Proof.
  destruct g as [|item rest|e]; simpl; [done| |done].
  intros [->|H]%max_loop_elem; by constructor.
Qed.

(** X6. A pair returned by [select_best_one] is either the sentinel
    [("", 0.0)] or one of the candidates: a member of [choices], different
    from the query, paired with its own score, which reaches the cutoff. *)
Theorem select_best_one_member (query : string) (choices : list string)
    (score_cutoff : float) (candidate : string) (s : float) :
  select_best_one query choices score_cutoff = Ok (candidate, s) ->
  (candidate, s) = (""%string, 0%float) \/
  (candidate ∈ choices /\ candidate <> query /\
   score query candidate = Ok s /\ (score_cutoff <=? s)%float = true).
Proof.
  unfold select_best_one.
  destruct (py_max snd (select_best_list query choices score_cutoff))
    as [r|[]] eqn:Hmax.
  - intros [= ->]. right. apply py_max_elem in Hmax.
    by apply select_best_loop_yielded in Hmax.
  - intros [= <- <-]. by left.
  - done.
Qed.

Lemma select_best_one_member_witness :
  select_best_one "kitten" ["sitting"; "bitten"; "mitten"]%string 0.5%float
  = Ok ("bitten"%string, 0.79999999999999982%float) /\
  (("bitten"%string, 0.79999999999999982%float) = (""%string, 0%float) \/
   ("bitten"%string ∈ ["sitting"; "bitten"; "mitten"]%string /\
    "bitten"%string <> "kitten"%string /\
    score "kitten" "bitten" = Ok 0.79999999999999982%float /\
    (0.5 <=? 0.79999999999999982)%float = true)).
Proof.
  assert (H : select_best_one "kitten" ["sitting"; "bitten"; "mitten"]%string 0.5%float
              = Ok ("bitten"%string, 0.79999999999999982%float))
    by (vm_compute; reflexivity).
  split; [exact H|].
  exact (select_best_one_member "kitten" ["sitting"; "bitten"; "mitten"]%string
           0.5%float "bitten" 0.79999999999999982%float H).
Defined.

Lemma cosine_similar_not_ValueError (vec1 vec2 : gmap string Z) :
  cosine_similar vec1 vec2 <> Raise ValueError.
Proof.
  rewrite cosine_similar_eq_formula. unfold cosine_formula.
  destruct (math_sqrt_nonneg (sq_norm vec1) (sq_norm_nonneg vec1))
    as [[_ E1]|(x1 & _ & E1 & _)]; rewrite E1; [done|].
  destruct (math_sqrt_nonneg (sq_norm vec2) (sq_norm_nonneg vec2))
    as [[_ E2]|(x2 & _ & E2 & _)]; rewrite E2; [done|].
  rewrite !bind_Ok. cbv zeta. destruct (_ =? _)%float; [done|].
  destruct (float_of_int (dot vec1 vec2)) as [n|e] eqn:Hn; [done|].
  apply float_of_int_raise in Hn as ->. done.
Qed.

(** X7. [math.sqrt] is only ever applied to a sum of squares, so neither
    metric raises a [ValueError], whatever the counts (negative ones
    included), and the matcher never throws one: the [except ValueError] of
    [select_best_one] only ever handles the empty sequence given to
    [max]. *)
Theorem no_ValueError (vec1 vec2 : gmap string Z) (query : string)
    (choices : list string) (score_cutoff : float) :
  cosine_similar vec1 vec2 <> Raise ValueError /\
  jaccard_index vec1 vec2 <> Raise ValueError /\
  raised (select_best_list query choices score_cutoff) <> Some ValueError.
Proof.
  split; [apply cosine_similar_not_ValueError|]. split.
  - unfold jaccard_index. cbv zeta.
    set (a := Z.of_nat (size (dom vec1 ∩ dom vec2))).
    set (b := Z.of_nat (size (dom vec1 ∪ dom vec2))).
    destruct (b =? 0); [done|].
    destruct (float_of_int a) as [n|e] eqn:Hn.
    + rewrite bind_Ok. destruct (float_of_int b) as [d|e] eqn:Hd; [done|].
      apply float_of_int_raise in Hd as ->. done.
    + apply float_of_int_raise in Hn as ->. done.
  - unfold select_best_list. induction choices as [|choice rest IH]; simpl; [done|].
    destruct (String.eqb query choice); [done|].
    destruct (cosine_similar _ _) as [s|e] eqn:Hs.
    + by destruct (score_cutoff <=? s)%float.
    + simpl. intros [= ->]. by apply cosine_similar_not_ValueError in Hs.
Qed.

(** X8. Matching against a concatenation of candidate lists is matching
    against the first list and then, if that did not throw, against the
    second; and a candidate equal to the query can be dropped from
    [choices] without changing the trace. *)
Theorem select_best_list_app (query : string) (choices1 choices2 : list string)
    (score_cutoff : float) :
  select_best_list query (choices1 ++ choices2) score_cutoff
  = gen_app (select_best_list query choices1 score_cutoff)
            (select_best_list query choices2 score_cutoff) /\
  select_best_list query (choices1 ++ query :: choices2) score_cutoff
  = select_best_list query (choices1 ++ choices2) score_cutoff.
Proof.
  unfold select_best_list. split.
  - induction choices1 as [|choice rest IH]; simpl; [done|].
    destruct (String.eqb query choice); [done|].
    destruct (cosine_similar _ _) as [s|e]; [|done].
    destruct (score_cutoff <=? s)%float; simpl; by rewrite ?IH.
  - induction choices1 as [|choice rest IH]; simpl.
    + by rewrite String.eqb_refl.
    + destruct (String.eqb query choice); [done|].
      destruct (cosine_similar _ _) as [s|e]; [|done].
      destruct (score_cutoff <=? s)%float; by rewrite ?IH.
Qed.

(** X9. Lowering the cutoff never loses a pair: whatever is yielded at a
    cutoff is also yielded at any lower one. *)
Theorem select_best_list_cutoff_mono (query : string) (choices : list string)
    (cutoff1 cutoff2 : float) (p : string * float) :
  (cutoff1 <=? cutoff2)%float = true ->
  p ∈ yielded (select_best_list query choices cutoff2) ->
  p ∈ yielded (select_best_list query choices cutoff1).
Proof.
  intros Hle. unfold select_best_list.
  induction choices as [|choice rest IH]; simpl; [done|].
  destruct (String.eqb query choice); [done|].
  destruct (cosine_similar _ _) as [s|e]; [|done].
  destruct (cutoff2 <=? s)%float eqn:H2.
  - rewrite (float_leb_trans _ _ _ Hle H2). simpl.
    intros [->|Hp]%elem_of_cons; [left|right; by apply IH].
  - intros Hp%IH. destruct (cutoff1 <=? s)%float; [by right|done].
Qed.

Lemma select_best_list_cutoff_mono_witness :
  (0.5 <=? 0.75)%float = true /\
  ("mitten"%string, 0.79999999999999982%float)
    ∈ yielded (select_best_list "kitten" ["sitting"; "mitten"]%string 0.75%float) /\
  ("mitten"%string, 0.79999999999999982%float)
    ∈ yielded (select_best_list "kitten" ["sitting"; "mitten"]%string 0.5%float).
Proof.
  assert (H1 : (0.5 <=? 0.75)%float = true) by reflexivity.
  assert (H2 : ("mitten"%string, 0.79999999999999982%float)
    ∈ yielded (select_best_list "kitten" ["sitting"; "mitten"]%string 0.75%float)).
  { vm_compute. left. }
  split; [exact H1|]. split; [exact H2|].
  exact (select_best_list_cutoff_mono "kitten" ["sitting"; "mitten"]%string
           0.5%float 0.75%float _ H1 H2).
Defined.

(** X10. With a NaN cutoff no comparison succeeds: the matcher yields
    nothing, whatever the candidates. *)
Theorem select_best_list_nan_cutoff (query : string) (choices : list string) :
  yielded (select_best_list query choices nan) = [].
Proof.
  destruct (yielded (select_best_list query choices nan)) as [|p l] eqn:E; [done|].
  assert (Hp : p ∈ yielded (select_best_list query choices nan))
    by (rewrite E; left).
  apply select_best_loop_yielded in Hp as (_ & _ & _ & Hp).
  apply float_leb_number in Hp as [Hnan _]. by destruct Hnan.
Qed.

(** * Further properties of the metrics *)

Lemma float_zero_div_signed (d : float) :
  signed false (Prim2SF d) -> (d =? 0)%float = false -> (0 / d)%float = 0%float.
Proof.
  intros Hd Hz. apply Prim2SF_inj. revert Hd Hz.
  rewrite FloatAxioms.eqb_spec, div_spec. change (Prim2SF 0) with (S754_zero false).
  destruct (Prim2SF d) as [[]|[]| |[] ? ?]; done.
Qed.

Lemma dot_disjoint (vec1 vec2 : gmap string Z) :
  dom vec1 ## dom vec2 -> dot vec1 vec2 = 0.
Proof.
  intros H. rewrite <- sum_products.
  replace (dom vec1 ∩ dom vec2) with (∅ : gset string) by set_solver.
  by rewrite elements_empty.
Qed.

(** X11. Two vectors without a common key score [0.0] under both metrics
    (two strings that share no 2-gram are as dissimilar as can be). *)
Theorem metrics_disjoint (vec1 vec2 : gmap string Z) (r : float) :
  dom vec1 ## dom vec2 ->
  (jaccard_index vec1 vec2 = Ok r -> r = 0%float) /\
  (cosine_similar vec1 vec2 = Ok r -> r = 0%float).
Proof.
  intros Hdisj.
  assert (Hi : (dom vec1 ∩ dom vec2 : gset string) = ∅) by (clear r; set_solver).
  split.
  - unfold jaccard_index. cbv zeta.
    rewrite Hi, size_empty. change (Z.of_nat 0) with 0.
    set (b := Z.of_nat (size (dom vec1 ∪ dom vec2))).
    destruct (Z.eqb_spec b 0) as [Hb|Hb]; [congruence|].
    rewrite float_of_int_0, bind_Ok.
    destruct (float_of_int b) as [y|] eqn:Hy; [|done].
    rewrite bind_Ok. intros [= <-].
    apply float_zero_div, (float_of_int_pos_shape b); [lia|done].
  - rewrite cosine_similar_eq_formula. unfold cosine_formula.
    destruct (math_sqrt_nonneg (sq_norm vec1) (sq_norm_nonneg vec1))
      as [[_ E1]|(x1 & _ & E1 & _ & F1)]; rewrite E1; [done|].
    destruct (math_sqrt_nonneg (sq_norm vec2) (sq_norm_nonneg vec2))
      as [[_ E2]|(x2 & _ & E2 & _ & F2)]; rewrite E2; [done|].
    rewrite !bind_Ok. cbv zeta.
    destruct (sqrt x1 * sqrt x2 =? 0)%float eqn:Hz; [congruence|].
    rewrite dot_disjoint, float_of_int_0, bind_Ok by done. intros [= <-].
    apply float_zero_div_signed; [by apply float_mul_signed|done].
Qed.

Lemma metrics_disjoint_witness :
  dom (text_to_ngrams_vector "abc" 2) ## dom (text_to_ngrams_vector "xyz" 2) /\
  (forall r : float,
     cosine_similar (text_to_ngrams_vector "abc" 2) (text_to_ngrams_vector "xyz" 2)
     = Ok r -> r = 0%float).
Proof.
  assert (H : dom (text_to_ngrams_vector "abc" 2) ## dom (text_to_ngrams_vector "xyz" 2)).
  { apply elem_of_disjoint. intros k H1 H2.
    apply elem_of_dom_Counter in H1. apply elem_of_dom_Counter in H2.
    vm_compute in H1, H2.
    repeat (apply elem_of_cons in H1 as [->|H1]; [by repeat (apply elem_of_cons in H2 as [?|H2]; [done|]); apply elem_of_nil in H2|]).
    by apply elem_of_nil in H1. }
  split; [exact H|]. intros r.
  exact (proj2 (metrics_disjoint (text_to_ngrams_vector "abc" 2)
                  (text_to_ngrams_vector "xyz" 2) r H)).
Defined.

(** X12. For vectors whose keys number fewer than [2 ^ 1023] in all (every
    vector a machine can hold), [jaccard_index] raises nothing and returns
    a float between [0.0] and [1.0]. *)
Theorem jaccard_index_returns (vec1 vec2 : gmap string Z) :
  Z.of_nat (size (dom vec1 ∪ dom vec2 : gset string)) < 2 ^ 1023 ->
  exists r : float,
    jaccard_index vec1 vec2 = Ok r /\
    (0 <=? r)%float = true /\ (r <=? 1)%float = true.
Proof.
  intros Hsize.
  assert (Hle : (size (dom vec1 ∩ dom vec2 : gset string)
                 <= size (dom vec1 ∪ dom vec2 : gset string))%nat)
    by (clear Hsize; apply subseteq_size; set_solver).
  assert (Hret : exists r, jaccard_index vec1 vec2 = Ok r).
  { unfold jaccard_index. cbv zeta.
    set (a := Z.of_nat (size (dom vec1 ∩ dom vec2))) in *.
    set (b := Z.of_nat (size (dom vec1 ∪ dom vec2))) in *.
    destruct (Z.eqb_spec b 0) as [Hb|Hb]; [eauto|].
    assert (Hb0 : 0 < b) by lia.
    destruct (float_of_int_in_range b (conj Hb0 Hsize)) as (y & Hy & _).
    destruct (Z.eq_dec a 0) as [->|Ha].
    - rewrite float_of_int_0, Hy, !bind_Ok. eauto.
    - assert (Ha0 : 0 < a) by lia.
      assert (Halt : a < 2 ^ 1023) by (eapply Z.le_lt_trans; [|exact Hsize]; lia).
      destruct (float_of_int_in_range a (conj Ha0 Halt)) as (x & Hx & _).
      rewrite Hx, Hy, !bind_Ok. eauto. }
  destruct Hret as [r Hr]. exists r. split; [done|].
  by apply (jaccard_index_range vec1 vec2).
Qed.

Lemma jaccard_index_returns_witness :
  exists r : float,
    jaccard_index (text_to_ngrams_vector "kitten" 2)
                  (text_to_ngrams_vector "mitten" 2) = Ok r /\
    (0 <=? r)%float = true /\ (r <=? 1)%float = true.
Proof.
  apply (jaccard_index_returns (text_to_ngrams_vector "kitten" 2)
           (text_to_ngrams_vector "mitten" 2)).
  vm_compute. reflexivity.
Defined.

(** X13. Two non-empty vectors with the same keys have Jaccard index
    [1.0], however their counts differ. *)
Theorem jaccard_index_same_keys (vec1 vec2 : gmap string Z) :
  dom vec1 = dom vec2 -> vec1 <> ∅ -> Z.of_nat (size vec1) < 2 ^ 1023 ->
  jaccard_index vec1 vec2 = Ok 1%float.
Proof.
  intros Hdom Hne Hsize.
  rewrite jaccard_index_of_keys, <- Hdom, <- jaccard_index_of_keys.
  by apply jaccard_index_self.
Qed.

Lemma jaccard_index_same_keys_witness :
  jaccard_index (text_to_ngrams_vector "aaab" 2) (text_to_ngrams_vector "aab" 2)
  = Ok 1%float.
Proof.
  apply (jaccard_index_same_keys (text_to_ngrams_vector "aaab" 2)
           (text_to_ngrams_vector "aab" 2)).
  - vm_compute. reflexivity.
  - intros H. apply (f_equal (fun m => m !! "aa"%string)) in H.
    vm_compute in H. discriminate.
  - vm_compute. reflexivity.
Defined.

(** ** No exception on real strings *)

Lemma nonneg_counts_insert (vec : gmap string Z) (k : string) (x : Z) :
  vec !! k = None -> nonneg_counts (<[k := x]> vec) -> 0 <= x /\ nonneg_counts vec.
Proof.
  intros Hk H. split.
  - apply (H k). apply lookup_insert_eq.
  - intros j y Hj. apply (H j). rewrite lookup_insert_ne; [done|congruence].
Qed.

Lemma total_count_nonneg (vec : gmap string Z) :
  nonneg_counts vec -> 0 <= total_count vec.
Proof.
  induction vec as [|k x vec Hk IH] using map_ind; intros H.
  - unfold total_count. by rewrite map_fold_empty.
  - apply nonneg_counts_insert in H as [Hx H]; [|done].
    rewrite total_count_insert by done. specialize (IH H). lia.
Qed.

Lemma lookup_le_total_count (vec : gmap string Z) (k : string) :
  nonneg_counts vec -> 0 <= getitem vec k <= total_count vec.
Proof.
  induction vec as [|j x vec Hj IH] using map_ind; intros H.
  - unfold getitem, total_count. rewrite lookup_empty, map_fold_empty. simpl. lia.
  - apply nonneg_counts_insert in H as [Hx H]; [|done].
    rewrite total_count_insert by done. specialize (IH H).
    pose proof (total_count_nonneg vec H).
    unfold getitem in *. destruct (decide (j = k)) as [->|Hne].
    + rewrite lookup_insert_eq. simpl. lia.
    + rewrite lookup_insert_ne by done. lia.
Qed.

Lemma sq_norm_insert (vec : gmap string Z) (k : string) (x : Z) :
  vec !! k = None -> sq_norm (<[k := x]> vec) = x ^ 2 + sq_norm vec.
Proof.
  intros Hk. unfold sq_norm. rewrite map_fold_insert_L; [lia| |done].
  intros. lia.
Qed.

Lemma sq_norm_le_total (vec : gmap string Z) :
  nonneg_counts vec -> sq_norm vec <= total_count vec * total_count vec.
Proof.
  induction vec as [|k x vec Hk IH] using map_ind; intros H.
  - unfold total_count. rewrite sq_norm_empty, map_fold_empty. lia.
  - apply nonneg_counts_insert in H as [Hx H]; [|done].
    rewrite sq_norm_insert, total_count_insert by done. specialize (IH H).
    pose proof (total_count_nonneg vec H). nia.
Qed.

Lemma dot_insert (vec1 vec2 : gmap string Z) (k : string) (x : Z) :
  vec1 !! k = None ->
  dot (<[k := x]> vec1) vec2 = x * getitem vec2 k + dot vec1 vec2.
Proof.
  intros Hk. unfold dot. rewrite map_fold_insert_L; [| |done].
  - unfold getitem. destruct (vec2 !! k); simpl; lia.
  - intros. lia.
Qed.

Lemma dot_le_total (vec1 vec2 : gmap string Z) :
  nonneg_counts vec1 -> nonneg_counts vec2 ->
  dot vec1 vec2 <= total_count vec1 * total_count vec2.
Proof.
  intros H1 H2. induction vec1 as [|k x vec1 Hk IH] using map_ind.
  - unfold dot, total_count. rewrite !map_fold_empty. lia.
  - apply nonneg_counts_insert in H1 as [Hx H1]; [|done].
    rewrite dot_insert, total_count_insert by done. specialize (IH H1).
    pose proof (lookup_le_total_count vec2 k H2).
    pose proof (total_count_nonneg vec2 H2). nia.
Qed.

Lemma text_vector_nonneg (text : string) (n : Z) :
  nonneg_counts (text_to_ngrams_vector text n).
Proof. intros k x Hx. apply Counter_positive in Hx. lia. Qed.

Lemma text_vector_total (text : string) :
  0 <= total_count (text_to_ngrams_vector text 2) <= Z.of_nat (String.length text).
Proof.
  split; [apply total_count_nonneg, text_vector_nonneg|].
  unfold text_to_ngrams_vector. rewrite total_count_Counter.
  pose proof (length_ngrams text 2). lia.
Qed.

Lemma float_of_int_returns (a : Z) :
  0 <= a < 2 ^ 1023 -> exists f, float_of_int a = Ok f.
Proof.
  intros [Ha Hlt]. destruct (Z.eq_dec a 0) as [->|Hne].
  - exists 0%float. apply float_of_int_0.
  - assert (Hpos : 0 < a) by lia.
    destruct (float_of_int_in_range a (conj Hpos Hlt)) as (f & Hf & _). eauto.
Qed.

Lemma product_in_range (a b s t : Z) :
  0 <= a <= s -> 0 <= b <= t -> s < 2 ^ 63 -> t < 2 ^ 63 ->
  0 <= a * b < 2 ^ 1023.
Proof.
  intros Ha Hb Hs Ht. split; [nia|].
  apply Z.lt_le_trans with (2 ^ 63 * 2 ^ 63).
  - remember (2 ^ 63) as B eqn:HB.
    assert (0 < B) by (subst B; reflexivity). nia.
  - apply Z.leb_le. vm_compute. reflexivity.
Qed.

Lemma score_defined (query choice : string) :
  Z.of_nat (String.length query) < 2 ^ 63 ->
  Z.of_nat (String.length choice) < 2 ^ 63 ->
  exists s : float, score query choice = Ok s.
Proof.
  intros Hq Hc. unfold score.
  set (v1 := text_to_ngrams_vector query 2). set (v2 := text_to_ngrams_vector choice 2).
  pose proof (text_vector_nonneg query 2) as N1. fold v1 in N1.
  pose proof (text_vector_nonneg choice 2) as N2. fold v2 in N2.
  pose proof (text_vector_total query) as T1. fold v1 in T1.
  pose proof (text_vector_total choice) as T2. fold v2 in T2.
  rewrite cosine_similar_eq_formula. unfold cosine_formula.
  pose proof (sq_norm_nonneg v1) as S1. pose proof (sq_norm_le_total v1 N1) as S1'.
  pose proof (sq_norm_nonneg v2) as S2. pose proof (sq_norm_le_total v2 N2) as S2'.
  pose proof (product_in_range _ _ _ _ T1 T1 Hq Hq) as P1.
  pose proof (product_in_range _ _ _ _ T2 T2 Hc Hc) as P2.
  pose proof (product_in_range _ _ _ _ T1 T2 Hq Hc) as P12.
  pose proof (dot_nonneg v1 v2 N1 N2) as D. pose proof (dot_le_total v1 v2 N1 N2) as D'.
  destruct (float_of_int_returns (sq_norm v1)) as [f1 F1];
    [split; [done|]; eapply Z.le_lt_trans; [exact S1'|apply P1]|].
  destruct (float_of_int_returns (sq_norm v2)) as [f2 F2];
    [split; [done|]; eapply Z.le_lt_trans; [exact S2'|apply P2]|].
  destruct (float_of_int_returns (dot v1 v2)) as [n Fn];
    [split; [done|]; eapply Z.le_lt_trans; [exact D'|apply P12]|].
  destruct (math_sqrt_nonneg (sq_norm v1) S1) as [[E _]|(x1 & _ & -> & _)];
    [congruence|].
  destruct (math_sqrt_nonneg (sq_norm v2) S2) as [[E _]|(x2 & _ & -> & _)];
    [congruence|].
  rewrite !bind_Ok. cbv zeta. destruct (_ =? _)%float; [eauto|].
  rewrite Fn, bind_Ok. eauto.
Qed.

(** X14. For strings that CPython can hold (fewer than [2 ^ 63]
    characters) the score of a candidate is always computed: no
    [OverflowError], no [ValueError], and the score is at least [0.0]. *)
Theorem score_returns (query choice : string) :
  Z.of_nat (String.length query) < 2 ^ 63 ->
  Z.of_nat (String.length choice) < 2 ^ 63 ->
  exists s : float, score query choice = Ok s /\ (0 <=? s)%float = true.
Proof.
  intros Hq Hc. destruct (score_defined query choice Hq Hc) as [s Hs].
  exists s. split; [done|].
  apply (cosine_similar_nonneg (text_to_ngrams_vector query 2)
           (text_to_ngrams_vector choice 2)); [apply text_vector_nonneg..|done].
Qed.

Lemma score_returns_witness :
  exists s : float, score "kitten" "mitten" = Ok s /\ (0 <=? s)%float = true.
Proof.
  apply (score_returns "kitten" "mitten"); vm_compute; reflexivity.
Defined.

(** X15. For a query and candidates that CPython can hold (fewer than
    [2 ^ 63] characters each) nothing is raised: the matcher yields exactly
    the matching pairs and is exhausted, and [select_best_one] returns the
    sentinel when there is none and the first pair of greatest score
    otherwise. *)
Theorem select_best_one_returns (query : string) (choices : list string)
    (score_cutoff : float) :
  Z.of_nat (String.length query) < 2 ^ 63 ->
  (forall choice, choice ∈ choices -> Z.of_nat (String.length choice) < 2 ^ 63) ->
  select_best_list query choices score_cutoff
  = gen_of_list (matches query choices score_cutoff) /\
  exists r,
    select_best_one query choices score_cutoff = Ok r /\
    (matches query choices score_cutoff = [] -> r = (""%string, 0%float)) /\
    (matches query choices score_cutoff <> [] ->
     exists i, first_max snd (matches query choices score_cutoff) i r).
Proof.
  intros Hq Hcs.
  assert (Hl : select_best_list query choices score_cutoff
               = gen_of_list (matches query choices score_cutoff)).
  { unfold select_best_list. apply select_best_loop_matches.
    intros choice Hin _. exact (score_defined query choice Hq (Hcs _ Hin)). }
  split; [exact Hl|]. unfold select_best_one. rewrite Hl.
  destruct (matches query choices score_cutoff) as [|p l] eqn:Em.
  - exists (""%string, 0%float). simpl. done.
  - destruct (py_max_first_max snd (p :: l)) as (i & r & Hmax & Hfirst); [done| |].
    + intros x Hx. rewrite <- Em in Hx. destruct x as [c s].
      apply elem_of_matches in Hx as (_ & _ & _ & Hx).
      by apply float_leb_number in Hx as [_ ?].
    + exists r. rewrite Hmax. split; [done|]. split; [done|]. eauto.
Qed.

Lemma select_best_one_returns_witness :
  exists r,
    select_best_one "kitten" ["sitting"; "kitten"; "mitten"]%string 0.5%float = Ok r.
Proof.
  destruct (select_best_one_returns "kitten" ["sitting"; "kitten"; "mitten"]%string
              0.5%float) as (_ & r & Hr & _).
  - vm_compute. reflexivity.
  - intros choice Hin.
    repeat (apply elem_of_cons in Hin as [->|Hin]; [vm_compute; reflexivity|]).
    by apply elem_of_nil in Hin.
  - exists r. exact Hr.
Defined.

(** * Rounding errors of the cosine score *)

(** ** Powers of two and values *)

Lemma bpow_pos (e : Z) : (0 < bpow e)%R.
Proof. apply powerRZ_lt. lra. Qed.

Lemma bpow_add (a b : Z) : bpow (a + b) = (bpow a * bpow b)%R.
Proof. apply powerRZ_add. lra. Qed.

Lemma bpow_IZR (k : Z) : 0 <= k -> bpow k = IZR (2 ^ k).
Proof.
  intros Hk. unfold bpow. destruct k as [|p|p]; [reflexivity| |lia].
  symmetry. apply Zpower_pos_powerRZ.
Qed.

Lemma bpow_le (a b : Z) : a <= b -> (bpow a <= bpow b)%R.
Proof.
  intros Hab. replace b with (a + (b - a)) by lia. rewrite bpow_add.
  rewrite (bpow_IZR (b - a)) by lia.
  assert (1 <= 2 ^ (b - a)) by (apply (Z.pow_le_mono_r 2 0); lia).
  apply IZR_le in H. pose proof (bpow_pos a). nra.
Qed.

Lemma bpow_lt_inv (a b : Z) : (bpow a < bpow b)%R -> a < b.
Proof.
  intros H. destruct (Z.lt_ge_cases a b) as [|Hge]; [done|].
  apply bpow_le in Hge. lra.
Qed.

Lemma F2R_shift (m e k : Z) : 0 <= k -> F2R (m * 2 ^ k) e = F2R m (e + k).
Proof.
  intros Hk. unfold F2R. rewrite mult_IZR, <- bpow_IZR, (Z.add_comm e), bpow_add by done.
  ring.
Qed.

Lemma F2R_le (m m' e : Z) : m <= m' -> (F2R m e <= F2R m' e)%R.
Proof.
  intros H. unfold F2R. apply IZR_le in H. pose proof (bpow_pos e). nra.
Qed.


Lemma F2R_0 (m : Z) : F2R m 0 = IZR m.
Proof. unfold F2R, bpow. simpl. ring. Qed.

Lemma F2R_pos (m e : Z) : 0 < m -> (0 < F2R m e)%R.
Proof.
  intros H. apply Rmult_lt_0_compat; [by apply IZR_lt|apply bpow_pos].
Qed.

Lemma F2R_double (m e : Z) : F2R (2 * m) e = (2 * F2R m e)%R.
Proof. unfold F2R. rewrite mult_IZR. ring. Qed.

Lemma F2R_plus (m k e : Z) : F2R (m + k) e = (F2R m e + F2R k e)%R.
Proof. unfold F2R. rewrite plus_IZR. ring. Qed.

Lemma F2R_one (e : Z) : F2R 1 e = bpow e.
Proof. unfold F2R. ring. Qed.

Lemma F2R_succ_exp (m e : Z) : F2R m (e + 1) = (2 * F2R m e)%R.
Proof. unfold F2R. rewrite bpow_add. change (bpow 1) with (2 * 1)%R. ring. Qed.

Lemma F2R_renorm (m1 e1 : Z) :
  F2R (fst (renorm m1 e1)) (snd (renorm m1 e1)) = F2R m1 e1.
Proof.
  unfold renorm. destruct (Z.eqb_spec m1 (2 ^ 53)) as [->|]; cbn [fst snd]; [|done].
  change (2 ^ 53) with (2 ^ 52 * 2 ^ 1). by rewrite F2R_shift.
Qed.

Lemma renorm_range (m1 e1 q : Z) :
  2 ^ 52 <= q < 2 ^ 53 -> q <= m1 <= q + 1 ->
  2 ^ 52 <= fst (renorm m1 e1) < 2 ^ 53 /\ e1 <= snd (renorm m1 e1) <= e1 + 1.
Proof.
  intros Hq Hm. unfold renorm.
  assert (2 ^ 52 < 2 ^ 53) by reflexivity.
  destruct (Z.eqb_spec m1 (2 ^ 53)); cbn [fst snd]; lia.
Qed.

Lemma finish_normal (s : bool) (m1 e1 : Z) :
  2 ^ 52 <= m1 <= 2 ^ 53 -> -1074 <= e1 ->
  finish s m1 e1 = finite_or_inf s (renorm m1 e1).
Proof.
  intros Hm He. unfold finish, renorm, finite_or_inf. rewrite fexp_eq.
  change (emax - prec) with 971.
  destruct (Z.eqb_spec m1 (2 ^ 53)) as [E|E]; cbn [fst snd].
  - rewrite E. change (Zdigits2 (2 ^ 53)) with 54.
    replace (Z.max (Z.max (54 + e1 - 53) (-1074) - e1) 0) with 1 by lia.
    reflexivity.
  - assert (Hd1 : Zdigits2 m1 = 53) by (apply Zdigits2_unique; lia).
    rewrite Hd1.
    replace (Z.max (Z.max (53 + e1 - 53) (-1074) - e1) 0) with 0 by lia.
    rewrite Z.pow_0_r, Z.div_1_r, Z.add_0_r.
    destruct m1 as [|q|q] eqn:Em; [lia| |lia]. reflexivity.
Qed.

Lemma finite_or_inf_finite (s : bool) (m e : Z) :
  e <= 971 -> finite_or_inf s (m, e) = S754_finite s (Z.to_pos m) e.
Proof.
  intros He. unfold finite_or_inf. cbn [fst snd].
  by destruct (Z.leb_spec e 971); [|lia].
Qed.

(** ** Half a unit in the last place *)

Lemma half_ulp_pos : (0 < half_ulp)%R.
Proof. apply bpow_pos. Qed.

Lemma half_ulp_inv : (half_ulp * IZR (2 ^ 53) = 1)%R.
Proof.
  unfold half_ulp. rewrite <- (bpow_IZR 53), <- bpow_add by lia. reflexivity.
Qed.

Lemma half_ulp_small : (half_ulp <= / 64)%R.
Proof.
  pose proof half_ulp_inv as H. pose proof half_ulp_pos as Hp.
  assert (H64 : (64 <= IZR (2 ^ 53))%R) by (apply IZR_le; lia).
  set (T := IZR (2 ^ 53)) in *. nra.
Qed.

Lemma ulp_one_half : ulp_one = (2 * half_ulp)%R.
Proof.
  unfold ulp_one, half_ulp. change (-52) with (-53 + 1). rewrite bpow_add.
  change (bpow 1) with (2 * 1)%R. ring.
Qed.

(** A mantissa within half a unit of a real, relative to that real. *)
Lemma half_interval (q m1 e1 : Z) (v : R) :
  2 ^ 52 <= q -> (F2R q e1 <= v)%R ->
  (F2R (2 * m1 - 1) e1 <= 2 * v <= F2R (2 * m1 + 1) e1)%R ->
  ((1 - half_ulp) * v <= F2R m1 e1 <= (1 + half_ulp) * v)%R.
Proof.
  intros Hq Hv [Hlo Hhi].
  replace (2 * m1 - 1) with (2 * m1 + -1) in Hlo by lia.
  rewrite F2R_plus, F2R_double in Hlo, Hhi. rewrite F2R_one in Hhi.
  replace (F2R (-1) e1) with (- bpow e1)%R in Hlo by (unfold F2R; ring).
  pose proof (bpow_pos e1) as Hb. pose proof half_ulp_inv as Hu.
  pose proof half_ulp_pos as Hup.
  assert (Hb' : (bpow e1 <= 2 * (half_ulp * v))%R).
  { apply Rle_trans with (2 * (half_ulp * F2R q e1))%R.
    - unfold F2R. apply IZR_le in Hq.
      change (2 ^ 53) with (2 * 2 ^ 52) in Hu. rewrite mult_IZR in Hu.
      set (T := IZR (2 ^ 52)) in *. set (b := bpow e1) in *.
      replace b with (half_ulp * (2 * T) * b)%R at 1 by (rewrite Hu; ring).
      assert (0 < half_ulp * b)%R by (by apply Rmult_lt_0_compat).
      replace (half_ulp * (2 * T) * b)%R with (2 * (half_ulp * b) * T)%R by ring.
      replace (2 * (half_ulp * (IZR q * b)))%R with (2 * (half_ulp * b) * IZR q)%R by ring.
      apply Rmult_le_compat_l; lra.
    - apply Rmult_le_compat_l; [lra|]. apply Rmult_le_compat_l; lra. }
  split; lra.
Qed.

Lemma rne_nearest (m k : Z) :
  0 <= k -> (2 * rne m k - 1) * 2 ^ k <= 2 * m <= (2 * rne m k + 1) * 2 ^ k.
Proof.
  intros Hk. assert (Hp : 0 < 2 ^ k) by lia.
  pose proof (Z.div_mod m (2 ^ k) ltac:(lia)) as D.
  pose proof (Z.mod_pos_bound m (2 ^ k) Hp) as Hr.
  unfold rne. destruct (Z.compare_spec (2 * (m mod 2 ^ k)) (2 ^ k));
    [destruct (Z.even (m / 2 ^ k))| |]; nia.
Qed.

Lemma div_interval (mx n : Z) :
  0 <= n -> mx / 2 ^ n * 2 ^ n <= mx < (mx / 2 ^ n + 1) * 2 ^ n.
Proof.
  intros Hn. assert (H2n : 0 < 2 ^ n) by (apply Z.pow_pos_nonneg; lia).
  pose proof (Z.mul_div_le mx (2 ^ n) H2n).
  pose proof (Z.mul_succ_div_gt mx (2 ^ n) H2n). lia.
Qed.

(** Rounding an exact mantissa of at least 53 bits. *)
Lemma round_value_exact (s : bool) (mx ex : Z) :
  0 < mx -> 53 <= Zdigits2 mx -> -1074 <= ex ->
  exists m e : Z,
    binary_round_aux prec emax s mx ex loc_Exact = finite_or_inf s (m, e) /\
    2 ^ 52 <= m < 2 ^ 53 /\
    ex + Zdigits2 mx - 53 <= e <= ex + Zdigits2 mx - 52 /\
    ((1 - half_ulp) * F2R mx ex <= F2R m e <= (1 + half_ulp) * F2R mx ex)%R.
Proof.
  intros Hm Hd He.
  rewrite binary_round_aux_exact, round_exact_normal by lia.
  pose proof (round_normal_range mx ex Hm Hd) as Hr.
  exists (fst (round_normal mx ex)), (snd (round_normal mx ex)).
  rewrite <- surjective_pairing. split; [done|]. split; [done|].
  split; [unfold round_normal; destruct (_ =? _); cbn [snd]; lia|].
  set (n := Zdigits2 mx - 53).
  assert (EF : F2R (fst (round_normal mx ex)) (snd (round_normal mx ex))
               = F2R (rne mx n) (ex + n)).
  { unfold round_normal. fold n.
    destruct (Z.eqb_spec (rne mx n) (2 ^ 53)) as [->|]; cbn [fst snd].
    - change (2 ^ 53) with (2 ^ 52 * 2 ^ 1). rewrite F2R_shift by lia.
      f_equal. lia.
    - f_equal. lia. }
  rewrite EF.
  pose proof (div_pow2_digits mx _ n Hm eq_refl ltac:(lia)) as Hq.
  replace (Zdigits2 mx - n - 1) with 52 in Hq by lia.
  pose proof (div_interval mx n ltac:(lia)) as Hdi.
  pose proof (rne_nearest mx n ltac:(lia)) as Hrn.
  apply (half_interval (mx / 2 ^ n)); [lia| |].
  - rewrite <- F2R_shift by lia. apply F2R_le. lia.
  - rewrite <- F2R_double, <- !F2R_shift by lia. split; apply F2R_le; lia.
Qed.

(** ** Rounding from a location *)

Lemma loc_of_shr_record_of_loc (m : Z) (l : location) :
  loc_of_shr_record (shr_record_of_loc m l) = l.
Proof. destruct l as [|[]]; reflexivity. Qed.

Lemma located_interval (v : R) (m e : Z) (l : location) :
  located v m e l -> (F2R m e <= v < F2R (m + 1) e)%R.
Proof.
  pose proof (bpow_pos e) as Hb.
  destruct l as [|[]]; cbn [located]; rewrite ?F2R_plus, ?F2R_double, ?F2R_one;
    intros; lra.
Qed.

Lemma located_round (v : R) (m e : Z) (l : location) :
  located v m e l ->
  m <= round_nearest_even m l <= m + 1 /\
  (F2R (2 * round_nearest_even m l - 1) e <= 2 * v
   <= F2R (2 * round_nearest_even m l + 1) e)%R.
Proof.
  intros Hl. split; [apply round_nearest_even_bounds|].
  pose proof (bpow_pos e) as Hb. revert Hl.
  assert (E : forall k, F2R (2 * k - 1) e = (2 * F2R k e - bpow e)%R).
  { intros k. unfold F2R. rewrite minus_IZR, mult_IZR. ring. }
  assert (E' : forall k, F2R (2 * k + 1) e = (2 * F2R k e + bpow e)%R).
  { intros k. unfold F2R. rewrite plus_IZR, mult_IZR. ring. }
  assert (E1 : F2R (m + 1) e = (F2R m e + bpow e)%R).
  { unfold F2R. rewrite plus_IZR. ring. }
  destruct l as [|[]]; cbn [located round_nearest_even];
    try destruct (Z.even m); rewrite ?E, ?E', ?E1; intros; lra.
Qed.

Lemma located_shr_1 (v : R) (m e : Z) (l : location) :
  0 <= m -> located v m e l ->
  located v (shr_m (shr_1 (shr_record_of_loc m l))) (e + 1)
    (loc_of_shr_record (shr_1 (shr_record_of_loc m l))).
Proof.
  intros Hm Hl. pose proof (located_interval v m e l Hl) as [Hlo Hhi].
  pose proof (bpow_pos e) as Hb.
  pose proof (Z.div_mod m 2 ltac:(lia)) as D. rewrite Zmod_odd in D.
  assert (Hs : shr_1 (shr_record_of_loc m l)
               = {| shr_m := m / 2; shr_r := Z.odd m;
                    shr_s := match l with loc_Exact => false | _ => true end |}).
  { destruct l as [|[]]; cbn [shr_record_of_loc]; by rewrite shr_1_fields. }
  rewrite Hs. cbn [shr_m]. clear Hs.
  assert (Em : IZR m = (2 * IZR (m / 2) + (if Z.odd m then 1 else 0))%R).
  { rewrite D at 1. rewrite plus_IZR, mult_IZR. by destruct (Z.odd m). }
  clear D. set (q := m / 2) in *.
  destruct (Z.odd m), l as [|[]]; cbn [located loc_of_shr_record] in *;
    rewrite ?F2R_succ_exp; unfold F2R in *;
    repeat first [rewrite plus_IZR in * | rewrite mult_IZR in *];
    rewrite Em in *; try split; lra.
Qed.

Lemma binary_round_aux_finish (s : bool) (mx ex : Z) (l : location) :
  0 <= mx ->
  binary_round_aux prec emax s mx ex l
  = finish s
      (round_nearest_even
         (shr_m (fst (shr_fexp prec emax mx ex l)))
         (loc_of_shr_record (fst (shr_fexp prec emax mx ex l))))
      (ex + first_shift mx ex).
Proof.
  intros Hm. unfold binary_round_aux, shr_fexp.
  set (n := fexp prec emax (Zdigits2 mx + ex) - ex).
  assert (Hn : first_shift mx ex = Z.max n 0) by reflexivity. rewrite Hn.
  pose proof (shr_m_general (shr_record_of_loc mx l) ex n) as Hshr.
  rewrite shr_record_of_loc_m in Hshr. destruct (Hshr Hm) as [Hm' He'].
  destruct (shr (shr_record_of_loc mx l) ex n) as [mrs' e'] eqn:Eshr.
  cbn [fst snd] in *. subst e'.
  set (m1 := round_nearest_even (shr_m mrs') (loc_of_shr_record mrs')).
  pose proof (round_nearest_even_bounds (shr_m mrs') (loc_of_shr_record mrs'))
    as [Hb _]. fold m1 in Hb. rewrite Hm' in Hb.
  assert (Hq : 0 <= mx / 2 ^ Z.max n 0) by (apply Z.div_pos; lia).
  cbn [shr_record_of_loc]. rewrite shr_exact by lia.
  rewrite shifted_m, of_nat_to_nat. reflexivity.
Qed.

(** Rounding a mantissa of 53 or 54 bits, from the location of a real. *)
Lemma round_value_located (s : bool) (mx ex : Z) (l : location) (v : R) :
  0 < mx -> 53 <= Zdigits2 mx <= 54 -> -1074 <= ex + Zdigits2 mx - 53 ->
  located v mx ex l ->
  exists m e : Z,
    binary_round_aux prec emax s mx ex l = finite_or_inf s (m, e) /\
    2 ^ 52 <= m < 2 ^ 53 /\
    ex + Zdigits2 mx - 53 <= e <= ex + Zdigits2 mx - 52 /\
    ((1 - half_ulp) * v <= F2R m e <= (1 + half_ulp) * v)%R.
Proof.
  intros Hm Hd He Hl.
  rewrite binary_round_aux_finish by lia.
  assert (Hn : first_shift mx ex = Zdigits2 mx - 53).
  { unfold first_shift. rewrite fexp_eq. lia. }
  rewrite Hn. unfold shr_fexp. rewrite fexp_eq.
  replace (Z.max (Zdigits2 mx + ex - 53) (-1074) - ex) with (Zdigits2 mx - 53) by lia.
  set (n := Zdigits2 mx - 53) in *.
  pose proof (div_pow2_digits mx _ n Hm eq_refl ltac:(lia)) as Hq.
  replace (Zdigits2 mx - n - 1) with 52 in Hq by lia.
  replace (Zdigits2 mx - n) with 53 in Hq by lia.
  assert (Hres : forall q l',
            q = mx / 2 ^ n -> located v q (ex + n) l' ->
            exists m e : Z,
              finish s (round_nearest_even q l') (ex + n) = finite_or_inf s (m, e) /\
              2 ^ 52 <= m < 2 ^ 53 /\
              ex + Zdigits2 mx - 53 <= e <= ex + Zdigits2 mx - 52 /\
              ((1 - half_ulp) * v <= F2R m e <= (1 + half_ulp) * v)%R).
  { intros q l' -> Hl'.
    destruct (located_round v _ _ l' Hl') as [Hb Hv].
    pose proof (located_interval v _ _ l' Hl') as [Hlo _].
    set (m1 := round_nearest_even (mx / 2 ^ n) l') in *.
    destruct (renorm_range m1 (ex + n) _ Hq Hb) as [Hr He'].
    exists (fst (renorm m1 (ex + n))), (snd (renorm m1 (ex + n))).
    rewrite <- surjective_pairing.
    split; [apply finish_normal; lia|]. split; [done|]. split; [lia|].
    rewrite F2R_renorm. apply (half_interval (mx / 2 ^ n)); [lia|done|done]. }
  destruct (Z.eq_dec n 0) as [E0|E0].
  - rewrite E0 in *. cbn [shr fst].
    rewrite shr_record_of_loc_m, loc_of_shr_record_of_loc.
    apply Hres; [by rewrite Z.pow_0_r, Z.div_1_r|by rewrite Z.add_0_r].
  - assert (E1 : n = 1) by lia. rewrite E1 in *. cbn [shr fst SpecFloat.iter_pos].
    apply Hres; [|apply located_shr_1; [lia|done]].
    rewrite shr_1_m by (rewrite shr_record_of_loc_m; lia).
    by rewrite shr_record_of_loc_m.
Qed.

(** ** Conversion *)

(** [float(a)] is within half a unit in the last place of [a]. *)
Lemma fl_pair_value (a : Z) :
  0 < a ->
  ((1 - half_ulp) * IZR a <= F2R (fst (fl_pair a)) (snd (fl_pair a))
   <= (1 + half_ulp) * IZR a)%R.
Proof.
  intros Ha. pose proof half_ulp_pos as Hu.
  assert (HA : (0 < IZR a)%R) by (by apply IZR_lt).
  unfold fl_pair. destruct (Z.leb_spec (Zdigits2 a) 53) as [Hd|Hd]; cbn [fst snd].
  - pose proof (Zdigits2_pos a Ha).
    rewrite F2R_shift by lia.
    replace (Zdigits2 a - 53 + (53 - Zdigits2 a)) with 0 by lia.
    rewrite F2R_0. split; nra.
  - set (n := Zdigits2 a - 53).
    assert (EF : F2R (fst (round_normal a 0)) (snd (round_normal a 0))
                 = F2R (rne a n) (0 + n)).
    { unfold round_normal. fold n.
      destruct (Z.eqb_spec (rne a n) (2 ^ 53)) as [->|]; cbn [fst snd].
      - change (2 ^ 53) with (2 ^ 52 * 2 ^ 1). rewrite F2R_shift by lia.
        f_equal; lia.
      - f_equal; lia. }
    rewrite EF, <- (F2R_0 a).
    pose proof (div_pow2_digits a _ n Ha eq_refl ltac:(lia)) as Hq.
    replace (Zdigits2 a - n - 1) with 52 in Hq by lia.
    pose proof (div_interval a n ltac:(lia)) as Hdi.
    pose proof (rne_nearest a n ltac:(lia)) as Hrn.
    apply (half_interval (a / 2 ^ n)); [lia| |].
    + rewrite <- F2R_shift by lia. apply F2R_le. lia.
    + rewrite <- F2R_double, <- !F2R_shift by lia. split; apply F2R_le; lia.
Qed.

Lemma float_of_int_err (a : Z) (x : float) :
  0 < a -> float_of_int a = Ok x ->
  exists m e : Z,
    normal_float x m e /\
    Zdigits2 a - 53 <= e <= Zdigits2 a - 52 /\
    ((1 - half_ulp) * IZR a <= F2R m e <= (1 + half_ulp) * IZR a)%R.
Proof.
  intros Ha Hx.
  destruct (Z.le_gt_cases (snd (fl_pair a)) 971) as [He|He];
    [|by rewrite float_of_int_overflow in Hx by lia].
  destruct (float_of_int_pos a Ha He) as (x' & Hx' & Hsx).
  assert (x = x') as -> by congruence.
  exists (fst (fl_pair a)), (snd (fl_pair a)).
  split; [split; [done|by apply fl_pair_range]|].
  split; [by apply fl_pair_exp|by apply fl_pair_value].
Qed.

Lemma normal_float_digits (x : float) (m e : Z) :
  normal_float x m e -> exists p : positive, m = Zpos p /\
    Prim2SF x = S754_finite false p e /\ Zdigits2 (Zpos p) = 53 /\ -1074 <= e <= 971.
Proof.
  intros [Hx Hm]. destruct m as [|p|p]; try lia. exists p. cbn in Hx.
  assert (Hd : Zdigits2 (Zpos p) = 53) by (apply Zdigits2_unique; lia).
  split; [done|]. split; [done|]. split; [done|].
  pose proof (Prim2SF_valid x) as Hv. rewrite Hx in Hv.
  apply valid_finite_canonical in Hv as [Hc Hmax]. rewrite Hd in Hc. lia.
Qed.

(** ** Square root *)

Lemma sq_le_inv (p q : R) : (0 <= p)%R -> (q * q <= p * p)%R -> (q <= p)%R.
Proof. intros Hp H. nra. Qed.

Lemma sq_lt_inv (p q : R) : (0 <= p)%R -> (q * q < p * p)%R -> (q < p)%R.
Proof. intros Hp H. nra. Qed.

Lemma sqrt_location (v b Q T X : R) :
  (0 <= v)%R -> (v * v)%R = X -> (0 < b)%R -> (0 <= Q)%R ->
  X = ((Q * Q + T) * (b * b))%R ->
  (T = 0%R -> v = (Q * b)%R) /\
  ((1 <= T <= Q)%R -> (Q * b < v)%R /\ (2 * v < (2 * Q + 1) * b)%R) /\
  ((Q + 1 <= T <= 2 * Q)%R -> ((2 * Q + 1) * b < 2 * v)%R /\ (v < (Q + 1) * b)%R).
Proof.
  intros Hv0 Hvv Hb HQ HX.
  assert (Hbb : (0 < b * b)%R) by nra.
  assert (H4 : (2 * v * (2 * v))%R = (4 * X)%R) by (rewrite <- Hvv; ring).
  split; [|split].
  - intros ->.
    assert (E : (v * v = Q * b * (Q * b))%R) by (rewrite Hvv, HX; ring).
    assert (0 <= Q * b)%R by nra.
    apply Rle_antisym; apply sq_le_inv; lra.
  - intros [H1 H2]. split.
    + apply sq_lt_inv; [done|]. rewrite Hvv, HX. nra.
    + apply sq_lt_inv; [nra|]. rewrite H4, HX. nra.
  - intros [H1 H2]. split.
    + apply sq_lt_inv; [nra|]. rewrite H4, HX. nra.
    + apply sq_lt_inv; [nra|]. rewrite Hvv, HX. nra.
Qed.

(** The location that [sqrt] hands to the rounding is that of the real
    root. *)
Lemma located_sqrt (q r e : Z) (X : R) :
  0 <= q -> 0 <= r <= 2 * q ->
  X = (IZR (q * q + r) * (bpow e * bpow e))%R ->
  located (R_sqrt.sqrt X) q e
    (if r =? 0 then loc_Exact else loc_Inexact (if r <=? q then Lt else Gt)).
Proof.
  intros Hq Hr HX. pose proof (bpow_pos e) as Hb.
  assert (HQ : (0 <= IZR q)%R) by (by apply IZR_le).
  assert (HX0 : (0 <= X)%R).
  { rewrite HX. apply Rmult_le_pos; [apply IZR_le; nia|nra]. }
  rewrite plus_IZR, mult_IZR in HX.
  destruct (sqrt_location (R_sqrt.sqrt X) (bpow e) (IZR q) (IZR r) X
              (sqrt_pos X) (sqrt_sqrt X HX0) Hb HQ HX) as (Hex & Hlt & Hgt).
  destruct (Z.eqb_spec r 0) as [Hr0|Hr0];
    [|destruct (Z.leb_spec r q) as [Hle|Hgt']];
    cbn [located]; unfold F2R; rewrite ?plus_IZR, ?mult_IZR.
  - apply Hex. by rewrite Hr0.
  - apply Hlt. split; apply IZR_le; lia.
  - apply Hgt. split.
    + rewrite <- plus_IZR. apply IZR_le. lia.
    + rewrite <- mult_IZR. apply IZR_le. lia.
Qed.

Lemma div2_shift (e : Z) : Z.div2 (53 + e + 1) - 53 = Z.div2 e - 26.
Proof.
  rewrite !Z.div2_div. replace (53 + e + 1) with (e + 27 * 2) by lia.
  rewrite Z.div_add by lia. lia.
Qed.

Lemma div2_bounds (e : Z) : e - 1 <= 2 * Z.div2 e <= e.
Proof.
  rewrite Z.div2_div. pose proof (Z.div_mod e 2 ltac:(lia)).
  pose proof (Z.mod_pos_bound e 2 ltac:(lia)). lia.
Qed.

Lemma square_bounds (u v r X : R) :
  (0 < u < 1)%R -> (0 <= v)%R -> (v * v)%R = X ->
  ((1 - u) * v <= r <= (1 + u) * v)%R ->
  ((1 - u) * (1 - u) * X <= r * r <= (1 + u) * (1 + u) * X)%R.
Proof.
  intros Hu Hv <- [H1 H2].
  assert (0 <= (1 - u) * v)%R by nra.
  split.
  - replace ((1 - u) * (1 - u) * (v * v))%R with ((1 - u) * v * ((1 - u) * v))%R by ring.
    apply Rmult_le_compat; lra.
  - replace ((1 + u) * (1 + u) * (v * v))%R with ((1 + u) * v * ((1 + u) * v))%R by ring.
    apply Rmult_le_compat; lra.
Qed.

(** The square root of a normal float at least [1.0] is within half a unit
    in the last place of the real root. *)
Lemma float_sqrt_err (x : float) (m e : Z) :
  normal_float x m e -> -52 <= e ->
  exists m' e' : Z,
    normal_float (sqrt x) m' e' /\
    Z.div2 e - 26 <= e' <= Z.div2 e - 25 /\
    ((1 - half_ulp) * (1 - half_ulp) * F2R m e
     <= F2R m' e' * F2R m' e'
     <= (1 + half_ulp) * (1 + half_ulp) * F2R m e)%R.
Proof.
  intros Hn He. destruct (normal_float_digits x m e Hn) as (p & -> & Hx & Hd & Hemax).
  destruct Hn as [_ Hm]. unfold normal_float.
  rewrite sqrt_spec, Hx. unfold SF64sqrt, SFsqrt, SFsqrt_core_binary.
  rewrite fexp_eq, Hd, div2_shift.
  pose proof (div2_bounds e) as He2.
  replace (Z.min (Z.max (Z.div2 e - 26) (-1074)) (Z.div2 e))
    with (Z.div2 e - 26) by lia.
  set (e' := Z.div2 e - 26).
  assert (Hs : 52 <= e - 2 * e' <= 53) by (subst e'; lia).
  set (s := e - 2 * e') in *.
  set (m' := match s with Z.pos _ => Z.shiftl (Z.pos p) s | 0 => Z.pos p | Z.neg _ => 0 end).
  assert (Hm' : m' = Zpos p * 2 ^ s).
  { subst m'. destruct s as [|ps|ps] eqn:Es; [lia| |lia].
    rewrite Z.shiftl_mul_pow2 by lia. reflexivity. }
  clearbody m'.
  assert (H2s : 2 ^ 52 <= 2 ^ s <= 2 ^ 53) by (split; apply Z.pow_le_mono_r; lia).
  assert (Hm'r : 2 ^ 52 * 2 ^ 52 <= m' < 2 ^ 53 * 2 ^ 53) by (rewrite Hm'; nia).
  pose proof (Z.sqrtrem_spec m' ltac:(lia)) as Hspec.
  pose proof (Z.sqrtrem_sqrt m') as Hsqrt.
  destruct (Z.sqrtrem m') as [q r]. cbn [fst] in Hsqrt. subst q.
  cbv zeta in Hspec. destruct Hspec as [Hqr Hr].
  set (q := Z.sqrt m') in *.
  assert (Hq0 : 0 <= q) by apply Z.sqrt_nonneg.
  assert (Hqb : 2 ^ 52 <= q < 2 ^ 53) by nia.
  assert (Hdq : Zdigits2 q = 53) by (apply Zdigits2_unique; lia).
  assert (HX : F2R (Zpos p) e = (IZR (q * q + r) * (bpow e' * bpow e'))%R).
  { rewrite <- Hqr, Hm', mult_IZR. unfold F2R.
    replace (bpow e) with (IZR (2 ^ s) * (bpow e' * bpow e'))%R; [ring|].
    rewrite <- bpow_IZR, <- !bpow_add by lia. f_equal. lia. }
  pose proof (located_sqrt q r e' _ Hq0 Hr HX) as Hloc.
  destruct (round_value_located false q e' _ _ ltac:(lia) ltac:(lia) ltac:(lia) Hloc)
    as (m1 & e1 & -> & Hm1 & He1 & Hv).
  rewrite finite_or_inf_finite by lia.
  exists m1, e1. split; [done|]. split; [lia|].
  pose proof half_ulp_pos. pose proof half_ulp_small.
  apply (square_bounds half_ulp (R_sqrt.sqrt (F2R (Zpos p) e))); [lra|apply sqrt_pos| |done].
  apply sqrt_sqrt. apply Rlt_le, F2R_pos. lia.
Qed.

(** ** Product *)

Lemma digits_of_range (m k : Z) : 0 <= k -> 2 ^ k <= m < 2 ^ (k + 2) ->
  k + 1 <= Zdigits2 m <= k + 2.
Proof.
  intros Hk [Hlo Hhi]. assert (Hm : 0 < m) by lia.
  pose proof (Zdigits2_bounds m Hm) as [Hdl Hdh].
  pose proof (Zdigits2_pos m Hm).
  assert (H1 : 2 ^ k < 2 ^ Zdigits2 m) by lia.
  assert (H2 : 2 ^ (Zdigits2 m - 1) < 2 ^ (k + 2)) by lia.
  apply pow2_lt_inv in H1; [|lia]. apply pow2_lt_inv in H2; lia.
Qed.

(** The product of two normal floats at least [1.0] overflows or is
    within half a unit in the last place of the real product. *)
Lemma float_mul_err (x y : float) (mx ex my ey : Z) :
  normal_float x mx ex -> normal_float y my ey -> -52 <= ex -> -52 <= ey ->
  exists m e : Z,
    Prim2SF (x * y)%float = finite_or_inf false (m, e) /\
    2 ^ 52 <= m < 2 ^ 53 /\
    ex + ey + 52 <= e <= ex + ey + 54 /\
    ((1 - half_ulp) * (F2R mx ex * F2R my ey) <= F2R m e
     <= (1 + half_ulp) * (F2R mx ex * F2R my ey))%R.
Proof.
  intros Hnx Hny Hex Hey.
  destruct (normal_float_digits x mx ex Hnx) as (px & -> & Hx & Hdx & _).
  destruct (normal_float_digits y my ey Hny) as (py & -> & Hy & Hdy & _).
  destruct Hnx as [_ Hmx], Hny as [_ Hmy].
  rewrite mul_spec, Hx, Hy. unfold SF64mul, SFmul. cbn [xorb].
  rewrite Pos2Z.inj_mul.
  assert (Hp : 2 ^ 104 <= Zpos px * Zpos py < 2 ^ (104 + 2)).
  { change (2 ^ 104) with (2 ^ 52 * 2 ^ 52).
    change (2 ^ (104 + 2)) with (2 ^ 53 * 2 ^ 53). nia. }
  pose proof (digits_of_range _ 104 ltac:(lia) Hp) as Hd.
  assert (E : (F2R (Zpos px) ex * F2R (Zpos py) ey)%R
              = F2R (Zpos px * Zpos py) (ex + ey)).
  { unfold F2R. rewrite mult_IZR, bpow_add. ring. }
  rewrite E. remember (Zpos px * Zpos py) as P eqn:EP.
  destruct (round_value_exact false P (ex + ey) ltac:(lia) ltac:(lia) ltac:(lia))
    as (m & e & -> & Hm & He & Hv).
  exists m, e. split; [done|]. split; [done|]. split; [lia|done].
Qed.

(** ** Quotient *)

(** The location that the division hands to the rounding is that of the
    real quotient. *)
Lemma located_div (md q r e : Z) (v : R) :
  0 < md -> 0 <= r < md ->
  (v * IZR md)%R = (IZR (md * q + r) * bpow e)%R ->
  located v q e (new_location md r).
Proof.
  intros Hmd Hr Hv. pose proof (bpow_pos e) as Hb.
  assert (HM : (0 < IZR md)%R) by (by apply IZR_lt).
  rewrite plus_IZR, mult_IZR in Hv.
  assert (Hlt : forall B : R, (v * IZR md < B * IZR md)%R -> (v < B)%R)
    by (intros B; apply Rmult_lt_reg_r; done).
  assert (Hgt : forall B : R, (B * IZR md < v * IZR md)%R -> (B < v)%R)
    by (intros B; apply Rmult_lt_reg_r; done).
  assert (Heq : forall B : R, (v * IZR md)%R = (B * IZR md)%R -> v = B)
    by (intros B HB; apply (Rmult_eq_reg_r (IZR md)); [done|lra]).
  assert (Hcmp : forall c : comparison,
            (2 * r ?= md) = c -> r <> 0 -> located v q e (loc_Inexact c)).
  { intros c Hc Hr0.
    assert (HR : (1 <= IZR r)%R) by (apply IZR_le; lia).
    assert (HRb : (0 < IZR r * bpow e)%R) by nra.
    destruct (Z.compare_spec (2 * r) md) as [Hc'|Hc'|Hc']; subst c;
      cbn [located]; unfold F2R; rewrite ?plus_IZR, ?mult_IZR.
    - apply (Rmult_eq_reg_r (IZR md)); [|lra].
      replace (2 * v * IZR md)%R with (2 * (v * IZR md))%R by ring.
      rewrite Hv, <- Hc', mult_IZR. ring.
    - apply IZR_lt in Hc'. rewrite mult_IZR in Hc'.
      assert ((2 * IZR r) * bpow e < IZR md * bpow e)%R
        by (apply Rmult_lt_compat_r; lra).
      split.
      + apply Hgt. rewrite Hv. lra.
      + apply (Rmult_lt_reg_r (IZR md)); [done|].
        replace (2 * v * IZR md)%R with (2 * (v * IZR md))%R by ring.
        rewrite Hv. lra.
    - apply IZR_lt in Hc'. rewrite mult_IZR in Hc'.
      assert (IZR md * bpow e < (2 * IZR r) * bpow e)%R
        by (apply Rmult_lt_compat_r; lra).
      assert (IZR r * bpow e < IZR md * bpow e)%R
        by (apply Rmult_lt_compat_r; [done|apply IZR_lt; lia]).
      split.
      + apply (Rmult_lt_reg_r (IZR md)); [done|].
        replace (2 * v * IZR md)%R with (2 * (v * IZR md))%R by ring.
        rewrite Hv. lra.
      + apply Hlt. rewrite Hv. lra. }
  assert (Hex : r = 0 -> located v q e loc_Exact).
  { intros ->. cbn [located]. apply Heq. rewrite Hv. unfold F2R. ring. }
  unfold new_location.
  destruct (Z.even md) eqn:Heven;
    [unfold new_location_even|unfold new_location_odd];
    (destruct (Z.eqb_spec r 0) as [Hr0|Hr0]; [by apply Hex|]).
  - by apply Hcmp.
  - assert (Hodd : Z.odd md = true) by (by rewrite <- Z.negb_even, Heven).
    destruct (Z.compare_spec (2 * r + 1) md) as [Hc|Hc|Hc].
    + apply Hcmp; [|done]. apply Z.compare_lt_iff. lia.
    + apply Hcmp; [|done]. apply Z.compare_lt_iff. lia.
    + apply Hcmp; [|done]. apply Z.compare_gt_iff.
      assert (2 * r <> md); [|lia].
      intros E. rewrite <- E, Z.odd_mul in Hodd. done.
Qed.

(** The quotient of two normal floats of comparable magnitude is within
    half a unit in the last place of the real quotient. *)
Lemma float_div_err (n d : float) (mn en md ed : Z) :
  normal_float n mn en -> normal_float d md ed -> -1021 <= en - ed <= 1020 ->
  exists m e : Z,
    normal_float (n / d)%float m e /\
    en - ed - 53 <= e <= en - ed - 51 /\
    ((1 - half_ulp) * F2R mn en <= F2R m e * F2R md ed
     <= (1 + half_ulp) * F2R mn en)%R.
Proof.
  intros Hnn Hnd Hed.
  destruct (normal_float_digits n mn en Hnn) as (pn & -> & Hn & Hdn & _).
  destruct (normal_float_digits d md ed Hnd) as (pd & -> & Hd & Hdd & _).
  destruct Hnn as [_ Hmn], Hnd as [_ Hmd]. unfold normal_float.
  rewrite div_spec, Hn, Hd. unfold SF64div, SFdiv, SFdiv_core_binary. cbn [xorb].
  rewrite fexp_eq, Hdn, Hdd.
  replace (Z.min (Z.max (53 + en - (53 + ed) - 53) (-1074)) (en - ed))
    with (en - ed - 53) by lia.
  replace (en - ed - (en - ed - 53)) with 53 by lia.
  rewrite Z.shiftl_mul_pow2 by lia. rewrite div_eucl_div_mod.
  assert (Hq : 2 ^ 52 <= Zpos pn * 2 ^ 53 / Zpos pd < 2 ^ (52 + 2)).
  { split.
    - apply Z.div_le_lower_bound; [lia|]. nia.
    - apply Z.div_lt_upper_bound; [lia|].
      change (2 ^ (52 + 2)) with (2 * 2 ^ 53). nia. }
  pose proof (digits_of_range _ 52 ltac:(lia) Hq) as Hdq.
  pose proof (Z.div_mod (Zpos pn * 2 ^ 53) (Zpos pd) ltac:(lia)) as Hdm.
  pose proof (Z.mod_pos_bound (Zpos pn * 2 ^ 53) (Zpos pd) ltac:(lia)) as Hrm.
  pose proof (F2R_pos (Zpos pd) ed ltac:(lia)) as HD.
  set (N := F2R (Zpos pn) en) in *. set (D := F2R (Zpos pd) ed) in *.
  assert (E : (N / D * D = N)%R) by (field; lra).
  assert (Hv : (N / D * IZR (Zpos pd))%R
               = (IZR (Zpos pd * (Zpos pn * 2 ^ 53 / Zpos pd)
                       + (Zpos pn * 2 ^ 53) mod Zpos pd) * bpow (en - ed - 53))%R).
  { rewrite <- Hdm. apply (Rmult_eq_reg_r (bpow ed)); [|pose proof (bpow_pos ed); lra].
    replace (N / D * IZR (Zpos pd) * bpow ed)%R with (N / D * D)%R
      by (unfold D, F2R; ring).
    rewrite E, Rmult_assoc, <- bpow_add. unfold N.
    replace (en - ed - 53 + ed) with (en - 53) by lia.
    fold (F2R (Zpos pn * 2 ^ 53) (en - 53)). rewrite F2R_shift by lia.
    f_equal. lia. }
  pose proof (located_div _ _ _ _ _ (Pos2Z.is_pos pd) Hrm Hv) as Hloc.
  remember (Zpos pn * 2 ^ 53 / Zpos pd) as q eqn:Eq.
  destruct (round_value_located false q (en - ed - 53) _ _
              ltac:(lia) ltac:(lia) ltac:(lia) Hloc)
    as (m & e & -> & Hm & He & Hr).
  rewrite finite_or_inf_finite by lia.
  exists m, e. split; [done|]. split; [lia|].
  destruct Hr as [Hr1 Hr2].
  apply (Rmult_le_compat_r D) in Hr1; [|lra].
  apply (Rmult_le_compat_r D) in Hr2; [|lra].
  rewrite Rmult_assoc, E in Hr1, Hr2. done.
Qed.

(** ** From values back to the order of floats *)

Lemma F2R_normal_bounds (m e : Z) :
  2 ^ 52 <= m < 2 ^ 53 -> (bpow (e + 52) <= F2R m e < bpow (e + 53))%R.
Proof.
  intros [Hlo Hhi]. rewrite !(Z.add_comm e), !bpow_add.
  rewrite (bpow_IZR 52), (bpow_IZR 53) by lia.
  unfold F2R. apply IZR_le in Hlo. apply IZR_lt in Hhi.
  pose proof (bpow_pos e). split.
  - apply Rmult_le_compat_r; lra.
  - apply Rmult_lt_compat_r; lra.
Qed.

Lemma SFleb_of_value (m1 e1 m2 e2 : Z) :
  2 ^ 52 <= m1 < 2 ^ 53 -> 2 ^ 52 <= m2 < 2 ^ 53 ->
  (F2R m1 e1 < F2R (m2 + 1) e2)%R ->
  SFleb (S754_finite false (Z.to_pos m1) e1) (S754_finite false (Z.to_pos m2) e2) = true.
Proof.
  intros H1 H2 Hv. apply SFleb_finite_pos. rewrite !Z2Pos.id by lia.
  destruct (Z.lt_trichotomy e1 e2) as [Hlt|[->|Hgt]]; [by left| |].
  - right. split; [done|]. unfold F2R in Hv. pose proof (bpow_pos e2).
    assert (IZR m1 < IZR (m2 + 1))%R by nra. apply lt_IZR in H0. lia.
  - exfalso. pose proof (F2R_normal_bounds m1 e1 H1) as [Hb1 _].
    pose proof (F2R_le (m2 + 1) (2 ^ 53) e2 ltac:(lia)) as Hb2.
    change (2 ^ 53) with (1 * 2 ^ 53) in Hb2. rewrite F2R_shift in Hb2 by lia.
    unfold F2R in Hb2 at 2. rewrite Rmult_1_l in Hb2.
    pose proof (bpow_le (e2 + 53) (e1 + 52) ltac:(lia)). lra.
Qed.

Lemma float_leb_of_value (x y : float) (mx ex my ey : Z) :
  normal_float x mx ex -> normal_float y my ey ->
  (F2R mx ex < F2R (my + 1) ey)%R -> (x <=? y)%float = true.
Proof.
  intros [Hx Hmx] [Hy Hmy] Hv. rewrite leb_spec, Hx, Hy. by apply SFleb_of_value.
Qed.

(** Two normal floats whose values are within a factor two. *)
Lemma exponent_gap (m1 e1 m2 e2 : Z) :
  2 ^ 52 <= m1 < 2 ^ 53 -> 2 ^ 52 <= m2 < 2 ^ 53 ->
  (F2R m1 e1 <= 2 * F2R m2 e2)%R -> e1 <= e2 + 1.
Proof.
  intros H1 H2 Hv.
  pose proof (F2R_normal_bounds m1 e1 H1) as [Hb1 _].
  pose proof (F2R_normal_bounds m2 e2 H2) as [_ Hb2].
  assert (Hlt : (bpow (e1 + 52) < bpow (e2 + 53 + 1))%R).
  { rewrite (bpow_add (e2 + 53) 1). change (bpow 1) with (2 * 1)%R. lra. }
  apply bpow_lt_inv in Hlt. lia.
Qed.

(** ** Cauchy and Schwarz, on count vectors *)

Lemma getitem_delete_ne (vec : gmap string Z) (k j : string) :
  k <> j -> getitem (delete k vec) j = getitem vec j.
Proof. intros H. unfold getitem. by rewrite lookup_delete_ne. Qed.

Lemma dot_delete (vec1 vec2 : gmap string Z) (k : string) :
  vec1 !! k = None -> dot vec1 (delete k vec2) = dot vec1 vec2.
Proof.
  induction vec1 as [|j x vec1 Hj IH] using map_ind; intros Hk.
  - reflexivity.
  - apply lookup_insert_None in Hk as [Hk Hne].
    rewrite !dot_insert, IH, getitem_delete_ne by done. reflexivity.
Qed.

Lemma sq_norm_delete (vec : gmap string Z) (k : string) :
  sq_norm vec = getitem vec k ^ 2 + sq_norm (delete k vec).
Proof.
  unfold getitem. destruct (vec !! k) as [y|] eqn:E; simpl.
  - rewrite <- (insert_delete_id vec k y E) at 1.
    rewrite sq_norm_insert; [done|]. apply lookup_delete_eq.
  - rewrite delete_id by done. lia.
Qed.

Lemma cauchy_schwarz_step (x b P A B : Z) :
  0 <= A -> 0 <= B -> P * P <= A * B ->
  (x * b + P) * (x * b + P) <= (x ^ 2 + A) * (b ^ 2 + B).
Proof.
  intros HA HB HP.
  remember (x * x * B + A * (b * b)) as U eqn:EU.
  remember (2 * (x * b) * P) as T eqn:ET.
  assert (HU : 0 <= U) by (rewrite EU; nia).
  assert (H1 : T * T = 4 * ((x * b) * (x * b)) * (P * P)) by (rewrite ET; ring).
  assert (H2 : 4 * ((x * b) * (x * b)) * (P * P) <= 4 * ((x * b) * (x * b)) * (A * B)).
  { apply Z.mul_le_mono_nonneg_l; [|done].
    pose proof (Z.square_nonneg (x * b)). lia. }
  assert (H3 : U * U - 4 * ((x * b) * (x * b)) * (A * B)
               = (x * x * B - A * (b * b)) * (x * x * B - A * (b * b)))
    by (rewrite EU; ring).
  pose proof (Z.square_nonneg (x * x * B - A * (b * b))) as H4.
  assert (HT : T * T <= U * U) by lia.
  assert (HTU : T <= U).
  { destruct (Z.le_gt_cases T U) as [|Hgt]; [done|].
    assert (U * U < T * T) by (apply Z.mul_lt_mono_nonneg; lia). lia. }
  replace ((x * b + P) * (x * b + P)) with (x * b * (x * b) + T + P * P)
    by (rewrite ET; ring).
  replace ((x ^ 2 + A) * (b ^ 2 + B)) with (x * b * (x * b) + U + A * B)
    by (rewrite EU; ring).
  lia.
Qed.

Lemma dot_sq_le (vec1 vec2 : gmap string Z) :
  dot vec1 vec2 * dot vec1 vec2 <= sq_norm vec1 * sq_norm vec2.
Proof.
  revert vec2. induction vec1 as [|k x vec1 Hk IH] using map_ind; intros vec2.
  - unfold dot. rewrite map_fold_empty, sq_norm_empty. lia.
  - rewrite dot_insert, sq_norm_insert by done.
    rewrite (sq_norm_delete vec2 k), <- (dot_delete vec1 vec2 k Hk).
    apply cauchy_schwarz_step; [apply sq_norm_nonneg|apply sq_norm_nonneg|apply IH].
Qed.

(** ** Accumulated rounding error of the cosine score *)

Lemma poly_upper6 (u : R) :
  (0 < u <= / 64)%R ->
  ((1 + u) * (1 + u) < (1 + 7 * u) * ((1 - u) * (1 - u) * ((1 - u) * (1 - u))))%R.
Proof. intros Hu. nra. Qed.



(** The denominator of the cosine score, against the exact numerator. *)
Lemma cosine_denominator_value (u S1 S2 N X1 X2 s1 s2 D : R) :
  (0 < u <= / 64)%R -> (0 < N)%R -> (N * N <= S1 * S2)%R ->
  (0 < S1)%R -> (0 < S2)%R ->
  ((1 - u) * S1 <= X1)%R -> ((1 - u) * S2 <= X2)%R ->
  (0 < s1)%R -> (0 < s2)%R ->
  ((1 - u) * (1 - u) * X1 <= s1 * s1)%R -> ((1 - u) * (1 - u) * X2 <= s2 * s2)%R ->
  ((1 - u) * (s1 * s2) <= D)%R ->
  ((1 - u) * (1 - u) * ((1 - u) * (1 - u)) * N <= D)%R.
Proof.
  intros Hu HN HNS HS1 HS2 HX1 HX2 Hs1 Hs2 Hq1 Hq2 HD.
  set (a := (1 - u)%R) in *.
  assert (Ha : (0 < a <= 1)%R) by (subst a; lra).
  assert (Ha2 : (0 < a * a)%R) by nra.
  assert (Ha3 : (0 < a * a * a)%R) by nra.
  assert (H1 : (a * a * (a * S1) <= s1 * s1)%R).
  { etrans; [|exact Hq1]. apply Rmult_le_compat_l; lra. }
  assert (H2 : (a * a * (a * S2) <= s2 * s2)%R).
  { etrans; [|exact Hq2]. apply Rmult_le_compat_l; lra. }
  assert (H3 : (a * a * (a * S1) * (a * a * (a * S2)) <= s1 * s1 * (s2 * s2))%R).
  { apply Rmult_le_compat; try done; nra. }
  assert (H4 : (a * a * a * N * (a * a * a * N) <= s1 * s2 * (s1 * s2))%R).
  { replace (a * a * a * N * (a * a * a * N))%R
      with (a * a * a * (a * a * a) * (N * N))%R by ring.
    replace (s1 * s2 * (s1 * s2))%R with (s1 * s1 * (s2 * s2))%R by ring.
    etrans; [|exact H3].
    replace (a * a * (a * S1) * (a * a * (a * S2)))%R
      with (a * a * a * (a * a * a) * (S1 * S2))%R by ring.
    apply Rmult_le_compat_l; [nra|done]. }
  apply sq_le_inv in H4; [|nra].
  etrans; [|exact HD].
  replace (a * a * (a * a) * N)%R with (a * (a * a * a * N))%R by ring.
  apply Rmult_le_compat_l; lra.
Qed.

(** With a relative error of at most [u] on every rounding, the quotient
    stays below [1 + 7 * u]. *)
Lemma cosine_value_upper (u N D n : R) :
  (0 < u <= / 64)%R -> (0 < N)%R -> (0 < D)%R ->
  ((1 - u) * (1 - u) * ((1 - u) * (1 - u)) * N <= D)%R ->
  (n <= (1 + u) * N)%R ->
  (n <= 2 * D)%R /\
  (forall r : R, (r * D <= (1 + u) * n)%R -> (r < 1 + 7 * u)%R).
Proof.
  intros Hu HN HD HND Hn.
  pose proof (poly_upper6 u Hu) as Hp.
  set (a4 := ((1 - u) * (1 - u) * ((1 - u) * (1 - u)))%R) in *.
  assert (Ha4 : (/ 2 < a4 <= 1)%R) by (subst a4; nra).
  split; [nra|]. intros r Hr.
  assert (H1 : (r * D <= (1 + u) * (1 + u) * N)%R) by nra.
  assert (H2 : (a4 * (r * D) <= (1 + u) * (1 + u) * D)%R).
  { apply Rle_trans with (a4 * ((1 + u) * (1 + u) * N))%R.
    - apply Rmult_le_compat_l; lra.
    - replace (a4 * ((1 + u) * (1 + u) * N))%R
        with ((1 + u) * (1 + u) * (a4 * N))%R by ring.
      apply Rmult_le_compat_l; [nra|done]. }
  assert (H3 : (a4 * r <= (1 + u) * (1 + u))%R).
  { apply (Rmult_le_reg_r D); [done|]. lra. }
  destruct (Rlt_le_dec r (1 + 7 * u)) as [|Hge]; [done|].
  assert ((1 + 7 * u) * a4 <= a4 * r)%R; [|lra].
  rewrite (Rmult_comm a4 r). apply Rmult_le_compat_r; lra.
Qed.


Lemma cosine_max_normal : normal_float cosine_max (2 ^ 52 + 3) (-52).
Proof. split; [reflexivity|]. split; [apply Z.leb_le|apply Z.ltb_lt]; reflexivity. Qed.



Lemma ulp_one_inv : (ulp_one * IZR (2 ^ 52) = 1)%R.
Proof.
  unfold ulp_one. rewrite <- (bpow_IZR 52), <- bpow_add by lia. reflexivity.
Qed.

Lemma F2R_above_one (k : Z) : F2R (2 ^ 52 + k) (-52) = (1 + IZR k * ulp_one)%R.
Proof.
  unfold F2R. rewrite plus_IZR. fold ulp_one. pose proof ulp_one_inv as H.
  set (T := IZR (2 ^ 52)) in *. rewrite Rmult_plus_distr_r, (Rmult_comm T), H. ring.
Qed.


Lemma math_sqrt_err (a : Z) :
  0 < a ->
  (float_of_int a = Raise OverflowError /\ math_sqrt a = Raise OverflowError) \/
  (exists (x : float) (mx ex ms es : Z),
     float_of_int a = Ok x /\ math_sqrt a = Ok (sqrt x) /\
     normal_float x mx ex /\ normal_float (sqrt x) ms es /\
     Zdigits2 a - 53 <= ex <= Zdigits2 a - 52 /\
     Z.div2 ex - 26 <= es <= Z.div2 ex - 25 /\ -52 <= es /\
     ((1 - half_ulp) * IZR a <= F2R mx ex <= (1 + half_ulp) * IZR a)%R /\
     ((1 - half_ulp) * (1 - half_ulp) * F2R mx ex
      <= F2R ms es * F2R ms es
      <= (1 + half_ulp) * (1 + half_ulp) * F2R mx ex)%R).
Proof.
  intros Ha.
  destruct (math_sqrt_nonneg a ltac:(lia)) as [?|(x & Hx & Hs & _)]; [by left|right].
  destruct (float_of_int_err a x Ha Hx) as (mx & ex & Hnx & Hex & Hvx).
  pose proof (Zdigits2_pos a Ha) as Hd.
  destruct (float_sqrt_err x mx ex Hnx ltac:(lia)) as (ms & es & Hns & Hes & Hvs).
  pose proof (div2_bounds ex) as Hd2.
  exists x, mx, ex, ms, es. repeat (split; [done|]). split; [lia|]. done.
Qed.

Lemma float_inf_not_zero (d : float) :
  Prim2SF d = S754_infinity false -> (d =? 0)%float = false.
Proof. intros H. rewrite FloatAxioms.eqb_spec, H. reflexivity. Qed.

Lemma float_div_inf (n d : float) (m e : Z) :
  normal_float n m e -> Prim2SF d = S754_infinity false -> (n / d)%float = 0%float.
Proof.
  intros [Hn _] Hd. apply Prim2SF_inj. rewrite div_spec, Hn, Hd. reflexivity.
Qed.

Lemma normal_float_shape (x : float) (m e : Z) :
  normal_float x m e -> exists m' e', Prim2SF x = S754_finite false m' e'.
Proof. intros [H _]. eauto. Qed.

(** The cosine score never exceeds [1 + 3 * 2 ^ -52]. *)
Lemma cosine_similar_upper (vec1 vec2 : gmap string Z) (r : float) :
  nonneg_counts vec1 -> nonneg_counts vec2 ->
  cosine_similar vec1 vec2 = Ok r -> (r <=? cosine_max)%float = true.
Proof.
  intros H1 H2. rewrite cosine_similar_eq_formula. unfold cosine_formula.
  pose proof (dot_nonneg vec1 vec2 H1 H2) as HN0.
  pose proof (dot_sq_le vec1 vec2) as HCS.
  pose proof (sq_norm_nonneg vec1) as HS1. pose proof (sq_norm_nonneg vec2) as HS2.
  set (N := dot vec1 vec2) in *. set (S1 := sq_norm vec1) in *.
  set (S2 := sq_norm vec2) in *.
  destruct (Z.eq_dec N 0) as [E0|Hne].
  - destruct (math_sqrt_nonneg S1 HS1) as [[_ E1]|(x1 & _ & E1 & _ & F1)];
      rewrite E1; [done|].
    destruct (math_sqrt_nonneg S2 HS2) as [[_ E2]|(x2 & _ & E2 & _ & F2)];
      rewrite E2; [done|].
    rewrite !bind_Ok. cbv zeta.
    destruct (sqrt x1 * sqrt x2 =? 0)%float eqn:Hz; [by intros [= <-]|].
    rewrite E0, float_of_int_0, bind_Ok. intros [= <-].
    rewrite float_zero_div_signed; [reflexivity|by apply float_mul_signed|done].
  - assert (HN : 0 < N) by lia.
    assert (HS1p : 0 < S1) by nia. assert (HS2p : 0 < S2) by nia.
    destruct (math_sqrt_err S1 HS1p)
      as [[_ E1]|(x1 & mx1 & ex1 & ms1 & es1 & _ & E1 & Hnx1 & Hns1 & _ & _ & Hes1 & Hvx1 & Hvs1)];
      rewrite E1; [done|].
    destruct (math_sqrt_err S2 HS2p)
      as [[_ E2]|(x2 & mx2 & ex2 & ms2 & es2 & _ & E2 & Hnx2 & Hns2 & _ & _ & Hes2 & Hvx2 & Hvs2)];
      rewrite E2; [done|].
    rewrite !bind_Ok. cbv zeta.
    destruct (float_mul_err _ _ _ _ _ _ Hns1 Hns2 Hes1 Hes2)
      as (mD & eD & HD & HmD & HeD & HvD).
    set (D := (sqrt x1 * sqrt x2)%float) in *.
    destruct (float_of_int N) as [n|] eqn:Hn.
    2:{ destruct (D =? 0)%float; [|done]. intros [= <-]. reflexivity. }
    destruct (float_of_int_err N n HN Hn) as (mn & en & Hnn & _ & Hvn).
    destruct (Z.le_gt_cases eD 971) as [Hfin|Hinf].
    + rewrite finite_or_inf_finite in HD by done.
      assert (HnD : normal_float D mD eD) by done.
      rewrite (finite_pos_not_zero D) by (by eapply normal_float_shape).
      rewrite bind_Ok. intros [= <-].
      destruct (n <=? D)%float eqn:Hle.
      * apply float_leb_trans with 1%float; [|reflexivity].
        apply float_div_le_one; [by eapply normal_float_shape..|done].
      * assert (Hge : eD <= en).
        { rewrite leb_spec in Hle. destruct Hnn as [Hsn Hmn]. rewrite Hsn, HD in Hle.
          destruct (Z.lt_ge_cases en eD) as [Hlt|]; [|done].
          assert (SFleb (S754_finite false (Z.to_pos mn) en)
                        (S754_finite false (Z.to_pos mD) eD) = true)
            by (apply SFleb_finite_pos; by left).
          congruence. }
        pose proof half_ulp_pos as Hu0. pose proof half_ulp_small as Hu1.
        destruct Hns1 as [_ Hms1], Hns2 as [_ Hms2].
        pose proof (F2R_pos ms1 es1 ltac:(lia)) as Hs1p.
        pose proof (F2R_pos ms2 es2 ltac:(lia)) as Hs2p.
        pose proof (F2R_pos mD eD ltac:(lia)) as HDp.
        assert (HNr : (0 < IZR N)%R) by (by apply IZR_lt).
        assert (HCSr : (IZR N * IZR N <= IZR S1 * IZR S2)%R)
          by (rewrite <- !mult_IZR; by apply IZR_le).
        pose proof (cosine_denominator_value half_ulp (IZR S1) (IZR S2) (IZR N)
                      (F2R mx1 ex1) (F2R mx2 ex2) (F2R ms1 es1) (F2R ms2 es2)
                      (F2R mD eD) ltac:(lra) HNr HCSr
                      ltac:(by apply IZR_lt) ltac:(by apply IZR_lt)
                      ltac:(lra) ltac:(lra) Hs1p Hs2p ltac:(lra) ltac:(lra)
                      ltac:(lra)) as Hden.
        destruct (cosine_value_upper half_ulp (IZR N) (F2R mD eD) (F2R mn en)
                    ltac:(lra) HNr HDp Hden ltac:(lra)) as [Hn2 Hr].
        pose proof (exponent_gap mn en mD eD ltac:(apply Hnn) HmD ltac:(lra)) as Hgap.
        destruct (float_div_err n D mn en mD eD Hnn HnD ltac:(lia))
          as (mr & er & Hnr & _ & Hvr).
        apply (float_leb_of_value _ _ mr er _ _ Hnr cosine_max_normal).
        replace (2 ^ 52 + 3 + 1) with (2 ^ 52 + 4) by lia.
        rewrite F2R_above_one, ulp_one_half.
        eapply Rlt_le_trans; [apply Hr; lra|]. lra.
    + assert (HDinf : Prim2SF D = S754_infinity false).
      { rewrite HD. unfold finite_or_inf. cbn [snd].
        by destruct (Z.leb_spec eD 971); [lia|]. }
      rewrite (float_inf_not_zero D HDinf), bind_Ok. intros [= <-].
      by rewrite (float_div_inf n D mn en).
Qed.



(** ** The scores, bounded *)

(** C7, amended. For two count vectors with non-negative values, a result
    of [jaccard_index] lies in [[0.0, 1.0]], and a result of
    [cosine_similar] lies in [[0.0, 1.0000000000000007]]: rounding can
    push the cosine score above [1.0], by at most three units in the last
    place. *)
Theorem metrics_range (vec1 vec2 : gmap string Z) :
  nonneg_counts vec1 -> nonneg_counts vec2 ->
  (forall r, jaccard_index vec1 vec2 = Ok r ->
     (0 <=? r)%float = true /\ (r <=? 1)%float = true) /\
  (forall r, cosine_similar vec1 vec2 = Ok r ->
     (0 <=? r)%float = true /\ (r <=? cosine_max)%float = true).
Proof.
  intros H1 H2. split.
  - intros r. apply jaccard_index_range.
  - intros r Hr. split.
    + by apply (cosine_similar_nonneg vec1 vec2).
    + by apply (cosine_similar_upper vec1 vec2).
Qed.

Lemma metrics_range_witness :
  nonneg_counts (text_to_ngrams_vector "kitten" 2) /\
  nonneg_counts (text_to_ngrams_vector "mitten" 2) /\
  nonneg_counts (text_to_ngrams_vector "abcd" 2) /\
  ((0 <=? 0x1.5555555555555p-1)%float = true /\
   (0x1.5555555555555p-1 <=? 1)%float = true) /\
  ((0 <=? 0x1.9999999999998p-1)%float = true /\
   (0x1.9999999999998p-1 <=? cosine_max)%float = true) /\
  ((0 <=? 0x1.0000000000001p+0)%float = true /\
   (0x1.0000000000001p+0 <=? cosine_max)%float = true).
Proof.
  assert (H : forall t, nonneg_counts (text_to_ngrams_vector t 2)).
  { intros t k x Hx. apply Counter_positive in Hx. lia. }
  split; [apply H|]. split; [apply H|]. split; [apply H|].
  destruct (metrics_range (text_to_ngrams_vector "kitten" 2)
              (text_to_ngrams_vector "mitten" 2) (H _) (H _)) as [Hj Hc].
  destruct (metrics_range (text_to_ngrams_vector "abcd" 2)
              (text_to_ngrams_vector "abcd" 2) (H _) (H _)) as [_ Hc'].
  split; [apply Hj; vm_compute; reflexivity|].
  split; [apply Hc; vm_compute; reflexivity|].
  apply Hc'. vm_compute. reflexivity.
Defined.


